(** * SARAS: the Euler / Crank-Nicolson projection step and its field layer

    A shallow embedding of [lib/field/field.cc], [lib/field/sfield.cc],
    [lib/field/plainvf.cc] and [lib/timestep/eulerCN_d3.cc].

    Numbers.  The solver's [real] is a machine floating-point type.  Here the
    field values are exact rationals in canonical form ([Qc]): every
    definition below computes, and equality is Leibniz equality.  Rounding,
    infinities and NaN are outside this model.  The one transcendental
    function of the code, [std::log] in the constructor of the time stepper,
    is taken over [R].

    Processes.  The program is SPMD: every rank runs the same code on its own
    sub-domain and the ranks meet at the collectives.  A distributed array is
    a family of local arrays indexed by the rank, and the ranks advance in
    lock step. *)

From Stdlib Require Import ZArith List Bool String Lia.
From Stdlib Require Import QArith Qcanon Qcabs.
From Stdlib Require Import Reals Lra FunctionalExtensionality.
Import ListNotations.

Set Implicit Arguments.

(** ** The number type [real] *)

Definition real : Type := Qc.

Definition Qcltb (a b : Qc) : bool :=
  match (a ?= b)%Qc with Lt => true | _ => false end.

Definition Qcmax (a b : Qc) : Qc :=
  match (a ?= b)%Qc with Lt => b | _ => a end.

(** Literals of the source: [2.0], [0.5], [5]. *)
Definition two : real := Q2Qc 2.
Definition half : real := Q2Qc (1 # 2).
Definition five : real := Q2Qc 5.

(** ** Blitz arrays and index domains *)

Module Blitz.

  (** [blitz::TinyVector<int, 3>] *)
Definition TinyVector : Type := (Z * Z * Z)%type.

Definition tv_get (v : TinyVector) (d : nat) : Z :=
    match v, d with
    | (x, _, _), O => x
    | (_, y, _), S O => y
    | (_, _, z), _ => z
    end.

Definition tv_set (v : TinyVector) (d : nat) (a : Z) : TinyVector :=
    match v, d with
    | (_, y, z), O => (a, y, z)
    | (x, _, z), S O => (x, a, z)
    | (x, y, _), _ => (x, y, a)
    end.

  (** [blitz::RectDomain<3>]: the box of indices between two corners, both
      included. *)
Record RectDomain : Type := mkRectDomain {
    lbound : TinyVector;
    ubound : TinyVector
  }.

Definition inRange (lo hi i : Z) : bool := (lo <=? i)%Z && (i <=? hi)%Z.

Definition inDomain (d : RectDomain) (i j k : Z) : bool :=
    inRange (tv_get (lbound d) 0) (tv_get (ubound d) 0) i &&
    inRange (tv_get (lbound d) 1) (tv_get (ubound d) 1) j &&
    inRange (tv_get (lbound d) 2) (tv_get (ubound d) 2) k.

  (** The indices [lo, lo+1, ..., hi] of a [for] loop. *)
Definition range (lo hi : Z) : list Z :=
    map (fun n => (lo + Z.of_nat n)%Z) (seq 0 (Z.to_nat (hi - lo + 1))).

  (** The cells of a domain, in storage order. *)
Definition cells (d : RectDomain) : list TinyVector :=
    flat_map (fun i =>
      flat_map (fun j =>
        map (fun k => (i, j, k))
            (range (tv_get (lbound d) 2) (tv_get (ubound d) 2)))
        (range (tv_get (lbound d) 1) (tv_get (ubound d) 1)))
      (range (tv_get (lbound d) 0) (tv_get (ubound d) 0)).

  (** [blitz::Array<real, 3>], local to one rank.  The bounds of the array
      are kept by its owner (the grid); the array itself is the map from an
      index to the stored value. *)
Definition Array : Type := Z -> Z -> Z -> real.

Definition at_ (A : Array) (c : TinyVector) : real :=
    let '(i, j, k) := c in A i j k.

  (** [A = a] for a number [a] *)
Definition fill (a : real) : Array := fun _ _ _ => a.

  (** [A op= B], element by element *)
Definition zipWith (op : real -> real -> real) (A B : Array) : Array :=
    fun i j k => op (A i j k) (B i j k).

  (** [A op= a] for a number [a] *)
Definition mapWith (op : real -> real) (A : Array) : Array :=
    fun i j k => op (A i j k).

  (** [A(d) = B(d)], [A(d) += B(d)], ...: the cells of [d] take
      [op (A cell) (B cell)], the others keep their value. *)
Definition onDomain (d : RectDomain) (op : real -> real -> real)
      (A B : Array) : Array :=
    fun i j k => if inDomain d i j k then op (A i j k) (B i j k) else A i j k.

  (** [A(i, j, k) = v] *)
Definition update (A : Array) (i j k : Z) (v : real) : Array :=
    fun i' j' k' =>
      if (i' =? i)%Z && (j' =? j)%Z && (k' =? k)%Z then v else A i' j' k'.

  (** [for (int i = lo; i <= hi; i++) body] *)
Definition forLoop {S : Type} (lo hi : Z) (body : Z -> S -> S) (s : S) : S :=
    fold_left (fun s i => body i s) (range lo hi) s.

  (** [blitz::max] of a list of values.  The arrays of the solver are never
      empty; the empty case gives [0]. *)
Definition max (l : list real) : real :=
    match l with
    | [] => 0%Qc
    | x :: t => fold_left Qcmax t x
    end.

  (** The values of [A] over the cells of [d] *)
Definition slice (A : Array) (d : RectDomain) : list real :=
    map (at_ A) (cells d).

End Blitz.

(** A distributed array: the local array of every rank. *)
Definition DArray : Type := nat -> Blitz.Array.

Definition dfill (a : real) : DArray := fun _ => Blitz.fill a.
Definition dzip (op : real -> real -> real) (A B : DArray) : DArray :=
  fun r => Blitz.zipWith op (A r) (B r).
Definition dmap (op : real -> real) (A : DArray) : DArray :=
  fun r => Blitz.mapWith op (A r).
Definition dOnDomain (d : Blitz.RectDomain) (op : real -> real -> real)
    (A B : DArray) : DArray :=
  fun r => Blitz.onDomain d op (A r) (B r).

(** ** MPI *)

Module MPI.

  (** [MPI_Allreduce(&loc, &glo, 1, MPI_FP_REAL, MPI_MAX, MPI_COMM_WORLD)]:
      every rank receives the maximum of the values of all [np] ranks. *)
Definition Allreduce_MAX (np : nat) (loc : nat -> real) : real :=
    fold_left Qcmax (map loc (seq 1 (np - 1))) (loc O).

End MPI.

(** ** The grid and the input parameters *)

(** The options of [parser] that the modelled code reads. *)
Record parser : Type := mkParser {
  xPer : bool;
  yPer : bool;
  zPer : bool;
  lesModel : Z;
  cnTolerance : real;
  tStp : real;
  nThreads : Z
}.

(** [grid]: what the modelled code reads of it.  All ranks own sub-domains
    of the same index box; the stretching metrics are those of the rank's
    own piece of the mesh. *)
Record grid : Type := mkGrid {
  inputParams : parser;
  nProc : nat;                          (* rankData: size of the communicator *)
  fullDomain : Blitz.RectDomain;
  coreDomain : Blitz.RectDomain;
  coreSize : Blitz.TinyVector;
  dXi : real;
  dEt : real;
  dZt : real;
  xix2 : nat -> Z -> real;
  xixx : nat -> Z -> real;
  ety2 : nat -> Z -> real;
  etyy : nat -> Z -> real;
  ztz2 : nat -> Z -> real;
  ztzz : nat -> Z -> real
}.

(** ** Calls on collaborators *)

(** The six wall objects of a scalar field: [tLft], [tRgt], [tFrn], [tBak],
    [tTop], [tBot]. *)
Inductive Wall : Type := Lft | Rgt | Frn | Bak | Top | Bot.

Definition Wall_eqb (a b : Wall) : bool :=
  match a, b with
  | Lft, Lft | Rgt, Rgt | Frn, Frn | Bak, Bak | Top, Top | Bot, Bot => true
  | _, _ => false
  end.

(** The velocity components *)
Inductive Comp : Type := CVx | CVy | CVz.

(** What the trace of a run records: the calls that leave the modelled
    files. *)
Inductive Event : Type :=
| EvSyncData (name : string)            (* mpidata::syncData of the named array *)
| EvImposeBC (name : string) (w : Wall) (* boundary::imposeBC of a wall of the named field *)
| EvImposeVBC (c : Comp)                (* vfield::imposeVxBC, imposeVyBC, imposeVzBC *)
| EvImposeVBCs                          (* vfield::imposeBCs *)
| EvComputeSG_V                         (* computeSG(nseRHS, V) *)
| EvComputeSG_VT                        (* computeSG(nseRHS, tmpRHS, V, T) *)
| EvMgSolve                             (* multigrid_d3::mgSolve(Pp, mgRHS) *)
| EvFinalize.                           (* MPI_Finalize *)

Definition Trace : Type := list Event.

Definition Event_eqb (a b : Event) : bool :=
  match a, b with
  | EvSyncData n, EvSyncData m => String.eqb n m
  | EvImposeBC n w, EvImposeBC m v => String.eqb n m && Wall_eqb w v
  | EvImposeVBC CVx, EvImposeVBC CVx
  | EvImposeVBC CVy, EvImposeVBC CVy
  | EvImposeVBC CVz, EvImposeVBC CVz => true
  | EvImposeVBCs, EvImposeVBCs => true
  | EvComputeSG_V, EvComputeSG_V => true
  | EvComputeSG_VT, EvComputeSG_VT => true
  | EvMgSolve, EvMgSolve => true
  | EvFinalize, EvFinalize => true
  | _, _ => false
  end.

(** How often an event occurs in a trace *)
Definition occurrences (e : Event) (t : Trace) : nat :=
  List.length (filter (Event_eqb e) t).

Definition invoked (e : Event) (t : Trace) : bool :=
  existsb (Event_eqb e) t.

(** A method of an object of type [S]: the object after the call and the
    calls the method made on collaborators, in order. *)
Definition Method (S : Type) : Type := S -> S * Trace.

Definition skip {S : Type} : Method S := fun s => (s, nil).

Definition call {S : Type} (e : Event) (f : S -> S) : Method S :=
  fun s => (f s, e :: nil).

Definition andThen {S : Type} (m1 m2 : Method S) : Method S :=
  fun s => let (s1, t1) := m1 s in
           let (s2, t2) := m2 s1 in (s2, t1 ++ t2).

Definition when {S : Type} (b : bool) (m : Method S) : Method S :=
  if b then m else skip.

Declare Scope method_scope.
Delimit Scope method_scope with method.
Notation "m1 ;; m2" := (andThen m1 m2)
  (at level 61, right associativity) : method_scope.

(** ** Data of the field classes *)

Module Field.

  (** [field]: the array [F] over the full domain and the name. *)
Record t : Type := mk {
    F : DArray;
    fieldName : string
  }.

Definition setF (A : DArray) (f : t) : t := mk A (fieldName f).

End Field.

Module Plainsf.

  (** [plainsf]: one bare array [F]. *)
Record t : Type := mk { F : DArray }.

End Plainsf.

Module Plainvf.

  (** [plainvf]: three bare arrays [Vx], [Vy], [Vz]. *)
Record t : Type := mk {
    Vx : DArray;
    Vy : DArray;
    Vz : DArray
  }.

End Plainvf.

Module Vfield.

  (** [vfield]: the three component fields [Vx], [Vy], [Vz]. *)
Record t : Type := mk {
    Vx : Field.t;
    Vy : Field.t;
    Vz : Field.t
  }.

End Vfield.

Module Sfield.

  (** [sfield]: the field [F], the scratch array [derivTemp] of the
      derivative calls, and the name. *)
Record t : Type := mk {
    F : Field.t;
    derivTemp : DArray;
    fieldName : string
  }.

Definition setF (A : DArray) (f : t) : t :=
    mk (Field.setF A (F f)) (derivTemp f) (fieldName f).

Definition setDerivTemp (A : DArray) (f : t) : t :=
    mk (F f) A (fieldName f).

End Sfield.

(** ** The collaborators

    Classes of the solver that the modelled files call and whose code is
    not part of them: the halo transport [mpidata], the wall objects
    [boundary], the finite-difference calculator [derivative], the methods
    of [vfield], the forcing objects, the sub-grid model [spiral] and the
    multigrid solver.  Each is a function of what the call is given. *)
Record Collaborators : Type := mkCollaborators {
  (* mpidata::syncData on the array of the named field *)
  mpi_syncData : string -> DArray -> DArray;
  (* boundary::imposeBC of wall [w] of the named scalar field *)
  bc_imposeBC : string -> Wall -> DArray -> DArray;
  (* derivative::calcDerivative...(out): from the array of the field and the
     array [out] as passed, the array [out] as left *)
  calcDerivative1_x : DArray -> DArray -> DArray;
  calcDerivative1_y : DArray -> DArray -> DArray;
  calcDerivative1_z : DArray -> DArray -> DArray;
  calcDerivative2xx : DArray -> DArray -> DArray;
  calcDerivative2yy : DArray -> DArray -> DArray;
  calcDerivative2zz : DArray -> DArray -> DArray;
  (* vfield::computeDiff(H), vfield::computeNLin(V, H), vfield::divergence(H) *)
  V_computeDiff : Vfield.t -> Plainvf.t -> Plainvf.t;
  V_computeNLin : Vfield.t -> Vfield.t -> Plainvf.t -> Plainvf.t;
  V_divergence : Vfield.t -> Plainsf.t -> Plainsf.t;
  (* vfield::imposeVxBC, imposeVyBC, imposeVzBC and vfield::imposeBCs *)
  V_imposeVBC : Comp -> Vfield.t -> Vfield.t;
  V_imposeBCs : Vfield.t -> Vfield.t;
  (* V.vForcing->addForcing(nseRHS), T.tForcing->addForcing(tmpRHS); the
     force objects hold references to the fields *)
  vForcing_addForcing : Vfield.t -> Sfield.t -> Plainvf.t -> Plainvf.t;
  tForcing_addForcing : Vfield.t -> Sfield.t -> Plainsf.t -> Plainsf.t;
  (* spiral::computeSG(nseRHS, V) and computeSG(nseRHS, tmpRHS, V, T): the
     accumulators as left and the returned sub-grid energy *)
  computeSG_V : Plainvf.t -> Vfield.t -> Plainvf.t * real;
  computeSG_VT : Plainvf.t -> Plainsf.t -> Vfield.t -> Sfield.t ->
                 Plainvf.t * Plainsf.t * real;
  (* multigrid_d3::mgSolve(Pp, mgRHS): the correction [Pp] as left *)
  mgSolve : Sfield.t -> Plainsf.t -> Sfield.t
}.

(** ** [lib/field/field.cc] *)

Module field_cc.
Section Methods.

Variable E : Collaborators.
Variable gridData : grid.

  (** [field::syncData]: [mpiHandle->syncData()] *)
Definition syncData : Method Field.t :=
    fun this =>
      call (EvSyncData (Field.fieldName this))
           (fun f => Field.setF (mpi_syncData E (Field.fieldName f) (Field.F f)) f)
           this.

  (** [field::fieldMax]:
      [localMax = blitz::max(blitz::abs(F))], then [MPI_Allreduce] with
      [MPI_MAX], and the global maximum is returned. *)
Definition fieldMax (this : Field.t) : real :=
    let localMax := fun r =>
      Blitz.max (map Qcabs (Blitz.slice (Field.F this r) (fullDomain gridData))) in
    let globalMax := MPI.Allreduce_MAX (nProc gridData) localMax in
    globalMax.

  (** [field::operator += (field &a)] and [-=] *)
Definition add_assign (this a : Field.t) : Field.t :=
    Field.setF (dzip Qcplus (Field.F this) (Field.F a)) this.
Definition sub_assign (this a : Field.t) : Field.t :=
    Field.setF (dzip Qcminus (Field.F this) (Field.F a)) this.

  (** [field::operator += (real a)] and [-=] *)
Definition add_assign_real (this : Field.t) (a : real) : Field.t :=
    Field.setF (dmap (fun x => x + a)%Qc (Field.F this)) this.
Definition sub_assign_real (this : Field.t) (a : real) : Field.t :=
    Field.setF (dmap (fun x => x - a)%Qc (Field.F this)) this.

  (** [field::operator = (real a)] and [= (field &a)] *)
Definition assign_real (this : Field.t) (a : real) : Field.t :=
    Field.setF (dfill a) this.
Definition assign (this a : Field.t) : Field.t :=
    Field.setF (Field.F a) this.

End Methods.
End field_cc.

(** ** [lib/field/plainvf.cc] *)

Module plainvf_cc.

Import Plainvf.

  (** [plainvf::multAdd]: [Vx += k*a.Vx] and so on *)
Definition multAdd (this a : t) (k : real) : t :=
    mk (dzip Qcplus (Vx this) (dmap (fun x => k * x)%Qc (Vx a)))
       (dzip Qcplus (Vy this) (dmap (fun x => k * x)%Qc (Vy a)))
       (dzip Qcplus (Vz this) (dmap (fun x => k * x)%Qc (Vz a))).

  (** [operator += (plainvf &a)], [operator -= (plainvf &a)] *)
Definition add_assign (this a : t) : t :=
    mk (dzip Qcplus (Vx this) (Vx a))
       (dzip Qcplus (Vy this) (Vy a))
       (dzip Qcplus (Vz this) (Vz a)).
Definition sub_assign (this a : t) : t :=
    mk (dzip Qcminus (Vx this) (Vx a))
       (dzip Qcminus (Vy this) (Vy a))
       (dzip Qcminus (Vz this) (Vz a)).

  (** [operator += (vfield &a)], [operator -= (vfield &a)] *)
Definition add_assign_vfield (this : t) (a : Vfield.t) : t :=
    mk (dzip Qcplus (Vx this) (Field.F (Vfield.Vx a)))
       (dzip Qcplus (Vy this) (Field.F (Vfield.Vy a)))
       (dzip Qcplus (Vz this) (Field.F (Vfield.Vz a))).
Definition sub_assign_vfield (this : t) (a : Vfield.t) : t :=
    mk (dzip Qcminus (Vx this) (Field.F (Vfield.Vx a)))
       (dzip Qcminus (Vy this) (Field.F (Vfield.Vy a)))
       (dzip Qcminus (Vz this) (Field.F (Vfield.Vz a))).

  (** [operator *= (real a)] *)
Definition mul_assign (this : t) (a : real) : t :=
    mk (dmap (fun x => x * a)%Qc (Vx this))
       (dmap (fun x => x * a)%Qc (Vy this))
       (dmap (fun x => x * a)%Qc (Vz this)).

  (** [operator = (plainvf &a)], [= (vfield &a)], [= (real a)] *)
Definition assign (this a : t) : t := mk (Vx a) (Vy a) (Vz a).
Definition assign_vfield (this : t) (a : Vfield.t) : t :=
    mk (Field.F (Vfield.Vx a)) (Field.F (Vfield.Vy a)) (Field.F (Vfield.Vz a)).
Definition assign_real (this : t) (a : real) : t :=
    mk (dfill a) (dfill a) (dfill a).

  (** Modelled from the spec: [plainvf::syncData] is declared outside
      [plainvf.cc]; "[syncData()] exchanges pad layers with all neighbors",
      here through the transport handles [mpiVxData], [mpiVyData],
      [mpiVzData] of the three arrays. *)
Definition syncData (E : Collaborators) (name : string) : Method t :=
    (call (EvSyncData (name ++ ".Vx"))
          (fun a => mk (mpi_syncData E (name ++ ".Vx") (Vx a)) (Vy a) (Vz a)) ;;
     call (EvSyncData (name ++ ".Vy"))
          (fun a => mk (Vx a) (mpi_syncData E (name ++ ".Vy") (Vy a)) (Vz a)) ;;
     call (EvSyncData (name ++ ".Vz"))
          (fun a => mk (Vx a) (Vy a) (mpi_syncData E (name ++ ".Vz") (Vz a))))%method.

End plainvf_cc.

(** ** [plainsf] and [vfield] operators used by the time stepper

    Modelled from the spec: [plainsf.cc] and [vfield.cc] are not among the
    modelled files.  The operators are the "pointwise [+=, -=, =] between
    fields and between field and scalar" of the field algebra, written as
    their [sfield] and [plainvf] counterparts are. *)

Module plainsf_ops.

Import Plainsf.

  (** Modelled from the spec: [plainsf::operator = (real a)] *)
Definition assign_real (this : t) (a : real) : t := mk (dfill a).
  (** Modelled from the spec: [plainsf::operator *= (real a)] *)
Definition mul_assign (this : t) (a : real) : t :=
    mk (dmap (fun x => x * a)%Qc (F this)).
  (** Modelled from the spec: [plainsf::operator += (sfield &a)] *)
Definition add_assign_sfield (this : t) (a : Sfield.t) : t :=
    mk (dzip Qcplus (F this) (Field.F (Sfield.F a))).
  (** Modelled from the spec: [plainsf::syncData] *)
Definition syncData (E : Collaborators) (name : string) : Method t :=
    call (EvSyncData name) (fun a => mk (mpi_syncData E name (F a))).

End plainsf_ops.

Module vfield_ops.

Import Vfield.

  (** Modelled from the spec: [vfield::operator -= (plainvf &a)] *)
Definition sub_assign_plainvf (this : t) (a : Plainvf.t) : t :=
    mk (Field.setF (dzip Qcminus (Field.F (Vx this)) (Plainvf.Vx a)) (Vx this))
       (Field.setF (dzip Qcminus (Field.F (Vy this)) (Plainvf.Vy a)) (Vy this))
       (Field.setF (dzip Qcminus (Field.F (Vz this)) (Plainvf.Vz a)) (Vz this)).

End vfield_ops.

(** ** [lib/field/sfield.cc] *)

Module sfield_cc.
Section Methods.

Variable E : Collaborators.
Variable gridData : grid.
  (** The build flag [PLANAR] *)
Variable PLANAR : bool.

Import Sfield.

  (** [core = gridData.coreDomain], set in the constructor *)
Definition core : Blitz.RectDomain := coreDomain gridData.

  (** The array [F.F] of the scalar field *)
Definition FF (this : t) : DArray := Field.F (F this).

  (** [derivTemp = 0.0; derS.calcDerivative...(derivTemp);] with [derS] bound
      to [F.F] *)
Definition derive (calc : DArray -> DArray -> DArray) (this : t) : t :=
    let this := setDerivTemp (dfill 0%Qc) this in
    setDerivTemp (calc (FF this) (derivTemp this)) this.

  (** [sfield::computeDiff(plainsf &H)] *)
Definition computeDiff (this : t) (H : Plainsf.t) : t * Plainsf.t :=
    let this := derive (calcDerivative2xx E) this in
    let H := Plainsf.mk (dOnDomain core Qcplus (Plainsf.F H) (derivTemp this)) in
    let '(this, H) :=
      if PLANAR then (this, H) else
        let this := derive (calcDerivative2yy E) this in
        (this, Plainsf.mk (dOnDomain core Qcplus (Plainsf.F H) (derivTemp this))) in
    let this := derive (calcDerivative2zz E) this in
    let H := Plainsf.mk (dOnDomain core Qcplus (Plainsf.F H) (derivTemp this)) in
    (this, H).

  (** [sfield::computeNLin(const vfield &V, plainsf &H)] *)
Definition computeNLin (this : t) (V : Vfield.t) (H : Plainsf.t)
      : t * Plainsf.t :=
    let this := derive (calcDerivative1_x E) this in
    let H := Plainsf.mk (dOnDomain core Qcminus (Plainsf.F H)
               (dzip Qcmult (Field.F (Vfield.Vx V)) (derivTemp this))) in
    let '(this, H) :=
      if PLANAR then (this, H) else
        let this := derive (calcDerivative1_y E) this in
        (this, Plainsf.mk (dOnDomain core Qcminus (Plainsf.F H)
                 (dzip Qcmult (Field.F (Vfield.Vy V)) (derivTemp this)))) in
    let this := derive (calcDerivative1_z E) this in
    let H := Plainsf.mk (dOnDomain core Qcminus (Plainsf.F H)
               (dzip Qcmult (Field.F (Vfield.Vz V)) (derivTemp this))) in
    (this, H).

  (** [sfield::gradient(plainvf &gradF)] *)
Definition gradient (this : t) (gradF : Plainvf.t) : t * Plainvf.t :=
    let this := derive (calcDerivative1_x E) this in
    let gradF := Plainvf.mk
      (dOnDomain core (fun _ d => d) (Plainvf.Vx gradF) (derivTemp this))
      (Plainvf.Vy gradF) (Plainvf.Vz gradF) in
    let '(this, gradF) :=
      if PLANAR then (this, gradF) else
        let this := derive (calcDerivative1_y E) this in
        (this, Plainvf.mk (Plainvf.Vx gradF)
                 (dOnDomain core (fun _ d => d) (Plainvf.Vy gradF) (derivTemp this))
                 (Plainvf.Vz gradF)) in
    let this := derive (calcDerivative1_z E) this in
    let gradF := Plainvf.mk (Plainvf.Vx gradF) (Plainvf.Vy gradF)
      (dOnDomain core (fun _ d => d) (Plainvf.Vz gradF) (derivTemp this)) in
    (this, gradF).

  (** A method of the member [F] run on the scalar field *)
Definition onF (m : Method Field.t) : Method t :=
    fun this => let (f, tr) := m (F this) in
                (mk f (derivTemp this) (fieldName this), tr).

  (** [sfield::syncData]: [F.syncData()] *)
Definition syncData : Method t := onF (field_cc.syncData E).

  (** [tLft->imposeBC()] and the like: the wall object [w] of this field *)
Definition wall (w : Wall) : Method t :=
    fun this =>
      call (EvImposeBC (fieldName this) w)
           (fun f => setF (bc_imposeBC E (fieldName f) w (FF f)) f)
           this.

  (** [sfield::imposeBCs] *)
Definition imposeBCs : Method t :=
    (onF (field_cc.syncData E) ;;
     when (negb (xPer (inputParams gridData)))
          (wall Lft ;; wall Rgt) ;;
     when (negb PLANAR)
          (when (negb (yPer (inputParams gridData)))
                (wall Frn ;; wall Bak)) ;;
     wall Top ;;
     wall Bot)%method.

  (** [operator += (plainsf &a)], [operator -= (plainsf &a)] *)
Definition add_assign_plainsf (this : t) (a : Plainsf.t) : t :=
    setF (dzip Qcplus (FF this) (Plainsf.F a)) this.
Definition sub_assign_plainsf (this : t) (a : Plainsf.t) : t :=
    setF (dzip Qcminus (FF this) (Plainsf.F a)) this.

  (** [operator += (sfield &a)], [operator -= (sfield &a)] *)
Definition add_assign (this a : t) : t :=
    setF (dzip Qcplus (FF this) (FF a)) this.
Definition sub_assign (this a : t) : t :=
    setF (dzip Qcminus (FF this) (FF a)) this.

  (** [operator *= (real a)] *)
Definition mul_assign (this : t) (a : real) : t :=
    setF (dmap (fun x => x * a)%Qc (FF this)) this.

  (** [operator = (plainsf &a)], [= (sfield &a)], [= (real a)] *)
Definition assign_plainsf (this : t) (a : Plainsf.t) : t :=
    setF (Plainsf.F a) this.
Definition assign (this a : t) : t := setF (FF a) this.
Definition assign_real (this : t) (a : real) : t := setF (dfill a) this.

End Methods.
End sfield_cc.

(** ** [lib/timestep/eulerCN_d3.cc]: state and control *)

(** The time stepper [eulerCN_d3] with the members of its base class
    [timestep] that the code reads. *)
Record eulerCN_d3 : Type := mkEulerCN_d3 {
  mesh : grid;
  solTime : real;
  dt : real;
  nu : real;
  kappa : real;
  maxIterations : Z;
  i2hx : real;
  i2hy : real;
  i2hz : real;
  ihx2 : real;
  ihy2 : real;
  ihz2 : real
}.

(** Everything a time step reads and writes: the fields [V], [P], [T] handed
    to [timeAdvance], the scratch fields of the stepper, the function-static
    arrays of the four solvers, the time-series writer's [subgridEnergy],
    the standard output of every rank and the trace of collaborator calls. *)
Record World : Type := mkWorld {
  V : Vfield.t;
  P : Sfield.t;
  T : Sfield.t;
  nseRHS : Plainvf.t;
  tmpRHS : Plainsf.t;
  pressureGradient : Plainvf.t;
  mgRHS : Plainsf.t;
  Pp : Sfield.t;
  tempVx : DArray;
  tempVy : DArray;
  tempVz : DArray;
  tempT : DArray;
  subgridEnergy : real;
  stdout : nat -> list string;
  trace : Trace
}.

Definition set_V (x : Vfield.t) (w : World) : World :=
  mkWorld x (P w) (T w) (nseRHS w) (tmpRHS w) (pressureGradient w) (mgRHS w)
    (Pp w) (tempVx w) (tempVy w) (tempVz w) (tempT w) (subgridEnergy w)
    (stdout w) (trace w).
Definition set_P (x : Sfield.t) (w : World) : World :=
  mkWorld (V w) x (T w) (nseRHS w) (tmpRHS w) (pressureGradient w) (mgRHS w)
    (Pp w) (tempVx w) (tempVy w) (tempVz w) (tempT w) (subgridEnergy w)
    (stdout w) (trace w).
Definition set_T (x : Sfield.t) (w : World) : World :=
  mkWorld (V w) (P w) x (nseRHS w) (tmpRHS w) (pressureGradient w) (mgRHS w)
    (Pp w) (tempVx w) (tempVy w) (tempVz w) (tempT w) (subgridEnergy w)
    (stdout w) (trace w).
Definition set_nseRHS (x : Plainvf.t) (w : World) : World :=
  mkWorld (V w) (P w) (T w) x (tmpRHS w) (pressureGradient w) (mgRHS w)
    (Pp w) (tempVx w) (tempVy w) (tempVz w) (tempT w) (subgridEnergy w)
    (stdout w) (trace w).
Definition set_tmpRHS (x : Plainsf.t) (w : World) : World :=
  mkWorld (V w) (P w) (T w) (nseRHS w) x (pressureGradient w) (mgRHS w)
    (Pp w) (tempVx w) (tempVy w) (tempVz w) (tempT w) (subgridEnergy w)
    (stdout w) (trace w).
Definition set_pressureGradient (x : Plainvf.t) (w : World) : World :=
  mkWorld (V w) (P w) (T w) (nseRHS w) (tmpRHS w) x (mgRHS w)
    (Pp w) (tempVx w) (tempVy w) (tempVz w) (tempT w) (subgridEnergy w)
    (stdout w) (trace w).
Definition set_mgRHS (x : Plainsf.t) (w : World) : World :=
  mkWorld (V w) (P w) (T w) (nseRHS w) (tmpRHS w) (pressureGradient w) x
    (Pp w) (tempVx w) (tempVy w) (tempVz w) (tempT w) (subgridEnergy w)
    (stdout w) (trace w).
Definition set_Pp (x : Sfield.t) (w : World) : World :=
  mkWorld (V w) (P w) (T w) (nseRHS w) (tmpRHS w) (pressureGradient w) (mgRHS w)
    x (tempVx w) (tempVy w) (tempVz w) (tempT w) (subgridEnergy w)
    (stdout w) (trace w).
Definition set_tempVx (x : DArray) (w : World) : World :=
  mkWorld (V w) (P w) (T w) (nseRHS w) (tmpRHS w) (pressureGradient w) (mgRHS w)
    (Pp w) x (tempVy w) (tempVz w) (tempT w) (subgridEnergy w)
    (stdout w) (trace w).
Definition set_tempVy (x : DArray) (w : World) : World :=
  mkWorld (V w) (P w) (T w) (nseRHS w) (tmpRHS w) (pressureGradient w) (mgRHS w)
    (Pp w) (tempVx w) x (tempVz w) (tempT w) (subgridEnergy w)
    (stdout w) (trace w).
Definition set_tempVz (x : DArray) (w : World) : World :=
  mkWorld (V w) (P w) (T w) (nseRHS w) (tmpRHS w) (pressureGradient w) (mgRHS w)
    (Pp w) (tempVx w) (tempVy w) x (tempT w) (subgridEnergy w)
    (stdout w) (trace w).
Definition set_tempT (x : DArray) (w : World) : World :=
  mkWorld (V w) (P w) (T w) (nseRHS w) (tmpRHS w) (pressureGradient w) (mgRHS w)
    (Pp w) (tempVx w) (tempVy w) (tempVz w) x (subgridEnergy w)
    (stdout w) (trace w).
Definition set_subgridEnergy (x : real) (w : World) : World :=
  mkWorld (V w) (P w) (T w) (nseRHS w) (tmpRHS w) (pressureGradient w) (mgRHS w)
    (Pp w) (tempVx w) (tempVy w) (tempVz w) (tempT w) x
    (stdout w) (trace w).
Definition set_stdout (x : nat -> list string) (w : World) : World :=
  mkWorld (V w) (P w) (T w) (nseRHS w) (tmpRHS w) (pressureGradient w) (mgRHS w)
    (Pp w) (tempVx w) (tempVy w) (tempVz w) (tempT w) (subgridEnergy w)
    x (trace w).
Definition add_trace (t : Trace) (w : World) : World :=
  mkWorld (V w) (P w) (T w) (nseRHS w) (tmpRHS w) (pressureGradient w) (mgRHS w)
    (Pp w) (tempVx w) (tempVy w) (tempVz w) (tempT w) (subgridEnergy w)
    (stdout w) (trace w ++ t).

(** How a piece of the program ends: it returns, or the process has called
    [exit].  [OutOfFuel] belongs to the model only: the loops below are
    bounded by a fuel that they are shown never to exhaust. *)
Inductive Result (A : Type) : Type :=
| Done (a : A) (w : World)
| Exited (status : Z) (w : World)
| OutOfFuel.

Arguments Done {A} a w.
Arguments Exited {A} status w.
Arguments OutOfFuel {A}.

(** Programs over the world that may end the process. *)
Definition M (A : Type) : Type := World -> Result A.

Definition ret {A : Type} (a : A) : M A := fun w => Done a w.

Definition bind {A B : Type} (c : M A) (k : A -> M B) : M B :=
  fun w => match c w with
           | Done a w' => k a w'
           | Exited s w' => Exited s w'
           | OutOfFuel => OutOfFuel
           end.

Declare Scope prog_scope.
Delimit Scope prog_scope with prog.
Notation "x <- c ;; k" := (bind c (fun x => k))
  (at level 61, c at next level, right associativity) : prog_scope.
Notation "c ;; k" := (bind c (fun _ => k))
  (at level 61, right associativity) : prog_scope.

Definition get : M World := fun w => Done w w.
Definition modify (f : World -> World) : M unit := fun w => Done tt (f w).
Definition emit (e : Event) : M unit := modify (add_trace (e :: nil)).
(** [exit(status)] *)
Definition exit (status : Z) : M unit := fun w => Exited status w.
(** [if (mesh.rankData.rank == 0) std::cout << msg << std::endl;] *)
Definition print_on_rank0 (msg : string) : M unit :=
  modify (fun w =>
    set_stdout (fun r => if Nat.eqb r 0 then stdout w r ++ msg :: nil
                         else stdout w r) w).
(** A method run on a member of the world: the member is replaced and the
    calls the method made are appended to the trace. *)
Definition runOn {S : Type} (getS : World -> S) (setS : S -> World -> World)
    (m : Method S) (w : World) : World :=
  let (s, tr) := m (getS w) in add_trace tr (setS s w).
Definition run {S : Type} (getS : World -> S) (setS : S -> World -> World)
    (m : Method S) : M unit :=
  modify (runOn getS setS m).
Definition whenM (b : bool) (c : M unit) : M unit :=
  if b then c else ret tt.

(** ** [lib/timestep/eulerCN_d3.cc]: the constructor *)

Module eulerCN_d3_ctor.

  (** [int(x)] for a floating-point [x]: the fraction is dropped (rounding
      toward zero). *)
Definition int_of_double (x : R) : Z :=
    if Rle_dec 0 x then Int_part x else (- Int_part (- x))%Z.

  (** An [int] has 32 bits: a value outside [-2^31, 2^31) is brought back
      into that range modulo [2^32].  (Overflow of a signed product is
      undefined in C++; this is what the two's-complement machines the
      solver runs on compute.) *)
Definition int_wrap (z : Z) : Z :=
    ((z + 2147483648) mod 4294967296 - 2147483648)%Z.

  (** [a * b] on [int] *)
Definition int_mul (a b : Z) : Z := int_wrap (a * b).

  (** The product [mesh.coreSize(0)*mesh.coreSize(1)*mesh.coreSize(2)] of
      three [int], evaluated from the left. *)
Definition corePoints (grd : grid) : Z :=
    int_mul (int_mul (Blitz.tv_get (coreSize grd) 0)
                     (Blitz.tv_get (coreSize grd) 1))
            (Blitz.tv_get (coreSize grd) 2).

  (** [maxIterations = int(std::pow(std::log(Nx*Ny*Nz), 3))]; the [int]
      product is converted to [double] exactly.  ([ln] is the logarithm of
      a positive number; a product that is not positive is outside what
      the theorems below speak of.) *)
Definition maxIterations_of (grd : grid) : Z :=
    int_of_double (pow (ln (IZR (corePoints grd))) 3).

  (** [eulerCN_d3::setCoefficients] *)
Definition setCoefficients (ts : eulerCN_d3) : eulerCN_d3 :=
    let hx2 := (dXi (mesh ts) * dXi (mesh ts))%Qc in
    let hy2 := (dEt (mesh ts) * dEt (mesh ts))%Qc in
    let hz2 := (dZt (mesh ts) * dZt (mesh ts))%Qc in
    mkEulerCN_d3 (mesh ts) (solTime ts) (dt ts) (nu ts) (kappa ts)
      (maxIterations ts)
      (half / dXi (mesh ts))%Qc (half / dEt (mesh ts))%Qc (half / dZt (mesh ts))%Qc
      (1 / hx2)%Qc (1 / hy2)%Qc (1 / hz2)%Qc.

  (** [eulerCN_d3::eulerCN_d3]: the base class [timestep] has bound the mesh,
      the time, the step and the diffusion constants; the constructor sets
      the coefficients and the iteration cap. *)
Definition constructor (grd : grid) (sTime step visc diff : real)
      : eulerCN_d3 :=
    let ts := setCoefficients
                (mkEulerCN_d3 grd sTime step visc diff 0%Z
                              0%Qc 0%Qc 0%Qc 0%Qc 0%Qc 0%Qc) in
    mkEulerCN_d3 (mesh ts) (solTime ts) (dt ts) (nu ts) (kappa ts)
      (maxIterations_of grd)
      (i2hx ts) (i2hy ts) (i2hz ts) (ihx2 ts) (ihy2 ts) (ihz2 ts).

End eulerCN_d3_ctor.

(** ** [lib/timestep/eulerCN_d3.cc]: the Jacobi solvers *)

Module eulerCN_d3_cc.
Section Methods.

Variable E : Collaborators.
Variable ts : eulerCN_d3.
  (** The build flags [PLANAR] (read by [sfield.cc]) and [TEST_POISSON] *)
Variable PLANAR : bool.
Variable TEST_POISSON : bool.

Local Open Scope Qc_scope.

Definition core : Blitz.RectDomain := coreDomain (mesh ts).

  (** Modelled from the spec: the loop limits [xSt], [xEn], [ySt], [yEn],
      [zSt], [zEn] are members of the base class [timestep], set outside the
      modelled files; the sweeps run "for every interior (i,j,k) in the
      core". *)
Definition xSt : Z := Blitz.tv_get (Blitz.lbound core) 0.
Definition xEn : Z := Blitz.tv_get (Blitz.ubound core) 0.
Definition ySt : Z := Blitz.tv_get (Blitz.lbound core) 1.
Definition yEn : Z := Blitz.tv_get (Blitz.ubound core) 1.
Definition zSt : Z := Blitz.tv_get (Blitz.lbound core) 2.
Definition zEn : Z := Blitz.tv_get (Blitz.ubound core) 2.

  (** The right-hand side of the assignment in the first loop nest of a
      solver, for the array [F] of the unknown, the array [rhs] and the
      diffusion constant [alpha] ([nu] or [kappa]), on rank [r]. *)
Definition jacobiUpdate (alpha : real) (r : nat) (F rhs : Blitz.Array)
      (iX iY iZ : Z) : real :=
    ((ihx2 ts * xix2 (mesh ts) r iX * (F (iX+1)%Z iY iZ + F (iX-1)%Z iY iZ) +
      i2hx ts * xixx (mesh ts) r iX * (F (iX+1)%Z iY iZ - F (iX-1)%Z iY iZ) +
      ihy2 ts * ety2 (mesh ts) r iY * (F iX (iY+1)%Z iZ + F iX (iY-1)%Z iZ) +
      i2hy ts * etyy (mesh ts) r iY * (F iX (iY+1)%Z iZ - F iX (iY-1)%Z iZ) +
      ihz2 ts * ztz2 (mesh ts) r iZ * (F iX iY (iZ+1)%Z + F iX iY (iZ-1)%Z) +
      i2hz ts * ztzz (mesh ts) r iZ * (F iX iY (iZ+1)%Z - F iX iY (iZ-1)%Z)) *
     dt ts * alpha / two + rhs iX iY iZ) /
    (1 + dt ts * alpha * (ihx2 ts * xix2 (mesh ts) r iX +
                          ihy2 ts * ety2 (mesh ts) r iY +
                          ihz2 ts * ztz2 (mesh ts) r iZ)).

  (** The right-hand side of the assignment in the second loop nest. *)
Definition jacobiDefect (alpha : real) (r : nat) (F : Blitz.Array)
      (iX iY iZ : Z) : real :=
    F iX iY iZ - half * dt ts * alpha * (
      xix2 (mesh ts) r iX * (F (iX+1)%Z iY iZ - two * F iX iY iZ + F (iX-1)%Z iY iZ) * ihx2 ts +
      xixx (mesh ts) r iX * (F (iX+1)%Z iY iZ - F (iX-1)%Z iY iZ) * i2hx ts +
      ety2 (mesh ts) r iY * (F iX (iY+1)%Z iZ - two * F iX iY iZ + F iX (iY-1)%Z iZ) * ihy2 ts +
      etyy (mesh ts) r iY * (F iX (iY+1)%Z iZ - F iX (iY-1)%Z iZ) * i2hy ts +
      ztz2 (mesh ts) r iZ * (F iX iY (iZ+1)%Z - two * F iX iY iZ + F iX iY (iZ-1)%Z) * ihz2 ts +
      ztzz (mesh ts) r iZ * (F iX iY (iZ+1)%Z - F iX iY (iZ-1)%Z) * i2hz ts).

  (** The loop nest
      [for iX in xSt..xEn, for iY in ySt..yEn, for iZ in zSt..zEn:
         temp(iX, iY, iZ) = value(iX, iY, iZ)],
      run by every rank on its local array.  The threads of the OpenMP
      [parallel for] write disjoint cells of [temp] and read none of them. *)
Definition loopNest (value : nat -> Z -> Z -> Z -> real) (temp : DArray)
      : DArray :=
    fun r =>
      Blitz.forLoop xSt xEn (fun iX =>
        Blitz.forLoop ySt yEn (fun iY =>
          Blitz.forLoop zSt zEn (fun iZ tmp =>
            Blitz.update tmp iX iY iZ (value r iX iY iZ))))
        (temp r).

  (** What distinguishes the four solvers: the array solved for, the
      right-hand side, the static scratch array, the diffusion constant, the
      boundary call and the word in the error message. *)
Record Unknown : Type := mkUnknown {
    u_get : World -> DArray;
    u_set : DArray -> World -> World;
    u_rhs : World -> DArray;
    u_temp : World -> DArray;
    u_setTemp : DArray -> World -> World;
    u_alpha : real;
    u_imposeBC : World -> World;
    u_name : string
  }.

  (** One pass through the body of [while (true)] up to the all-reduce: the
      world it leaves and [gloMax]. *)
Definition sweep (u : Unknown) (w : World) : World * real :=
    let w := u_setTemp u
               (loopNest (fun r => jacobiUpdate (u_alpha u) r (u_get u w r) (u_rhs u w r))
                         (u_temp u w)) w in
    let w := u_set u (u_temp u w) w in
    let w := u_imposeBC u w in
    let w := u_setTemp u
               (loopNest (fun r => jacobiDefect (u_alpha u) r (u_get u w r))
                         (u_temp u w)) w in
    let w := u_setTemp u
               (dOnDomain core (fun t b => Qcabs (t - b)) (u_temp u w) (u_rhs u w)) w in
    let locMax := fun r => Blitz.max (Blitz.slice (u_temp u w r) core) in
    let gloMax := MPI.Allreduce_MAX (nProc (mesh ts)) locMax in
    (w, gloMax).

  (** The end of the loop body when the iterations are used up *)
Definition abort (u : Unknown) : M unit :=
    (print_on_rank0 ("ERROR: Jacobi iterations for solution of " ++ u_name u ++
                     " not converging. Aborting") ;;
     emit EvFinalize ;;
     exit 0)%prog.

  (** The loop [while (true) { ... }] of a solver, entered with the given
      [iterCount]. *)
Fixpoint jacobi (u : Unknown) (fuel : nat) (iterCount : Z) : M unit :=
    match fuel with
    | O => fun _ => OutOfFuel
    | S fuel' =>
        (gloMax <- (fun w => let (w', g) := sweep u w in Done g w') ;;
         if Qcltb gloMax (cnTolerance (inputParams (mesh ts))) then ret tt
         else
           let iterCount := (iterCount + 1)%Z in
           if (iterCount >? maxIterations ts)%Z then abort u
           else jacobi u fuel' iterCount)%prog
    end.

  (** A solver: [int iterCount = 0;] and the loop.  The loop body runs at
      most [maxIterations + 1] times, which the fuel covers. *)
Definition solve (u : Unknown) : M unit :=
    jacobi u (S (Z.to_nat (maxIterations ts))) 0%Z.

Definition set_Vx_F (A : DArray) (w : World) : World :=
    set_V (Vfield.mk (Field.setF A (Vfield.Vx (V w))) (Vfield.Vy (V w))
                     (Vfield.Vz (V w))) w.
Definition set_Vy_F (A : DArray) (w : World) : World :=
    set_V (Vfield.mk (Vfield.Vx (V w)) (Field.setF A (Vfield.Vy (V w)))
                     (Vfield.Vz (V w))) w.
Definition set_Vz_F (A : DArray) (w : World) : World :=
    set_V (Vfield.mk (Vfield.Vx (V w)) (Vfield.Vy (V w))
                     (Field.setF A (Vfield.Vz (V w)))) w.
Definition set_T_F (A : DArray) (w : World) : World :=
    set_T (Sfield.setF A (T w)) w.

  (** [V.imposeVxBC()], [V.imposeVyBC()], [V.imposeVzBC()] *)
Definition imposeVBC (c : Comp) : World -> World :=
    runOn V set_V (call (EvImposeVBC c) (V_imposeVBC E c)).

Definition unknownVx : Unknown :=
    mkUnknown (fun w => Field.F (Vfield.Vx (V w))) set_Vx_F
              (fun w => Plainvf.Vx (nseRHS w)) tempVx set_tempVx
              (nu ts) (imposeVBC CVx) "Vx".
Definition unknownVy : Unknown :=
    mkUnknown (fun w => Field.F (Vfield.Vy (V w))) set_Vy_F
              (fun w => Plainvf.Vy (nseRHS w)) tempVy set_tempVy
              (nu ts) (imposeVBC CVy) "Vy".
Definition unknownVz : Unknown :=
    mkUnknown (fun w => Field.F (Vfield.Vz (V w))) set_Vz_F
              (fun w => Plainvf.Vz (nseRHS w)) tempVz set_tempVz
              (nu ts) (imposeVBC CVz) "Vz".
Definition unknownT : Unknown :=
    mkUnknown (fun w => Field.F (Sfield.F (T w))) set_T_F
              (fun w => Plainsf.F (tmpRHS w)) tempT set_tempT
              (kappa ts)
              (runOn T set_T (sfield_cc.imposeBCs E (mesh ts) PLANAR)) "T".

  (** [eulerCN_d3::solveVx], [solveVy], [solveVz], [solveT] *)
Definition solveVx : M unit := solve unknownVx.
Definition solveVy : M unit := solve unknownVy.
Definition solveVz : M unit := solve unknownVz.
Definition solveT : M unit := solve unknownT.

  (** The four solvers by name *)
Inductive Solver : Type := SolveVx | SolveVy | SolveVz | SolveT.

Definition unknownOf (s : Solver) : Unknown :=
    match s with
    | SolveVx => unknownVx
    | SolveVy => unknownVy
    | SolveVz => unknownVz
    | SolveT => unknownT
    end.

  (** *** [timeAdvance] *)

  (** [P.gradient(pressureGradient)] and [Pp.gradient(pressureGradient)] *)
Definition gradient_into_pressureGradient (getS : World -> Sfield.t)
      (setS : Sfield.t -> World -> World) : M unit :=
    modify (fun w =>
      let (s, g) := sfield_cc.gradient E (mesh ts) PLANAR (getS w) (pressureGradient w) in
      set_pressureGradient g (setS s w)).

  (** The test [mesh.inputParams.lesModel and solTime > 5*mesh.inputParams.tStp] *)
Definition lesActive : bool :=
    negb (lesModel (inputParams (mesh ts)) =? 0)%Z &&
    Qcltb (five * tStp (inputParams (mesh ts))) (solTime ts).

  (** The steps shared by the two overloads after the right-hand sides are
      complete: from [V.divergence(mgRHS)] to [V -= pressureGradient]. *)
Definition project : M unit :=
    (modify (fun w => set_mgRHS (V_divergence E (V w) (mgRHS w)) w) ;;
     modify (fun w => set_mgRHS (plainsf_ops.mul_assign (mgRHS w) (1 / dt ts)) w))%prog.

Definition correct : M unit :=
    (modify (fun w => set_P (sfield_cc.add_assign (P w) (Pp w)) w) ;;
     gradient_into_pressureGradient Pp set_Pp ;;
     modify (fun w =>
       set_pressureGradient (plainvf_cc.mul_assign (pressureGradient w) (dt ts)) w) ;;
     modify (fun w =>
       set_V (vfield_ops.sub_assign_plainvf (V w) (pressureGradient w)) w))%prog.

Definition callMgSolve : M unit :=
    (modify (fun w => set_Pp (mgSolve E (Pp w) (mgRHS w)) w) ;;
     emit EvMgSolve)%prog.

  (** [sgsLES->computeSG(nseRHS, V)]; the value is the returned energy *)
Definition callComputeSG_V : M real :=
    (w <- get ;;
     let (rhs, sgKE) := computeSG_V E (nseRHS w) (V w) in
     emit EvComputeSG_V ;;
     modify (set_nseRHS rhs) ;;
     ret sgKE)%prog.

  (** [sgsLES->computeSG(nseRHS, tmpRHS, V, T)] *)
Definition callComputeSG_VT : M real :=
    (w <- get ;;
     let '(rhsV, rhsT, sgKE) := computeSG_VT E (nseRHS w) (tmpRHS w) (V w) (T w) in
     emit EvComputeSG_VT ;;
     modify (set_nseRHS rhsV) ;;
     modify (set_tmpRHS rhsT) ;;
     ret sgKE)%prog.

  (** [eulerCN_d3::timeAdvance(vfield &V, sfield &P)] *)
Definition timeAdvance : M unit :=
    (modify (fun w => set_nseRHS (plainvf_cc.assign_real (nseRHS w) 0) w) ;;
     modify (fun w => set_nseRHS (V_computeDiff E (V w) (nseRHS w)) w) ;;
     modify (fun w => set_nseRHS (plainvf_cc.mul_assign (nseRHS w) (nu ts / two)) w) ;;
     modify (fun w => set_nseRHS (V_computeNLin E (V w) (V w) (nseRHS w)) w) ;;
     modify (fun w => set_nseRHS (vForcing_addForcing E (V w) (T w) (nseRHS w)) w) ;;
     whenM lesActive
       (subgridKE <- callComputeSG_V ;;
        modify (set_subgridEnergy subgridKE)) ;;
     modify (fun w =>
       set_pressureGradient (plainvf_cc.assign_real (pressureGradient w) 0) w) ;;
     gradient_into_pressureGradient P set_P ;;
     modify (fun w => set_nseRHS (plainvf_cc.sub_assign (nseRHS w) (pressureGradient w)) w) ;;
     modify (fun w => set_nseRHS (plainvf_cc.mul_assign (nseRHS w) (dt ts)) w) ;;
     modify (fun w => set_nseRHS (plainvf_cc.add_assign_vfield (nseRHS w) (V w)) w) ;;
     run nseRHS set_nseRHS (plainvf_cc.syncData E "nseRHS") ;;
     solveVx ;;
     solveVy ;;
     solveVz ;;
     project ;;
     whenM TEST_POISSON
       (modify (fun w => set_mgRHS (Plainsf.mk (dfill 1)) w)) ;;
     callMgSolve ;;
     run Pp set_Pp (sfield_cc.syncData E) ;;
     whenM TEST_POISSON
       (modify (fun w =>
          set_P (Sfield.mk (field_cc.assign_real (Sfield.F (P w)) 0)
                           (Sfield.derivTemp (P w)) (Sfield.fieldName (P w))) w)) ;;
     correct ;;
     run V set_V (call EvImposeVBCs (V_imposeBCs E)) ;;
     run P set_P (sfield_cc.imposeBCs E (mesh ts) PLANAR))%prog.

  (** [eulerCN_d3::timeAdvance(vfield &V, sfield &P, sfield &T)] *)
Definition timeAdvance_T : M unit :=
    (modify (fun w => set_nseRHS (plainvf_cc.assign_real (nseRHS w) 0) w) ;;
     modify (fun w => set_tmpRHS (plainsf_ops.assign_real (tmpRHS w) 0) w) ;;
     modify (fun w => set_nseRHS (V_computeDiff E (V w) (nseRHS w)) w) ;;
     modify (fun w => set_nseRHS (plainvf_cc.mul_assign (nseRHS w) (nu ts / two)) w) ;;
     modify (fun w =>
       let (t, h) := sfield_cc.computeDiff E (mesh ts) PLANAR (T w) (tmpRHS w) in
       set_tmpRHS h (set_T t w)) ;;
     modify (fun w => set_tmpRHS (plainsf_ops.mul_assign (tmpRHS w) (kappa ts / two)) w) ;;
     modify (fun w => set_nseRHS (V_computeNLin E (V w) (V w) (nseRHS w)) w) ;;
     modify (fun w =>
       let (t, h) := sfield_cc.computeNLin E (mesh ts) PLANAR (T w) (V w) (tmpRHS w) in
       set_tmpRHS h (set_T t w)) ;;
     modify (fun w => set_nseRHS (vForcing_addForcing E (V w) (T w) (nseRHS w)) w) ;;
     modify (fun w => set_tmpRHS (tForcing_addForcing E (V w) (T w) (tmpRHS w)) w) ;;
     whenM lesActive
       (subgridKE <-
          (if (lesModel (inputParams (mesh ts)) =? 1)%Z then callComputeSG_V
           else if (lesModel (inputParams (mesh ts)) =? 2)%Z then callComputeSG_VT
           else ret 0) ;;
        modify (set_subgridEnergy subgridKE)) ;;
     modify (fun w =>
       set_pressureGradient (plainvf_cc.assign_real (pressureGradient w) 0) w) ;;
     gradient_into_pressureGradient P set_P ;;
     modify (fun w => set_nseRHS (plainvf_cc.sub_assign (nseRHS w) (pressureGradient w)) w) ;;
     modify (fun w => set_nseRHS (plainvf_cc.mul_assign (nseRHS w) (dt ts)) w) ;;
     modify (fun w => set_nseRHS (plainvf_cc.add_assign_vfield (nseRHS w) (V w)) w) ;;
     modify (fun w => set_tmpRHS (plainsf_ops.mul_assign (tmpRHS w) (dt ts)) w) ;;
     modify (fun w => set_tmpRHS (plainsf_ops.add_assign_sfield (tmpRHS w) (T w)) w) ;;
     run nseRHS set_nseRHS (plainvf_cc.syncData E "nseRHS") ;;
     run tmpRHS set_tmpRHS (plainsf_ops.syncData E "tmpRHS") ;;
     solveVx ;;
     solveVy ;;
     solveVz ;;
     solveT ;;
     project ;;
     callMgSolve ;;
     run Pp set_Pp (sfield_cc.syncData E) ;;
     correct ;;
     run V set_V (call EvImposeVBCs (V_imposeBCs E)) ;;
     run P set_P (sfield_cc.imposeBCs E (mesh ts) PLANAR) ;;
     run T set_T (sfield_cc.imposeBCs E (mesh ts) PLANAR))%prog.

End Methods.
End eulerCN_d3_cc.

(** ** The Jacobi sweep in the words of the design document

    These definitions follow the document, not the code; the code is
    compared with them below. *)

Module Spec.
Section Helmholtz.

Variable ts : eulerCN_d3.
  (** The diffusion constant and the rank whose metrics are used *)
Variable alpha : real.
Variable r : nat.

Local Open Scope Qc_scope.

  (** The discrete Laplacian in split form: for each direction
      [xix2 (f+ - 2 f + f-) ihx2 + xixx (f+ - f-) i2hx]. *)
Definition laplacian (phi : Blitz.Array) (i j k : Z) : real :=
    (xix2 (mesh ts) r i * (phi (i+1)%Z j k - two * phi i j k + phi (i-1)%Z j k) * ihx2 ts +
     xixx (mesh ts) r i * (phi (i+1)%Z j k - phi (i-1)%Z j k) * i2hx ts) +
    (ety2 (mesh ts) r j * (phi i (j+1)%Z k - two * phi i j k + phi i (j-1)%Z k) * ihy2 ts +
     etyy (mesh ts) r j * (phi i (j+1)%Z k - phi i (j-1)%Z k) * i2hy ts) +
    (ztz2 (mesh ts) r k * (phi i j (k+1)%Z - two * phi i j k + phi i j (k-1)%Z) * ihz2 ts +
     ztzz (mesh ts) r k * (phi i j (k+1)%Z - phi i j (k-1)%Z) * i2hz ts).

  (** [S]: the Laplacian with the centre term [- 2 phi] removed. *)
Definition neighbourSum (phi : Blitz.Array) (i j k : Z) : real :=
    (xix2 (mesh ts) r i * (phi (i+1)%Z j k + phi (i-1)%Z j k) * ihx2 ts +
     xixx (mesh ts) r i * (phi (i+1)%Z j k - phi (i-1)%Z j k) * i2hx ts) +
    (ety2 (mesh ts) r j * (phi i (j+1)%Z k + phi i (j-1)%Z k) * ihy2 ts +
     etyy (mesh ts) r j * (phi i (j+1)%Z k - phi i (j-1)%Z k) * i2hy ts) +
    (ztz2 (mesh ts) r k * (phi i j (k+1)%Z + phi i j (k-1)%Z) * ihz2 ts +
     ztzz (mesh ts) r k * (phi i j (k+1)%Z - phi i j (k-1)%Z) * i2hz ts).

  (** [xix2 ihx2 + ety2 ihy2 + ztz2 ihz2] at a cell *)
Definition diagonal (i j k : Z) : real :=
    xix2 (mesh ts) r i * ihx2 ts + ety2 (mesh ts) r j * ihy2 ts +
    ztz2 (mesh ts) r k * ihz2 ts.

  (** The candidate
      [phi* = (S (alpha dt / 2) + rhs) / (1 + alpha dt (xix2 ihx2 + ety2 ihy2 + ztz2 ihz2))] *)
Definition candidate (phi rhs : Blitz.Array) (i j k : Z) : real :=
    (neighbourSum phi i j k * (alpha * dt ts / two) + rhs i j k) /
    (1 + alpha * dt ts * diagonal i j k).

  (** The residual [r = phi - (alpha dt / 2) L phi - rhs] *)
Definition residual (phi rhs : Blitz.Array) (i j k : Z) : real :=
    phi i j k - (alpha * dt ts / two) * laplacian phi i j k - rhs i j k.

End Helmholtz.
End Spec.

(** ** Runs of a solver, sweep by sweep *)

Section Runs.

Variable ts : eulerCN_d3.
Variable u : eulerCN_d3_cc.Unknown.

(** The world after [n] passes through the loop body *)
Definition after_sweeps (n : nat) (w : World) : World :=
  Nat.iter n (fun w => fst (eulerCN_d3_cc.sweep ts u w)) w.

(** [gloMax] as computed by pass number [k] (counted from 1) *)
Definition gloMax_of_sweep (k : nat) (w : World) : real :=
  snd (eulerCN_d3_cc.sweep ts u (after_sweeps (k - 1) w)).

(** The test [gloMax < cnTolerance] of pass number [k] *)
Definition below_tolerance (k : nat) (w : World) : bool :=
  Qcltb (gloMax_of_sweep k w) (cnTolerance (inputParams (mesh ts))).

(** The world left by the abort branch *)
Definition aborted (w : World) : World :=
  add_trace (EvFinalize :: nil)
    (set_stdout (fun r =>
       if Nat.eqb r 0
       then stdout w r ++
            ("ERROR: Jacobi iterations for solution of " ++ eulerCN_d3_cc.u_name u ++
             " not converging. Aborting")%string :: nil
       else stdout w r) w).

End Runs.

(** The boundary call that marks one pass of a solver in the trace *)
Definition sweepMark (s : eulerCN_d3_cc.Solver) (w : World) : Event :=
  match s with
  | eulerCN_d3_cc.SolveVx => EvImposeVBC CVx
  | eulerCN_d3_cc.SolveVy => EvImposeVBC CVy
  | eulerCN_d3_cc.SolveVz => EvImposeVBC CVz
  | eulerCN_d3_cc.SolveT => EvImposeBC (Sfield.fieldName (T w)) Top
  end.

(** The calls of [sfield::imposeBCs] on a field, in order *)
Definition imposeBCs_events (gridData : grid) (PLANAR : bool) (this : Sfield.t)
    : Trace :=
  let name := Sfield.fieldName this in
  (EvSyncData (Field.fieldName (Sfield.F this)) :: nil) ++
  (if negb (xPer (inputParams gridData))
   then EvImposeBC name Lft :: EvImposeBC name Rgt :: nil else nil) ++
  (if negb PLANAR && negb (yPer (inputParams gridData))
   then EvImposeBC name Frn :: EvImposeBC name Bak :: nil else nil) ++
  (EvImposeBC name Top :: EvImposeBC name Bot :: nil).

(** The events of halo exchanges and boundary objects *)
Definition isBoundaryEvent (e : Event) : bool :=
  match e with
  | EvSyncData _ | EvImposeBC _ _ | EvImposeVBC _ | EvImposeVBCs => true
  | _ => false
  end.

(** ** A small configuration

    Two ranks, each with a core of 2 x 1 x 2 cells and one layer of pads,
    uniform unit spacing, walls in x and z and a periodic y axis. *)

Module Ex.

Local Open Scope Qc_scope.

Definition core : Blitz.RectDomain :=
  Blitz.mkRectDomain (0, 0, 0)%Z (1, 0, 1)%Z.
Definition full : Blitz.RectDomain :=
  Blitz.mkRectDomain (-1, -1, -1)%Z (2, 1, 2)%Z.

Definition params (tol : real) (les : Z) : parser :=
  mkParser false true false les tol (Q2Qc (1 # 100)) 1%Z.

Definition gridOf (tol : real) (les : Z) : grid :=
  mkGrid (params tol les) 2 full core (2, 1, 2)%Z 1 1 1
         (fun _ _ => 1) (fun _ _ => 0) (fun _ _ => 1) (fun _ _ => 0)
         (fun _ _ => 1) (fun _ _ => 0).

(** The stepper at time [sTime] with step [step], [nu = kappa = 1] and the
    cap of two iterations that [int(log(4)^3)] gives. *)
Definition stepper (tol : real) (les : Z) (sTime step : real) : eulerCN_d3 :=
  eulerCN_d3_ctor.setCoefficients
    (mkEulerCN_d3 (gridOf tol les) sTime step 1 1 2 0 0 0 0 0 0).

(** A wall object: the wall cell takes [v] for a Dirichlet wall ([Some v])
    and the value of the neighbouring core cell for a Neumann wall. *)
Definition wallBC (w : Wall) (dirichlet : option real) (A : DArray) : DArray :=
  fun r i j k =>
    let pick (hit : bool) (inner : real) :=
      if hit then match dirichlet with Some v => v | None => inner end
      else A r i j k in
    match w with
    | Lft => pick (i =? -1)%Z (A r 0%Z j k)
    | Rgt => pick (i =? 2)%Z (A r 1%Z j k)
    | Frn => pick (j =? -1)%Z (A r i 0%Z k)
    | Bak => pick (j =? 1)%Z (A r i 0%Z k)
    | Bot => pick (k =? -1)%Z (A r i j 0%Z)
    | Top => pick (k =? 2)%Z (A r i j 1%Z)
    end.

(** Halo exchange: the pads of the periodic y axis take the core layer. *)
Definition sync (A : DArray) : DArray :=
  fun r i j k => if (j =? 0)%Z then A r i j k else A r i 0%Z k.

(** No-slip walls for a velocity component *)
Definition noSlip (f : Field.t) : Field.t :=
  Field.setF (wallBC Top (Some 0) (wallBC Bot (Some 0)
               (wallBC Rgt (Some 0) (wallBC Lft (Some 0) (sync (Field.F f)))))) f.

Definition imposeV (c : Comp) (U : Vfield.t) : Vfield.t :=
  match c with
  | CVx => Vfield.mk (noSlip (Vfield.Vx U)) (Vfield.Vy U) (Vfield.Vz U)
  | CVy => Vfield.mk (Vfield.Vx U) (noSlip (Vfield.Vy U)) (Vfield.Vz U)
  | CVz => Vfield.mk (Vfield.Vx U) (Vfield.Vy U) (noSlip (Vfield.Vz U))
  end.

(** Central differences on the core, unit spacing *)
Definition diff1 (axis : nat) (F out : DArray) : DArray :=
  fun r i j k =>
    if Blitz.inDomain core i j k then
      half * match axis with
             | O => F r (i+1)%Z j k - F r (i-1)%Z j k
             | S O => F r i (j+1)%Z k - F r i (j-1)%Z k
             | _ => F r i j (k+1)%Z - F r i j (k-1)%Z
             end
    else out r i j k.

Definition diff2 (axis : nat) (F out : DArray) : DArray :=
  fun r i j k =>
    if Blitz.inDomain core i j k then
      match axis with
      | O => F r (i+1)%Z j k - two * F r i j k + F r (i-1)%Z j k
      | S O => F r i (j+1)%Z k - two * F r i j k + F r i (j-1)%Z k
      | _ => F r i j (k+1)%Z - two * F r i j k + F r i j (k-1)%Z
      end
    else out r i j k.

(** The collaborators: temperature 1 on the bottom wall and 0 on the top
    wall, Neumann walls otherwise; no forcing; a sub-grid model that reports
    an energy, leaves the momentum accumulator alone and, in its scalar-aware
    form, adds 1 to the scalar accumulator; a multigrid solver that answers
    with the correction [pp] everywhere. *)
Definition collab (pp : real) : Collaborators :=
  mkCollaborators
    (fun _ A => sync A)
    (fun name w A =>
       wallBC w (if String.eqb name "T"
                 then match w with Bot => Some 1 | Top => Some 0 | _ => None end
                 else None) A)
    (diff1 0) (diff1 1) (diff1 2) (diff2 0) (diff2 1) (diff2 2)
    (fun _ H => H) (fun _ _ H => H) (fun _ H => H)
    imposeV
    (fun U => imposeV CVz (imposeV CVy (imposeV CVx U)))
    (fun _ _ H => H) (fun _ _ H => H)
    (fun rhs _ => (rhs, Q2Qc (1 # 2)))
    (fun rhsV rhsT _ _ =>
       (rhsV, Plainsf.mk (dmap (fun x => x + 1) (Plainsf.F rhsT)), Q2Qc (1 # 4)))
    (fun Pp _ => Sfield.setF (dfill pp) Pp).

Definition ones : DArray :=
  fun _ i j k => if Blitz.inDomain core i j k then 1 else 0.

Definition zeroS (name : string) : Sfield.t :=
  Sfield.mk (Field.mk (dfill 0) name) (dfill 0) name.

(** A world at rest except for a unit x velocity in the core *)
Definition world : World :=
  mkWorld
    (Vfield.mk (Field.mk ones "Vx") (Field.mk (dfill 0) "Vy")
               (Field.mk (dfill 0) "Vz"))
    (zeroS "P") (zeroS "T")
    (Plainvf.mk ones (dfill 0) (dfill 0)) (Plainsf.mk (dfill 0))
    (Plainvf.mk (dfill 0) (dfill 0) (dfill 0)) (Plainsf.mk (dfill 0))
    (zeroS "Pp")
    (dfill 0) (dfill 0) (dfill 0) (dfill 0)
    0 (fun _ => nil) nil.

(** Steppers over this configuration: a converging one, one with tolerance
    zero, one with a step of size zero and one with the sub-grid model off *)
Definition loose : eulerCN_d3 :=
  stepper (Q2Qc (1 # 10)) 1 1 (Q2Qc (1 # 100)).
Definition strict : eulerCN_d3 :=
  stepper 0 1 1 (Q2Qc (1 # 100)).
Definition atRest : eulerCN_d3 :=
  stepper (Q2Qc (1 # 1000)) 1 1 0.
Definition noLES : eulerCN_d3 :=
  stepper (Q2Qc (1 # 10)) 0 1 (Q2Qc (1 # 100)).
(** Steppers with the scalar-aware sub-grid model, and with a value of
    [lesModel] that is neither 0, 1 nor 2 *)
Definition les2 : eulerCN_d3 :=
  stepper (Q2Qc (1 # 10)) 2 1 (Q2Qc (1 # 100)).
Definition les3 : eulerCN_d3 :=
  stepper (Q2Qc (1 # 10)) 3 1 (Q2Qc (1 # 100)).

(** The value of a cell as a fraction *)
Definition cellQ (A : DArray) (r : nat) (i j k : Z) : Q := this (A r i j k).

(** What a run of [timeAdvance(V, P, T)] leaves in the core cell (0,0,0) of
    [P] on rank 0 and in the cell (0,0,-1) of [T] below it *)
Definition observe (res : Result unit) : option (Q * Q) :=
  match res with
  | Done _ w' => Some (cellQ (Field.F (Sfield.F (P w'))) 0 0 0 0,
                       cellQ (Field.F (Sfield.F (T w'))) 0 0 0 (-1))
  | _ => None
  end.

End Ex.

(** ** Rational enclosures of the exponential

    [exp x] is bounded below by [(1 + x / 2^m)^(2^m)]; the power is taken by
    [m] squarings of a fixed-point number with denominator [D], each rounded
    down. *)

Module ExpBound.

Fixpoint squarings (D : Z) (m : nat) (a : Z) : Z :=
  match m with
  | O => a
  | S m' => squarings D m' (a * a / D)
  end.

(** [1 + (p/q) / 2^m], rounded down to a multiple of [1/D] *)
Definition start (D p q : Z) (m : nat) : Z :=
  (D * (q * 2 ^ Z.of_nat m + p) / (q * 2 ^ Z.of_nat m))%Z.

(** A lower bound of [D * exp (p/q)] *)
Definition lower (D p q : Z) (m : nat) : Z :=
  squarings D m (start D p q m).

End ExpBound.

(** The ceiling of a real number, for comparison with [int(x)] *)
Definition ceiling (x : R) : Z := (- Int_part (- x))%Z.

(** A mesh whose sub-domains have a core of 4 x 4 x 4 cells *)
Definition grid444 : grid :=
  mkGrid (Ex.params 0%Qc 0) 1
         (Blitz.mkRectDomain (-1, -1, -1)%Z (4, 4, 4)%Z)
         (Blitz.mkRectDomain (0, 0, 0)%Z (3, 3, 3)%Z)
         (4, 4, 4)%Z 1%Qc 1%Qc 1%Qc
         (fun _ _ => 1%Qc) (fun _ _ => 0%Qc) (fun _ _ => 1%Qc) (fun _ _ => 0%Qc)
         (fun _ _ => 1%Qc) (fun _ _ => 0%Qc).

(** ** Exit statuses *)

(** A status that tells the caller of the program that it failed: any status
    but 0 ([EXIT_SUCCESS]). *)
Definition isErrorStatus (st : Z) : bool := negb (st =? 0)%Z.

(** The program has ended the process with an error status *)
Definition endsWithError {A : Type} (r : Result A) : bool :=
  match r with
  | Exited st _ => isErrorStatus st
  | _ => false
  end.

(** ** Reasoning about programs *)

(** The world a program ends in *)
Definition result_world {A : Type} (r : Result A) : option World :=
  match r with
  | Done _ w => Some w
  | Exited _ w => Some w
  | OutOfFuel => None
  end.

(** [wp c Q X w]: run from [w], the program [c] returns a value and a world
    that satisfy [Q], or it ends the process in a world that satisfies [X];
    it does not run out of fuel. *)
Definition wp {A : Type} (c : M A) (Q : A -> World -> Prop) (X : World -> Prop)
    (w : World) : Prop :=
  match c w with
  | Done a w' => Q a w'
  | Exited _ w' => X w'
  | OutOfFuel => False
  end.

(** [c] keeps the invariant [I], however it ends *)
Definition keeps {A : Type} (I : World -> Prop) (c : M A) : Prop :=
  forall w, I w -> wp c (fun _ => I) I w.

(** The methods whose calls are halo exchanges and boundary objects only *)
Definition boundaryMethod {S : Type} (m : Method S) : Prop :=
  forall s, forallb isBoundaryEvent (snd (m s)) = true.

(** ** The world at the sub-grid test of [timeAdvance] *)

Section AtLES.

Variable E : Collaborators.
Variable ts : eulerCN_d3.
Variable PLANAR : bool.

(** The statements of [timeAdvance(V, P)] before the test *)
Definition atLES (w : World) : World :=
  let w := set_nseRHS (plainvf_cc.assign_real (nseRHS w) 0%Qc) w in
  let w := set_nseRHS (V_computeDiff E (V w) (nseRHS w)) w in
  let w := set_nseRHS (plainvf_cc.mul_assign (nseRHS w) (nu ts / two)%Qc) w in
  let w := set_nseRHS (V_computeNLin E (V w) (V w) (nseRHS w)) w in
  set_nseRHS (vForcing_addForcing E (V w) (T w) (nseRHS w)) w.

(** The statements of [timeAdvance(V, P, T)] before the test *)
Definition atLES_T (w : World) : World :=
  let w := set_nseRHS (plainvf_cc.assign_real (nseRHS w) 0%Qc) w in
  let w := set_tmpRHS (plainsf_ops.assign_real (tmpRHS w) 0%Qc) w in
  let w := set_nseRHS (V_computeDiff E (V w) (nseRHS w)) w in
  let w := set_nseRHS (plainvf_cc.mul_assign (nseRHS w) (nu ts / two)%Qc) w in
  let w := (let (t, h) := sfield_cc.computeDiff E (mesh ts) PLANAR (T w) (tmpRHS w) in
            set_tmpRHS h (set_T t w)) in
  let w := set_tmpRHS (plainsf_ops.mul_assign (tmpRHS w) (kappa ts / two)%Qc) w in
  let w := set_nseRHS (V_computeNLin E (V w) (V w) (nseRHS w)) w in
  let w := (let (t, h) := sfield_cc.computeNLin E (mesh ts) PLANAR (T w) (V w) (tmpRHS w) in
            set_tmpRHS h (set_T t w)) in
  let w := set_nseRHS (vForcing_addForcing E (V w) (T w) (nseRHS w)) w in
  set_tmpRHS (tForcing_addForcing E (V w) (T w) (tmpRHS w)) w.

End AtLES.

(** How many more times an event occurs in the trace of [w'] than in that
    of [w] *)
Definition newCalls (e : Event) (w w' : World) : nat :=
  (occurrences e (trace w') - occurrences e (trace w))%nat.

(** What the steps of [timeAdvance] outside the sub-grid block leave alone:
    the number of calls of either [computeSG] and the stored energy. *)
Definition lesState (nV nVT : nat) (sgKE : real) (w : World) : Prop :=
  occurrences EvComputeSG_V (trace w) = nV /\
  occurrences EvComputeSG_VT (trace w) = nVT /\
  subgridEnergy w = sgKE.

(** What the sub-grid block of [timeAdvance(V, P, T)] does to the number of
    calls of the two [computeSG] and to the stored energy, for counts [nV],
    [nVT] and energy [sgKE] before it. *)
Definition lesEffect_T (E : Collaborators) (ts : eulerCN_d3) (PLANAR : bool)
    (w : World) (nV nVT : nat) (sgKE : real) : nat * nat * real :=
  let wL := atLES_T E ts PLANAR w in
  if eulerCN_d3_cc.lesActive ts then
    if (lesModel (inputParams (mesh ts)) =? 1)%Z
    then (S nV, nVT, snd (computeSG_V E (nseRHS wL) (V wL)))
    else if (lesModel (inputParams (mesh ts)) =? 2)%Z
         then (nV, S nVT,
               snd (computeSG_VT E (nseRHS wL) (tmpRHS wL) (V wL) (T wL)))
         else (nV, nVT, 0%Qc)
  else (nV, nVT, sgKE).

(** ** Cores and the collaborators that respect them *)

(** Two distributed arrays agree on the cells of a domain *)
Definition agree (d : Blitz.RectDomain) (A B : DArray) : Prop :=
  forall r i j k, Blitz.inDomain d i j k = true -> A r i j k = B r i j k.

Definition agreeV (d : Blitz.RectDomain) (U U' : Vfield.t) : Prop :=
  agree d (Field.F (Vfield.Vx U)) (Field.F (Vfield.Vx U')) /\
  agree d (Field.F (Vfield.Vy U)) (Field.F (Vfield.Vy U')) /\
  agree d (Field.F (Vfield.Vz U)) (Field.F (Vfield.Vz U')).

(** Halo exchange and boundary objects write pads and wall slices, which
    lie outside the core. *)
Definition respectsCore (E : Collaborators) (d : Blitz.RectDomain) : Prop :=
  (forall name A, agree d (mpi_syncData E name A) A) /\
  (forall name w A, agree d (bc_imposeBC E name w A) A) /\
  (forall c U, agreeV d (V_imposeVBC E c U) U) /\
  (forall U, agreeV d (V_imposeBCs E U) U).

(** The cores of [V] and [T] are those of the given arrays *)
Definition coresAre (d : Blitz.RectDomain) (vx vy vz t : DArray) (w : World)
    : Prop :=
  agree d (Field.F (Vfield.Vx (V w))) vx /\
  agree d (Field.F (Vfield.Vy (V w))) vy /\
  agree d (Field.F (Vfield.Vz (V w))) vz /\
  agree d (Field.F (Sfield.F (T w))) t.

(** The cores of the right-hand sides are those of the given arrays *)
Definition rhsAre (d : Blitz.RectDomain) (vx vy vz t : DArray) (w : World)
    : Prop :=
  agree d (Plainvf.Vx (nseRHS w)) vx /\
  agree d (Plainvf.Vy (nseRHS w)) vy /\
  agree d (Plainvf.Vz (nseRHS w)) vz /\
  agree d (Plainsf.F (tmpRHS w)) t.

(** The cores of the components of [pressureGradient] are those of the
    given arrays *)
Definition pgAre (d : Blitz.RectDomain) (gx gy gz : DArray) (w : World) : Prop :=
  agree d (Plainvf.Vx (pressureGradient w)) gx /\
  agree d (Plainvf.Vy (pressureGradient w)) gy /\
  agree d (Plainvf.Vz (pressureGradient w)) gz.

(** From a world that satisfies [I1], the program [c] returns, in a world
    that satisfies [I2]. *)
Definition runs {A : Type} (I1 : World -> Prop) (c : M A) (I2 : World -> Prop)
    : Prop :=
  forall w, I1 w -> wp c (fun _ => I2) (fun _ => False) w.

(** The invariant of a step of size zero once the right-hand sides are
    assembled *)
Definition restInv (d : Blitz.RectDomain) (vx vy vz t t' : DArray) (w : World)
    : Prop :=
  coresAre d vx vy vz t w /\ rhsAre d vx vy vz t' w.

(** ** [lib/field/field.cc]: the wall slices *)

Module field_walls.

  (** [a(i)(d) = v] for a one-dimensional array [a] of index vectors *)
Definition setComponent (a : list Blitz.TinyVector) (i d : nat) (v : Z)
      : list Blitz.TinyVector :=
    map (fun p => if Nat.eqb (fst p) i then Blitz.tv_set (snd p) d v else snd p)
        (combine (seq 0%nat (List.length a)) a).

  (** [field::setWallSlices], from the bounds of the array [F] and the
      core: the six slices [fWalls(0)], ..., [fWalls(5)] of the left, right,
      front, back, bottom and top wall. *)
Definition setWallSlices (F_lbound F_ubound : Blitz.TinyVector)
      (core : Blitz.RectDomain) : list Blitz.RectDomain :=
    let wlBound := repeat F_lbound 6%nat in
    let wuBound := repeat F_ubound 6%nat in
    let below (d : nat) := (Blitz.tv_get (Blitz.lbound core) d - 1)%Z in
    let above (d : nat) := (Blitz.tv_get (Blitz.ubound core) d + 1)%Z in
    (* wlBound(0)(0) = wuBound(0)(0) = core.lbound(0) - 1 *)
    let wuBound := setComponent wuBound 0%nat 0%nat (below 0%nat) in
    let wlBound := setComponent wlBound 0%nat 0%nat (below 0%nat) in
    (* wuBound(1)(0) = wlBound(1)(0) = core.ubound(0) + 1 *)
    let wlBound := setComponent wlBound 1%nat 0%nat (above 0%nat) in
    let wuBound := setComponent wuBound 1%nat 0%nat (above 0%nat) in
    (* wlBound(2)(1) = wuBound(2)(1) = core.lbound(1) - 1 *)
    let wuBound := setComponent wuBound 2%nat 1%nat (below 1%nat) in
    let wlBound := setComponent wlBound 2%nat 1%nat (below 1%nat) in
    (* wuBound(3)(1) = wlBound(3)(1) = core.ubound(1) + 1 *)
    let wlBound := setComponent wlBound 3%nat 1%nat (above 1%nat) in
    let wuBound := setComponent wuBound 3%nat 1%nat (above 1%nat) in
    (* wlBound(4)(2) = wuBound(4)(2) = core.lbound(2) - 1 *)
    let wuBound := setComponent wuBound 4%nat 2%nat (below 2%nat) in
    let wlBound := setComponent wlBound 4%nat 2%nat (below 2%nat) in
    (* wuBound(5)(2) = wlBound(5)(2) = core.ubound(2) + 1 *)
    let wlBound := setComponent wlBound 5%nat 2%nat (above 2%nat) in
    let wuBound := setComponent wuBound 5%nat 2%nat (above 2%nat) in
    map (fun p => Blitz.mkRectDomain (fst p) (snd p)) (combine wlBound wuBound).

End field_walls.

(** ** What a solver leaves alone *)

(** The members of the world that the solver [s] does not assign to: the
    pressure fields, the right-hand sides, the stored sub-grid energy, the
    fields that are not its unknown and the scratch arrays of the other
    solvers.  ([V.imposeVxBC()] and its siblings are methods of the whole
    vector field.) *)
Definition solverFrame (s : eulerCN_d3_cc.Solver) (w w' : World) : Prop :=
  P w' = P w /\ Pp w' = Pp w /\
  nseRHS w' = nseRHS w /\ tmpRHS w' = tmpRHS w /\
  pressureGradient w' = pressureGradient w /\ mgRHS w' = mgRHS w /\
  subgridEnergy w' = subgridEnergy w /\
  match s with
  | eulerCN_d3_cc.SolveVx =>
      T w' = T w /\ tempVy w' = tempVy w /\ tempVz w' = tempVz w /\
      tempT w' = tempT w
  | eulerCN_d3_cc.SolveVy =>
      T w' = T w /\ tempVx w' = tempVx w /\ tempVz w' = tempVz w /\
      tempT w' = tempT w
  | eulerCN_d3_cc.SolveVz =>
      T w' = T w /\ tempVx w' = tempVx w /\ tempVy w' = tempVy w /\
      tempT w' = tempT w
  | eulerCN_d3_cc.SolveT =>
      V w' = V w /\ tempVx w' = tempVx w /\ tempVy w' = tempVy w /\
      tempVz w' = tempVz w
  end.

(** ** How a time step ends *)

(** [triple I c Q X]: run from a world that satisfies [I], the program [c]
    returns in a world that satisfies [Q], or it ends the process in a world
    that satisfies [X]. *)
Definition triple {A : Type} (I : World -> Prop) (c : M A)
    (Q X : World -> Prop) : Prop :=
  forall w, I w -> wp c (fun _ => Q) X w.

(** Whenever [c] ends the process, the exit status is [st]. *)
Definition exitsWith {A : Type} (st : Z) (c : M A) : Prop :=
  forall w st' w', c w = Exited st' w' -> st' = st.

(** The error line of the solver for the unknown [name] *)
Definition abortMessage (name : string) : string :=
  ("ERROR: Jacobi iterations for solution of " ++ name ++
   " not converging. Aborting")%string.

(** The calls of the multigrid solver and of [MPI_Finalize] so far, and the
    standard output *)
Definition stepQuiet (nMg nFin : nat) (out : nat -> list string) (w : World)
    : Prop :=
  occurrences EvMgSolve (trace w) = nMg /\
  occurrences EvFinalize (trace w) = nFin /\
  stdout w = out.

(** A time step on its way to the pressure correction: the pressure and the
    correction are those of the start. *)
Definition stepRunning (nMg nFin : nat) (out : nat -> list string)
    (pF : Field.t) (pp : Sfield.t) (w : World) : Prop :=
  stepQuiet nMg nFin out w /\ Sfield.F (P w) = pF /\ Pp w = pp.

(** A time step ended by a solver: one more [MPI_Finalize], one error line
    more on rank 0 and none elsewhere, no call of the multigrid solver, and
    the pressure and the correction as they were. *)
Definition stepAborted (nMg nFin : nat) (out : nat -> list string)
    (pF : Field.t) (pp : Sfield.t) (w : World) : Prop :=
  occurrences EvMgSolve (trace w) = nMg /\
  occurrences EvFinalize (trace w) = S nFin /\
  (exists name,
     In name ("Vx" :: "Vy" :: "Vz" :: "T" :: nil)%string /\
     stdout w 0%nat = out 0%nat ++ abortMessage name :: nil) /\
  (forall r, r <> 0%nat -> stdout w r = out r) /\
  Sfield.F (P w) = pF /\ Pp w = pp.

(** ** The pressure after a time step *)

(** The array of [P] is [p0 + Pp], everywhere *)
Definition pressureIs (p0 : DArray) (w : World) : Prop :=
  Field.F (Sfield.F (P w)) = dzip Qcplus p0 (Field.F (Sfield.F (Pp w))).

(** The array of [P] is [p0 + Pp] on the cells of [d] *)
Definition pressureCoreIs (d : Blitz.RectDomain) (p0 : DArray) (w : World)
    : Prop :=
  agree d (Field.F (Sfield.F (P w)))
          (dzip Qcplus p0 (Field.F (Sfield.F (Pp w)))).

(** ** The stages of a time step

    The statements of the two overloads of [timeAdvance], cut after the
    Jacobi solvers (the predictor, and the projection and correction that
    follow it) and, for the overload with a scalar, after the sub-grid
    block. *)

Section Stages.

Variable E : Collaborators.
Variable ts : eulerCN_d3.
Variable PLANAR : bool.
Variable TEST_POISSON : bool.

Local Open Scope Qc_scope.

  (** [timeAdvance(V, P)] from [nseRHS = 0.0] to [solveVz(V, nseRHS)] *)
Definition predictor : M unit :=
    (modify (fun w => set_nseRHS (plainvf_cc.assign_real (nseRHS w) 0) w) ;;
     modify (fun w => set_nseRHS (V_computeDiff E (V w) (nseRHS w)) w) ;;
     modify (fun w => set_nseRHS (plainvf_cc.mul_assign (nseRHS w) (nu ts / two)) w) ;;
     modify (fun w => set_nseRHS (V_computeNLin E (V w) (V w) (nseRHS w)) w) ;;
     modify (fun w => set_nseRHS (vForcing_addForcing E (V w) (T w) (nseRHS w)) w) ;;
     whenM (eulerCN_d3_cc.lesActive ts)
       (subgridKE <- eulerCN_d3_cc.callComputeSG_V E ;;
        modify (set_subgridEnergy subgridKE)) ;;
     modify (fun w =>
       set_pressureGradient (plainvf_cc.assign_real (pressureGradient w) 0) w) ;;
     eulerCN_d3_cc.gradient_into_pressureGradient E ts PLANAR P set_P ;;
     modify (fun w => set_nseRHS (plainvf_cc.sub_assign (nseRHS w) (pressureGradient w)) w) ;;
     modify (fun w => set_nseRHS (plainvf_cc.mul_assign (nseRHS w) (dt ts)) w) ;;
     modify (fun w => set_nseRHS (plainvf_cc.add_assign_vfield (nseRHS w) (V w)) w) ;;
     run nseRHS set_nseRHS (plainvf_cc.syncData E "nseRHS") ;;
     eulerCN_d3_cc.solveVx E ts ;;
     eulerCN_d3_cc.solveVy E ts ;;
     eulerCN_d3_cc.solveVz E ts)%prog.

  (** [timeAdvance(V, P)] from [V.divergence(mgRHS)] to [P.imposeBCs()] *)
Definition corrector : M unit :=
    (eulerCN_d3_cc.project E ts ;;
     whenM TEST_POISSON
       (modify (fun w => set_mgRHS (Plainsf.mk (dfill 1)) w)) ;;
     eulerCN_d3_cc.callMgSolve E ;;
     run Pp set_Pp (sfield_cc.syncData E) ;;
     whenM TEST_POISSON
       (modify (fun w =>
          set_P (Sfield.mk (field_cc.assign_real (Sfield.F (P w)) 0)
                           (Sfield.derivTemp (P w)) (Sfield.fieldName (P w))) w)) ;;
     eulerCN_d3_cc.correct E ts PLANAR ;;
     run V set_V (call EvImposeVBCs (V_imposeBCs E)) ;;
     run P set_P (sfield_cc.imposeBCs E (mesh ts) PLANAR))%prog.

  (** [timeAdvance(V, P, T)] from [V.divergence(mgRHS)] to [T.imposeBCs()] *)
Definition corrector_T : M unit :=
    (eulerCN_d3_cc.project E ts ;;
     eulerCN_d3_cc.callMgSolve E ;;
     run Pp set_Pp (sfield_cc.syncData E) ;;
     eulerCN_d3_cc.correct E ts PLANAR ;;
     run V set_V (call EvImposeVBCs (V_imposeBCs E)) ;;
     run P set_P (sfield_cc.imposeBCs E (mesh ts) PLANAR) ;;
     run T set_T (sfield_cc.imposeBCs E (mesh ts) PLANAR))%prog.

  (** [timeAdvance(V, P, T)] from [pressureGradient = 0.0], the statement
      after the sub-grid block, to the end *)
Definition afterLES_T : M unit :=
    (modify (fun w =>
       set_pressureGradient (plainvf_cc.assign_real (pressureGradient w) 0) w) ;;
     eulerCN_d3_cc.gradient_into_pressureGradient E ts PLANAR P set_P ;;
     modify (fun w => set_nseRHS (plainvf_cc.sub_assign (nseRHS w) (pressureGradient w)) w) ;;
     modify (fun w => set_nseRHS (plainvf_cc.mul_assign (nseRHS w) (dt ts)) w) ;;
     modify (fun w => set_nseRHS (plainvf_cc.add_assign_vfield (nseRHS w) (V w)) w) ;;
     modify (fun w => set_tmpRHS (plainsf_ops.mul_assign (tmpRHS w) (dt ts)) w) ;;
     modify (fun w => set_tmpRHS (plainsf_ops.add_assign_sfield (tmpRHS w) (T w)) w) ;;
     run nseRHS set_nseRHS (plainvf_cc.syncData E "nseRHS") ;;
     run tmpRHS set_tmpRHS (plainsf_ops.syncData E "tmpRHS") ;;
     eulerCN_d3_cc.solveVx E ts ;;
     eulerCN_d3_cc.solveVy E ts ;;
     eulerCN_d3_cc.solveVz E ts ;;
     eulerCN_d3_cc.solveT E ts PLANAR ;;
     corrector_T)%prog.

  (** [timeAdvance(V, P, T)] from [nseRHS = 0.0] to [solveT(T, tmpRHS)] *)
Definition predictor_T : M unit :=
    (modify (fun w => set_nseRHS (plainvf_cc.assign_real (nseRHS w) 0) w) ;;
     modify (fun w => set_tmpRHS (plainsf_ops.assign_real (tmpRHS w) 0) w) ;;
     modify (fun w => set_nseRHS (V_computeDiff E (V w) (nseRHS w)) w) ;;
     modify (fun w => set_nseRHS (plainvf_cc.mul_assign (nseRHS w) (nu ts / two)) w) ;;
     modify (fun w =>
       let (t, h) := sfield_cc.computeDiff E (mesh ts) PLANAR (T w) (tmpRHS w) in
       set_tmpRHS h (set_T t w)) ;;
     modify (fun w => set_tmpRHS (plainsf_ops.mul_assign (tmpRHS w) (kappa ts / two)) w) ;;
     modify (fun w => set_nseRHS (V_computeNLin E (V w) (V w) (nseRHS w)) w) ;;
     modify (fun w =>
       let (t, h) := sfield_cc.computeNLin E (mesh ts) PLANAR (T w) (V w) (tmpRHS w) in
       set_tmpRHS h (set_T t w)) ;;
     modify (fun w => set_nseRHS (vForcing_addForcing E (V w) (T w) (nseRHS w)) w) ;;
     modify (fun w => set_tmpRHS (tForcing_addForcing E (V w) (T w) (tmpRHS w)) w) ;;
     whenM (eulerCN_d3_cc.lesActive ts)
       (subgridKE <-
          (if (lesModel (inputParams (mesh ts)) =? 1)%Z
           then eulerCN_d3_cc.callComputeSG_V E
           else if (lesModel (inputParams (mesh ts)) =? 2)%Z
                then eulerCN_d3_cc.callComputeSG_VT E
                else ret 0) ;;
        modify (set_subgridEnergy subgridKE)) ;;
     modify (fun w =>
       set_pressureGradient (plainvf_cc.assign_real (pressureGradient w) 0) w) ;;
     eulerCN_d3_cc.gradient_into_pressureGradient E ts PLANAR P set_P ;;
     modify (fun w => set_nseRHS (plainvf_cc.sub_assign (nseRHS w) (pressureGradient w)) w) ;;
     modify (fun w => set_nseRHS (plainvf_cc.mul_assign (nseRHS w) (dt ts)) w) ;;
     modify (fun w => set_nseRHS (plainvf_cc.add_assign_vfield (nseRHS w) (V w)) w) ;;
     modify (fun w => set_tmpRHS (plainsf_ops.mul_assign (tmpRHS w) (dt ts)) w) ;;
     modify (fun w => set_tmpRHS (plainsf_ops.add_assign_sfield (tmpRHS w) (T w)) w) ;;
     run nseRHS set_nseRHS (plainvf_cc.syncData E "nseRHS") ;;
     run tmpRHS set_tmpRHS (plainsf_ops.syncData E "tmpRHS") ;;
     eulerCN_d3_cc.solveVx E ts ;;
     eulerCN_d3_cc.solveVy E ts ;;
     eulerCN_d3_cc.solveVz E ts ;;
     eulerCN_d3_cc.solveT E ts PLANAR)%prog.

End Stages.

(** * Properties *)

Unset Implicit Arguments.

(** ** Order and maximum on [Qc] *)

Section QcOrder.

Local Open Scope Qc_scope.

Lemma Qcmax_spec (a b : Qc) :
    (a < b /\ Qcmax a b = b) \/ (b <= a /\ Qcmax a b = a).
Proof.
    unfold Qcmax. destruct (a ?= b) eqn:C.
    - right. split; [|reflexivity].
      apply Qceq_alt in C. subst. apply Qcle_refl.
    - left. split; [|reflexivity]. now apply Qclt_alt.
    - right. split; [|reflexivity].
      apply Qclt_le_weak. now apply Qcgt_alt.
Qed.

Lemma Qcmax_scale (c a b : Qc) :
    0 <= c -> Qcmax (a * c) (b * c) = Qcmax a b * c.
Proof.
    intros Hc.
    destruct (Qcmax_spec a b) as [[Hab ->]|[Hba ->]];
      destruct (Qcmax_spec (a * c) (b * c)) as [[H ->]|[H ->]]; try reflexivity.
    - apply Qcle_antisym; [|exact H].
      apply Qcmult_le_compat_r; [now apply Qclt_le_weak | exact Hc].
    - apply Qcle_antisym; [|now apply Qclt_le_weak].
      now apply Qcmult_le_compat_r.
Qed.

Lemma fold_Qcmax_scale (c : Qc) (l : list Qc) (a : Qc) :
    0 <= c ->
    fold_left Qcmax (map (fun x => x * c) l) (a * c) = fold_left Qcmax l a * c.
Proof.
    intros Hc. revert a.
    induction l as [|x l IH]; intros a; simpl; [reflexivity|].
    rewrite Qcmax_scale by exact Hc. apply IH.
Qed.

Lemma Blitz_max_scale (c : Qc) (l : list Qc) :
    0 <= c -> Blitz.max (map (fun x => x * c) l) = Blitz.max l * c.
Proof.
    intros Hc. destruct l as [|x l]; simpl.
    - now rewrite Qcmult_0_l.
    - now apply fold_Qcmax_scale.
Qed.

Lemma Allreduce_MAX_scale (c : Qc) (np : nat) (loc : nat -> Qc) :
    0 <= c ->
    MPI.Allreduce_MAX np (fun r => loc r * c) = MPI.Allreduce_MAX np loc * c.
Proof.
    intros Hc. unfold MPI.Allreduce_MAX.
    rewrite <- fold_Qcmax_scale by exact Hc.
    now rewrite map_map.
Qed.

Lemma Allreduce_MAX_ext (np : nat) (f g : nat -> Qc) :
    (forall r, f r = g r) -> MPI.Allreduce_MAX np f = MPI.Allreduce_MAX np g.
Proof.
    intros H. unfold MPI.Allreduce_MAX.
    rewrite (map_ext f g) by exact H. now rewrite H.
Qed.

End QcOrder.

(** ** [fieldMax] *)

(** C7.  Scaling a scalar field by a number [c] (the operator [*=]) scales
    its [fieldMax] by the absolute value of [c]. *)
Theorem fieldMax_scale (gridData : grid) (f : Sfield.t) (c : real) :
  field_cc.fieldMax gridData (Sfield.F (sfield_cc.mul_assign f c))
  = (Qcabs c * field_cc.fieldMax gridData (Sfield.F f))%Qc.
Proof.
  unfold field_cc.fieldMax, sfield_cc.mul_assign, sfield_cc.FF. simpl.
  rewrite Qcmult_comm.
  rewrite <- Allreduce_MAX_scale by apply Qcabs_nonneg.
  apply Allreduce_MAX_ext. intros r.
  rewrite <- Blitz_max_scale by apply Qcabs_nonneg.
  f_equal. unfold Blitz.slice. rewrite !map_map.
  apply map_ext. intros [[i j] k]. simpl.
  unfold dmap, Blitz.mapWith. apply Qcabs_Qcmult.
Qed.

(** ** The derivative operators of [sfield] write the core only *)

(** C10.  [computeDiff], [computeNLin] and [gradient] leave every cell of
    their output argument outside the core as it was; inside the core,
    [gradient] assigns the derivative and [computeDiff], [computeNLin]
    add to, respectively subtract from, what the cell held. *)
Theorem sfield_operators_write_core_only
    (E : Collaborators) (gridData : grid) (PLANAR : bool)
    (this : Sfield.t) (U : Vfield.t) (H : Plainsf.t) (gradF : Plainvf.t)
    (r : nat) (i j k : Z) :
  let F := Field.F (Sfield.F this) in
  let d (calc : DArray -> DArray -> DArray) := calc F (dfill 0%Qc) r i j k in
  let H' := snd (sfield_cc.computeDiff E gridData PLANAR this H) in
  let N' := snd (sfield_cc.computeNLin E gridData PLANAR this U H) in
  let G' := snd (sfield_cc.gradient E gridData PLANAR this gradF) in
  (Blitz.inDomain (coreDomain gridData) i j k = false ->
     Plainsf.F H' r i j k = Plainsf.F H r i j k /\
     Plainsf.F N' r i j k = Plainsf.F H r i j k /\
     Plainvf.Vx G' r i j k = Plainvf.Vx gradF r i j k /\
     Plainvf.Vy G' r i j k = Plainvf.Vy gradF r i j k /\
     Plainvf.Vz G' r i j k = Plainvf.Vz gradF r i j k) /\
  (Blitz.inDomain (coreDomain gridData) i j k = true ->
     Plainvf.Vx G' r i j k = d (calcDerivative1_x E) /\
     Plainvf.Vy G' r i j k =
       (if PLANAR then Plainvf.Vy gradF r i j k else d (calcDerivative1_y E)) /\
     Plainvf.Vz G' r i j k = d (calcDerivative1_z E) /\
     Plainsf.F H' r i j k =
       (if PLANAR
        then Plainsf.F H r i j k + d (calcDerivative2xx E) + d (calcDerivative2zz E)
        else Plainsf.F H r i j k + d (calcDerivative2xx E) + d (calcDerivative2yy E)
             + d (calcDerivative2zz E))%Qc /\
     Plainsf.F N' r i j k =
       (if PLANAR
        then Plainsf.F H r i j k
             - Field.F (Vfield.Vx U) r i j k * d (calcDerivative1_x E)
             - Field.F (Vfield.Vz U) r i j k * d (calcDerivative1_z E)
        else Plainsf.F H r i j k
             - Field.F (Vfield.Vx U) r i j k * d (calcDerivative1_x E)
             - Field.F (Vfield.Vy U) r i j k * d (calcDerivative1_y E)
             - Field.F (Vfield.Vz U) r i j k * d (calcDerivative1_z E))%Qc).
Proof.
  cbv zeta.
  unfold sfield_cc.computeDiff, sfield_cc.computeNLin, sfield_cc.gradient,
    sfield_cc.derive, sfield_cc.core, sfield_cc.FF.
  split; intros Hc; destruct PLANAR; cbn;
    unfold dOnDomain, Blitz.onDomain, dzip, Blitz.zipWith;
    rewrite ?Hc; repeat split; reflexivity.
Qed.

(** ** [sfield::imposeBCs] *)

Section ImposeBCs.

Variable E : Collaborators.
Variable gridData : grid.
Variable PLANAR : bool.

Lemma imposeBCs_trace (this : Sfield.t) :
    snd (sfield_cc.imposeBCs E gridData PLANAR this)
    = imposeBCs_events gridData PLANAR this.
Proof.
    unfold sfield_cc.imposeBCs, imposeBCs_events.
    destruct (xPer (inputParams gridData)), (yPer (inputParams gridData)), PLANAR;
      reflexivity.
Qed.

Lemma imposeBCs_array (this : Sfield.t) :
    let name := Sfield.fieldName this in
    let bc (w : Wall) (on : bool) (A : DArray) : DArray :=
      if on then bc_imposeBC E name w A else A in
    let xOn := negb (xPer (inputParams gridData)) in
    let yOn := negb PLANAR && negb (yPer (inputParams gridData)) in
    Field.F (Sfield.F (fst (sfield_cc.imposeBCs E gridData PLANAR this))) =
      bc Bot true (bc Top true (bc Bak yOn (bc Frn yOn (bc Rgt xOn (bc Lft xOn
        (mpi_syncData E (Field.fieldName (Sfield.F this))
                      (Field.F (Sfield.F this)))))))).
Proof.
    cbv zeta. unfold sfield_cc.imposeBCs.
    destruct (xPer (inputParams gridData)), (yPer (inputParams gridData)), PLANAR;
      reflexivity.
Qed.

Lemma imposeBCs_fieldName (this : Sfield.t) :
    Sfield.fieldName (fst (sfield_cc.imposeBCs E gridData PLANAR this))
    = Sfield.fieldName this.
Proof.
    unfold sfield_cc.imposeBCs.
    destruct (xPer (inputParams gridData)), (yPer (inputParams gridData)), PLANAR;
      reflexivity.
Qed.

End ImposeBCs.

(** C5.  [imposeBCs] calls [syncData] first, then the left and right wall
    objects unless the x axis is periodic, then the front and back wall
    objects unless the build is planar or the y axis is periodic, then the
    top and the bottom wall objects in every case; the z periodicity flag
    plays no part.  The field that results is the composition of these calls
    in that order. *)
Theorem imposeBCs_calls
    (E : Collaborators) (gridData : grid) (PLANAR : bool) (this : Sfield.t) :
  let name := Sfield.fieldName this in
  let bc (w : Wall) (on : bool) (A : DArray) : DArray :=
    if on then bc_imposeBC E name w A else A in
  let xOn := negb (xPer (inputParams gridData)) in
  let yOn := negb PLANAR && negb (yPer (inputParams gridData)) in
  let res := sfield_cc.imposeBCs E gridData PLANAR this in
  snd res =
    (EvSyncData (Field.fieldName (Sfield.F this)) :: nil) ++
    (if xOn then EvImposeBC name Lft :: EvImposeBC name Rgt :: nil else nil) ++
    (if yOn then EvImposeBC name Frn :: EvImposeBC name Bak :: nil else nil) ++
    (EvImposeBC name Top :: EvImposeBC name Bot :: nil)
  /\
  Field.F (Sfield.F (fst res)) =
    bc Bot true (bc Top true (bc Bak yOn (bc Frn yOn (bc Rgt xOn (bc Lft xOn
      (mpi_syncData E (Field.fieldName (Sfield.F this))
                    (Field.F (Sfield.F this)))))))).
Proof.
  cbv zeta. split.
  - apply imposeBCs_trace.
  - apply imposeBCs_array.
Qed.

(** ** Loop nests over the core *)

Section Loops.

Lemma range_existsb (lo hi k : Z) :
    existsb (Z.eqb k) (Blitz.range lo hi) = Blitz.inRange lo hi k.
Proof.
    unfold Blitz.range, Blitz.inRange.
    destruct ((lo <=? k)%Z && (k <=? hi)%Z) eqn:B.
    - apply andb_prop in B as [B1 B2].
      apply Z.leb_le in B1. apply Z.leb_le in B2.
      apply existsb_exists. exists k. split; [|apply Z.eqb_refl].
      apply in_map_iff. exists (Z.to_nat (k - lo)). split; [lia|].
      apply in_seq. lia.
    - apply not_true_iff_false. intros Hex.
      apply existsb_exists in Hex as (x & Hin & Hx).
      apply Z.eqb_eq in Hx. subst x.
      apply in_map_iff in Hin as (n & Hn & Hin). apply in_seq in Hin.
      apply andb_false_iff in B as [B|B]; apply Z.leb_gt in B; lia.
Qed.

  (** A loop whose body overwrites the cells it "hits" with a value that
      depends on the cell only: after the loop, the cells hit by some
      iteration hold that value and the others are untouched. *)
Lemma fold_pointwise (body : Z -> Blitz.Array -> Blitz.Array)
      (hit : Z -> Z -> Z -> Z -> bool) (val : Blitz.Array) :
    (forall a A i j k,
        body a A i j k = if hit a i j k then val i j k else A i j k) ->
    forall (l : list Z) (A : Blitz.Array) i j k,
      fold_left (fun s a => body a s) l A i j k
      = if existsb (fun a => hit a i j k) l then val i j k else A i j k.
Proof.
    intros Hbody l. induction l as [|a l IH]; intros A i j k; simpl.
    - reflexivity.
    - rewrite IH, Hbody.
      destruct (hit a i j k); simpl; [|reflexivity].
      now destruct (existsb _ l).
Qed.

Lemma existsb_const (b : bool) (l : list Z) (p : Z -> bool) :
    existsb (fun a => b && p a) l = b && existsb p l.
Proof.
    induction l as [|a l IH]; simpl.
    - now rewrite andb_false_r.
    - rewrite IH. now destruct b.
Qed.

Lemma existsb_const_r (b : bool) (l : list Z) (p : Z -> bool) :
    existsb (fun a => p a && b) l = existsb p l && b.
Proof.
    induction l as [|a l IH]; simpl.
    - reflexivity.
    - rewrite IH. destruct (p a), b, (existsb p l); reflexivity.
Qed.

Variable E : Collaborators.
Variable ts : eulerCN_d3.

  (** The loop nest of a solver writes [value] into the cells of the core
      and nothing else. *)
Lemma loopNest_pointwise (value : nat -> Z -> Z -> Z -> real) (temp : DArray)
      (r : nat) (i j k : Z) :
    eulerCN_d3_cc.loopNest ts value temp r i j k
    = if Blitz.inDomain (eulerCN_d3_cc.core ts) i j k then value r i j k
      else temp r i j k.
Proof.
    unfold eulerCN_d3_cc.loopNest, Blitz.forLoop. cbv beta.
    etransitivity.
    { apply (fold_pointwise _
               (fun iX i j k =>
                  (i =? iX)%Z &&
                  Blitz.inRange (eulerCN_d3_cc.ySt ts) (eulerCN_d3_cc.yEn ts) j &&
                  Blitz.inRange (eulerCN_d3_cc.zSt ts) (eulerCN_d3_cc.zEn ts) k)
               (value r)).
      intros iX A i0 j0 k0.
      etransitivity.
      { apply (fold_pointwise _
                 (fun iY i j k =>
                    (i =? iX)%Z && (j =? iY)%Z &&
                    Blitz.inRange (eulerCN_d3_cc.zSt ts) (eulerCN_d3_cc.zEn ts) k)
                 (value r)).
        intros iY B i1 j1 k1.
        etransitivity.
        { apply (fold_pointwise _
                   (fun iZ i j k => (i =? iX)%Z && (j =? iY)%Z && (k =? iZ)%Z)
                   (value r)).
          intros iZ C i2 j2 k2. unfold Blitz.update.
          destruct (i2 =? iX)%Z eqn:Ei; [|reflexivity].
          destruct (j2 =? iY)%Z eqn:Ej; [|reflexivity].
          destruct (k2 =? iZ)%Z eqn:Ek; [|reflexivity].
          apply Z.eqb_eq in Ei, Ej, Ek. now subst. }
        rewrite existsb_const, range_existsb. reflexivity. }
      rewrite existsb_const_r, existsb_const, range_existsb. reflexivity. }
    rewrite existsb_const_r, existsb_const_r, range_existsb.
    reflexivity.
Qed.

End Loops.

(** ** One Jacobi sweep *)

Ltac qc_ring := change real with Qc in *; ring.

Section Sweep.

Local Open Scope Qc_scope.

Lemma half_inv_two : half = / two.
Proof. apply Qc_is_canon. reflexivity. Qed.

Lemma range_In (lo hi x : Z) :
    In x (Blitz.range lo hi) -> Blitz.inRange lo hi x = true.
Proof.
    intros H. rewrite <- range_existsb. apply existsb_exists.
    exists x. split; [exact H | apply Z.eqb_refl].
Qed.

Lemma cells_inDomain (d : Blitz.RectDomain) (i j k : Z) :
    In (i, j, k) (Blitz.cells d) -> Blitz.inDomain d i j k = true.
Proof.
    unfold Blitz.cells, Blitz.inDomain. intros H.
    apply in_flat_map in H as (x & Hx & H).
    apply in_flat_map in H as (y & Hy & H).
    apply in_map_iff in H as (z & Hz & H).
    inversion Hz; subst.
    now rewrite (range_In _ _ _ Hx), (range_In _ _ _ Hy), (range_In _ _ _ H).
Qed.

Variable ts : eulerCN_d3.

  (** The expression of the first loop nest is the candidate of the
      document. *)
Lemma jacobiUpdate_candidate (alpha : real) (r : nat) (F rhs : Blitz.Array)
      (i j k : Z) :
    eulerCN_d3_cc.jacobiUpdate ts alpha r F rhs i j k
    = Spec.candidate ts alpha r F rhs i j k.
Proof.
    unfold eulerCN_d3_cc.jacobiUpdate, Spec.candidate, Spec.neighbourSum,
      Spec.diagonal, Qcdiv.
    f_equal; [qc_ring | f_equal; qc_ring].
Qed.

  (** The expression of the second loop nest, less the right-hand side, is
      the residual of the document. *)
Lemma jacobiDefect_residual (alpha : real) (r : nat) (F rhs : Blitz.Array)
      (i j k : Z) :
    eulerCN_d3_cc.jacobiDefect ts alpha r F i j k - rhs i j k
    = Spec.residual ts alpha r F rhs i j k.
Proof.
    unfold eulerCN_d3_cc.jacobiDefect, Spec.residual, Spec.laplacian, Qcdiv.
    rewrite half_inv_two. qc_ring.
Qed.

  (** [S] is the Laplacian without its centre term. *)
Lemma laplacian_neighbourSum (r : nat) (phi : Blitz.Array) (i j k : Z) :
    Spec.laplacian ts r phi i j k
    = Spec.neighbourSum ts r phi i j k
      - two * phi i j k * Spec.diagonal ts r i j k.
Proof.
    unfold Spec.laplacian, Spec.neighbourSum, Spec.diagonal. qc_ring.
Qed.

End Sweep.

Lemma runOn_eq {S : Type} (getS : World -> S) (setS : S -> World -> World)
    (m : Method S) (w : World) :
  runOn getS setS m w = add_trace (snd (m (getS w))) (setS (fst (m (getS w))) w).
Proof. unfold runOn. now destruct (m (getS w)). Qed.

Section SweepSpec.

Variable E : Collaborators.
Variable ts : eulerCN_d3.
Variable PLANAR : bool.

Lemma loopNest_ext (value : nat -> Z -> Z -> Z -> real) (temp : DArray) :
    eulerCN_d3_cc.loopNest ts value temp
    = fun r i j k =>
        if Blitz.inDomain (eulerCN_d3_cc.core ts) i j k then value r i j k
        else temp r i j k.
Proof.
    extensionality r. extensionality i. extensionality j. extensionality k.
    apply loopNest_pointwise.
Qed.

Lemma slice_onDomain (d : Blitz.RectDomain) (A : Blitz.Array)
      (f g : Z -> Z -> Z -> real) :
    (forall i j k, Blitz.inDomain d i j k = true -> f i j k = g i j k) ->
    Blitz.slice (fun i j k => if Blitz.inDomain d i j k then f i j k else A i j k) d
    = map (fun c => Blitz.at_ g c) (Blitz.cells d).
Proof.
    intros H. unfold Blitz.slice. apply map_ext_in.
    intros [[i j] k] Hin. simpl.
    rewrite (cells_inDomain _ _ _ _ Hin). apply H. now apply cells_inDomain.
Qed.

Lemma firstLoop_candidate (alpha : real) (phi rhs temp : DArray) :
    eulerCN_d3_cc.loopNest ts
      (fun r => eulerCN_d3_cc.jacobiUpdate ts alpha r (phi r) (rhs r)) temp
    = fun r i j k =>
        if Blitz.inDomain (coreDomain (mesh ts)) i j k
        then Spec.candidate ts alpha r (phi r) (rhs r) i j k
        else temp r i j k.
Proof.
    rewrite loopNest_ext.
    extensionality r. extensionality i. extensionality j. extensionality k.
    unfold eulerCN_d3_cc.core. now rewrite jacobiUpdate_candidate.
Qed.

  (** The local maximum of the third and fourth statements of the loop body *)
Lemma locMax_residual (alpha : real) (r : nat) (phi rhs temp : DArray) :
    Blitz.max
      (Blitz.slice
         (dOnDomain (eulerCN_d3_cc.core ts) (fun t b => Qcabs (t - b))
            (eulerCN_d3_cc.loopNest ts
               (fun r => eulerCN_d3_cc.jacobiDefect ts alpha r (phi r)) temp)
            rhs r)
         (eulerCN_d3_cc.core ts))
    = Blitz.max
        (map (fun c => Qcabs (Blitz.at_ (Spec.residual ts alpha r (phi r) (rhs r)) c))
             (Blitz.cells (coreDomain (mesh ts)))).
Proof.
    f_equal. unfold Blitz.slice. apply map_ext_in.
    intros [[i j] k] Hin. simpl.
    unfold dOnDomain, Blitz.onDomain.
    rewrite loopNest_pointwise. unfold eulerCN_d3_cc.core.
    rewrite (cells_inDomain _ _ _ _ Hin).
    now rewrite jacobiDefect_residual.
Qed.

  (** The loop body, in one equation *)
Lemma jacobi_step (u : eulerCN_d3_cc.Unknown) (fuel : nat) (iterCount : Z)
      (w : World) :
    eulerCN_d3_cc.jacobi ts u (S fuel) iterCount w
    = if Qcltb (snd (eulerCN_d3_cc.sweep ts u w))
               (cnTolerance (inputParams (mesh ts)))
      then Done tt (fst (eulerCN_d3_cc.sweep ts u w))
      else if (iterCount + 1 >? maxIterations ts)%Z
           then eulerCN_d3_cc.abort u (fst (eulerCN_d3_cc.sweep ts u w))
           else eulerCN_d3_cc.jacobi ts u fuel (iterCount + 1)
                  (fst (eulerCN_d3_cc.sweep ts u w)).
Proof.
    cbn [eulerCN_d3_cc.jacobi]. unfold bind.
    destruct (eulerCN_d3_cc.sweep ts u w) as [w' g]. cbn [fst snd].
    destruct (Qcltb g (cnTolerance (inputParams (mesh ts)))); [reflexivity|].
    destruct (iterCount + 1 >? maxIterations ts)%Z; reflexivity.
Qed.

End SweepSpec.

(** C1.  One sweep of [solveVx], [solveVy], [solveVz] (diffusion constant
    [nu]) or [solveT] ([kappa]), with every member written out.  The
    candidate [phiStar] is [(S (alpha dt/2) + rhs) / (1 + alpha dt (xix2 ihx2
    + ety2 ihy2 + ztz2 ihz2))] at every core cell, where [S] is the Laplacian
    without its centre term, and the scratch array elsewhere.  After the
    sweep the array of the unknown is [phiStar] with the wall conditions of
    that unknown imposed on it: for a velocity component, [V] is what
    [imposeVxBC] (or its sibling) returns for the vector field whose
    component was replaced by [phiStar]; for [T], the array is what the halo
    exchange and the wall objects of [imposeBCs] make of [phiStar].  The
    other component fields and the right-hand sides are as before, the
    boundary calls are recorded once, in order, and [gloMax] is the maximum
    over the ranks and the core cells of [|phi - (alpha dt/2) L phi - rhs|]
    for the new [phi], which the loop compares with [cnTolerance] to leave
    normally. *)
Theorem jacobi_sweep_spec
    (E : Collaborators) (ts : eulerCN_d3) (PLANAR : bool)
    (s : eulerCN_d3_cc.Solver) (w : World) :
  let alpha := match s with eulerCN_d3_cc.SolveT => kappa ts | _ => nu ts end in
  let core := coreDomain (mesh ts) in
  let Vx0 := Vfield.Vx (V w) in
  let Vy0 := Vfield.Vy (V w) in
  let Vz0 := Vfield.Vz (V w) in
  let phi : DArray :=
    match s with
    | eulerCN_d3_cc.SolveVx => Field.F Vx0
    | eulerCN_d3_cc.SolveVy => Field.F Vy0
    | eulerCN_d3_cc.SolveVz => Field.F Vz0
    | eulerCN_d3_cc.SolveT => Field.F (Sfield.F (T w))
    end in
  let rhs : DArray :=
    match s with
    | eulerCN_d3_cc.SolveVx => Plainvf.Vx (nseRHS w)
    | eulerCN_d3_cc.SolveVy => Plainvf.Vy (nseRHS w)
    | eulerCN_d3_cc.SolveVz => Plainvf.Vz (nseRHS w)
    | eulerCN_d3_cc.SolveT => Plainsf.F (tmpRHS w)
    end in
  let temp : DArray :=
    match s with
    | eulerCN_d3_cc.SolveVx => tempVx w
    | eulerCN_d3_cc.SolveVy => tempVy w
    | eulerCN_d3_cc.SolveVz => tempVz w
    | eulerCN_d3_cc.SolveT => tempT w
    end in
  let phiStar : DArray := fun r i j k =>
    if Blitz.inDomain core i j k
    then Spec.candidate ts alpha r (phi r) (rhs r) i j k
    else temp r i j k in
  let copied (f : Field.t) : Field.t := Field.mk phiStar (Field.fieldName f) in
  let V1 : Vfield.t :=
    match s with
    | eulerCN_d3_cc.SolveVx => V_imposeVBC E CVx (Vfield.mk (copied Vx0) Vy0 Vz0)
    | eulerCN_d3_cc.SolveVy => V_imposeVBC E CVy (Vfield.mk Vx0 (copied Vy0) Vz0)
    | eulerCN_d3_cc.SolveVz => V_imposeVBC E CVz (Vfield.mk Vx0 Vy0 (copied Vz0))
    | eulerCN_d3_cc.SolveT => V w
    end in
  let name := Sfield.fieldName (T w) in
  let bc (wl : Wall) (on : bool) (A : DArray) : DArray :=
    if on then bc_imposeBC E name wl A else A in
  let xOn := negb (xPer (inputParams (mesh ts))) in
  let yOn := negb PLANAR && negb (yPer (inputParams (mesh ts))) in
  let T1 : DArray :=
    match s with
    | eulerCN_d3_cc.SolveT =>
        bc Bot true (bc Top true (bc Bak yOn (bc Frn yOn (bc Rgt xOn (bc Lft xOn
          (mpi_syncData E (Field.fieldName (Sfield.F (T w))) phiStar))))))
    | _ => Field.F (Sfield.F (T w))
    end in
  let calls : Trace :=
    match s with
    | eulerCN_d3_cc.SolveVx => EvImposeVBC CVx :: nil
    | eulerCN_d3_cc.SolveVy => EvImposeVBC CVy :: nil
    | eulerCN_d3_cc.SolveVz => EvImposeVBC CVz :: nil
    | eulerCN_d3_cc.SolveT =>
        (EvSyncData (Field.fieldName (Sfield.F (T w))) :: nil) ++
        (if xOn then EvImposeBC name Lft :: EvImposeBC name Rgt :: nil else nil) ++
        (if yOn then EvImposeBC name Frn :: EvImposeBC name Bak :: nil else nil) ++
        (EvImposeBC name Top :: EvImposeBC name Bot :: nil)
    end in
  let phi1 : DArray :=
    match s with
    | eulerCN_d3_cc.SolveVx => Field.F (Vfield.Vx V1)
    | eulerCN_d3_cc.SolveVy => Field.F (Vfield.Vy V1)
    | eulerCN_d3_cc.SolveVz => Field.F (Vfield.Vz V1)
    | eulerCN_d3_cc.SolveT => T1
    end in
  let u := eulerCN_d3_cc.unknownOf E ts PLANAR s in
  let res := eulerCN_d3_cc.sweep ts u w in
  (forall r i j k,
      Spec.laplacian ts r (phi r) i j k
      = (Spec.neighbourSum ts r (phi r) i j k
         - two * phi r i j k * Spec.diagonal ts r i j k)%Qc) /\
  V (fst res) = V1 /\
  Field.F (Sfield.F (T (fst res))) = T1 /\
  nseRHS (fst res) = nseRHS w /\ tmpRHS (fst res) = tmpRHS w /\
  trace (fst res) = trace w ++ calls /\
  snd res =
    MPI.Allreduce_MAX (nProc (mesh ts)) (fun r =>
      Blitz.max (map (fun c => Qcabs (Blitz.at_ (Spec.residual ts alpha r (phi1 r) (rhs r)) c))
                     (Blitz.cells core))) /\
  (forall fuel iterCount,
      eulerCN_d3_cc.jacobi ts u (S fuel) iterCount w
      = if Qcltb (snd res) (cnTolerance (inputParams (mesh ts)))
        then Done tt (fst res)
        else if (iterCount + 1 >? maxIterations ts)%Z
             then eulerCN_d3_cc.abort u (fst res)
             else eulerCN_d3_cc.jacobi ts u fuel (iterCount + 1) (fst res)).
Proof.
  cbv zeta.
  split; [intros; apply laplacian_neighbourSum|].
  split; [|split; [|split; [|split; [|split; [|split]]]]].
  - destruct s; unfold eulerCN_d3_cc.sweep, eulerCN_d3_cc.imposeVBC;
      cbn -[sfield_cc.imposeBCs]; rewrite ?runOn_eq; cbn -[sfield_cc.imposeBCs];
      rewrite ?firstLoop_candidate; reflexivity.
  - destruct s; unfold eulerCN_d3_cc.sweep, eulerCN_d3_cc.imposeVBC;
      cbn -[sfield_cc.imposeBCs]; rewrite ?runOn_eq; cbn -[sfield_cc.imposeBCs];
      try reflexivity.
    rewrite imposeBCs_array, firstLoop_candidate. reflexivity.
  - destruct s; unfold eulerCN_d3_cc.sweep, eulerCN_d3_cc.imposeVBC;
      cbn -[sfield_cc.imposeBCs]; rewrite ?runOn_eq; reflexivity.
  - destruct s; unfold eulerCN_d3_cc.sweep, eulerCN_d3_cc.imposeVBC;
      cbn -[sfield_cc.imposeBCs]; rewrite ?runOn_eq; reflexivity.
  - destruct s; unfold eulerCN_d3_cc.sweep, eulerCN_d3_cc.imposeVBC;
      cbn -[sfield_cc.imposeBCs]; rewrite ?runOn_eq; cbn -[sfield_cc.imposeBCs];
      try reflexivity.
    rewrite imposeBCs_trace. reflexivity.
  - destruct s; unfold eulerCN_d3_cc.sweep, eulerCN_d3_cc.imposeVBC;
      cbn -[sfield_cc.imposeBCs]; rewrite ?runOn_eq; cbn -[sfield_cc.imposeBCs];
      apply Allreduce_MAX_ext; intros r;
      rewrite ?imposeBCs_array; rewrite firstLoop_candidate;
      apply (locMax_residual ts).
  - intros fuel iterCount. apply jacobi_step.
Qed.

(** ** The loop of a solver *)

Section JacobiLoop.

Variable ts : eulerCN_d3.
Variable u : eulerCN_d3_cc.Unknown.

Lemma abort_eq (w : World) :
    eulerCN_d3_cc.abort u w = Exited 0 (aborted u w).
Proof. reflexivity. Qed.

Lemma after_sweeps_S (n : nat) (w : World) :
    after_sweeps ts u (S n) w
    = after_sweeps ts u n (fst (eulerCN_d3_cc.sweep ts u w)).
Proof. unfold after_sweeps. apply Nat.iter_succ_r. Qed.

Lemma below_tolerance_S (k : nat) (w : World) :
    (1 <= k)%nat ->
    below_tolerance ts u (S k) w
    = below_tolerance ts u k (fst (eulerCN_d3_cc.sweep ts u w)).
Proof.
    intros Hk. unfold below_tolerance, gloMax_of_sweep.
    replace (S k - 1)%nat with (S (k - 1)) by lia.
    now rewrite after_sweeps_S.
Qed.

Lemma below_tolerance_1 (w : World) :
    below_tolerance ts u 1 w
    = Qcltb (snd (eulerCN_d3_cc.sweep ts u w))
            (cnTolerance (inputParams (mesh ts))).
Proof. reflexivity. Qed.

  (** The loop entered with [iterCount] runs the body until the first pass
      whose [gloMax] is below the tolerance, and at most
      [maxIterations - iterCount + 1] times (once if that is not positive);
      if no pass gets below, it takes the abort branch after the last. *)
Lemma jacobi_run (fuel : nat) :
    forall (iterCount : Z) (w : World),
      let N := S (Z.to_nat (maxIterations ts - iterCount)) in
      (N <= fuel)%nat ->
      (exists k, (1 <= k <= N)%nat /\
                 below_tolerance ts u k w = true /\
                 (forall j, (1 <= j < k)%nat -> below_tolerance ts u j w = false) /\
                 eulerCN_d3_cc.jacobi ts u fuel iterCount w
                 = Done tt (after_sweeps ts u k w))
      \/
      ((forall j, (1 <= j <= N)%nat -> below_tolerance ts u j w = false) /\
       eulerCN_d3_cc.jacobi ts u fuel iterCount w
       = Exited 0 (aborted u (after_sweeps ts u N w))).
Proof.
    induction fuel as [|fuel IH]; intros iterCount w N Hfuel.
    - subst N. lia.
    - rewrite jacobi_step, <- below_tolerance_1.
      destruct (below_tolerance ts u 1 w) eqn:B1.
      + left. exists 1%nat. repeat split; try lia. exact B1.
      + destruct (iterCount + 1 >? maxIterations ts)%Z eqn:Hcap.
        * right. apply Z.gtb_lt in Hcap.
          assert (HN : N = 1%nat) by (subst N; lia).
          rewrite HN. split.
          -- intros j Hj. now replace j with 1%nat by lia.
          -- apply abort_eq.
        * assert (Hle : (iterCount + 1 <= maxIterations ts)%Z).
          { destruct (Z.gtb_spec (iterCount + 1) (maxIterations ts));
              [discriminate | lia]. }
          assert (HN : N = S (S (Z.to_nat (maxIterations ts - (iterCount + 1)))))
            by (subst N; lia).
          destruct (IH (iterCount + 1)%Z (fst (eulerCN_d3_cc.sweep ts u w)))
            as [(k & Hk & Hb & Hfirst & Hres) | (Hall & Hres)]; [lia | |].
          -- left. exists (S k). repeat split; try lia.
             ++ rewrite below_tolerance_S by lia. exact Hb.
             ++ intros j Hj. destruct j as [|[|j]]; [lia | exact B1 |].
                rewrite below_tolerance_S by lia. apply Hfirst. lia.
             ++ rewrite Hres. now rewrite after_sweeps_S.
          -- right. split.
             ++ intros j Hj. destruct j as [|[|j]]; [lia | exact B1 |].
                rewrite below_tolerance_S by lia. apply Hall. lia.
             ++ rewrite Hres, HN. now rewrite (after_sweeps_S (S _)).
Qed.

  (** A solver never runs out of the fuel it is given. *)
Lemma solve_run (w : World) :
    let N := S (Z.to_nat (maxIterations ts)) in
    (exists k, (1 <= k <= N)%nat /\
               below_tolerance ts u k w = true /\
               (forall j, (1 <= j < k)%nat -> below_tolerance ts u j w = false) /\
               eulerCN_d3_cc.solve ts u w = Done tt (after_sweeps ts u k w))
    \/
    ((forall j, (1 <= j <= N)%nat -> below_tolerance ts u j w = false) /\
     eulerCN_d3_cc.solve ts u w = Exited 0 (aborted u (after_sweeps ts u N w))).
Proof.
    unfold eulerCN_d3_cc.solve.
    pose proof (jacobi_run (S (Z.to_nat (maxIterations ts))) 0 w) as H.
    rewrite Z.sub_0_r in H. apply H. lia.
Qed.

End JacobiLoop.

(** ** What a sweep leaves alone *)

Section SweepFrame.

Variable E : Collaborators.
Variable ts : eulerCN_d3.
Variable PLANAR : bool.

Lemma occurrences_app (e : Event) (t1 t2 : Trace) :
    occurrences e (t1 ++ t2) = (occurrences e t1 + occurrences e t2)%nat.
Proof. unfold occurrences. now rewrite filter_app, length_app. Qed.

Lemma occurrences_boundary (e : Event) (tr : Trace) :
    isBoundaryEvent e = false ->
    forallb isBoundaryEvent tr = true ->
    occurrences e tr = 0%nat.
Proof.
    intros He. induction tr as [|x tr IH]; simpl; [reflexivity|].
    intros H. apply andb_prop in H as [Hx Htr].
    unfold occurrences in *. simpl.
    destruct (Event_eqb e x) eqn:Eq; [|now apply IH].
    exfalso. destruct e, x; simpl in *; try discriminate.
    all: destruct c; discriminate.
Qed.

Lemma imposeBCs_events_boundary (this : Sfield.t) :
    forallb isBoundaryEvent (imposeBCs_events (mesh ts) PLANAR this) = true.
Proof.
    unfold imposeBCs_events.
    destruct (xPer _), (yPer _), PLANAR; reflexivity.
Qed.

Lemma imposeBCs_events_Top (this : Sfield.t) :
    occurrences (EvImposeBC (Sfield.fieldName this) Top)
                (imposeBCs_events (mesh ts) PLANAR this) = 1%nat.
Proof.
    unfold imposeBCs_events, occurrences.
    destruct (xPer _), (yPer _), PLANAR; simpl;
      rewrite String.eqb_refl; simpl; reflexivity.
Qed.

Lemma sweep_trace (s : eulerCN_d3_cc.Solver) (w : World) :
    let w' := fst (eulerCN_d3_cc.sweep ts (eulerCN_d3_cc.unknownOf E ts PLANAR s) w) in
    exists tr, trace w' = trace w ++ tr /\
               forallb isBoundaryEvent tr = true /\
               occurrences (sweepMark s w) tr = 1%nat.
Proof.
    destruct s; unfold eulerCN_d3_cc.sweep, eulerCN_d3_cc.imposeVBC;
      cbn -[sfield_cc.imposeBCs]; rewrite ?runOn_eq; cbn -[sfield_cc.imposeBCs].
    1-3: eexists; split; [reflexivity | split; reflexivity].
    rewrite imposeBCs_trace. eexists. split; [reflexivity|]. split.
    - apply imposeBCs_events_boundary.
    - apply (imposeBCs_events_Top (Sfield.setF _ (T w))).
Qed.

Lemma sweep_frame (s : eulerCN_d3_cc.Solver) (w : World) :
    let w' := fst (eulerCN_d3_cc.sweep ts (eulerCN_d3_cc.unknownOf E ts PLANAR s) w) in
    stdout w' = stdout w /\ subgridEnergy w' = subgridEnergy w /\
    sweepMark s w' = sweepMark s w.
Proof.
    destruct s; unfold eulerCN_d3_cc.sweep, eulerCN_d3_cc.imposeVBC;
      cbn -[sfield_cc.imposeBCs]; rewrite ?runOn_eq; cbn -[sfield_cc.imposeBCs];
      repeat split.
    now rewrite imposeBCs_fieldName.
Qed.

End SweepFrame.

Section RunFrame.

Variable E : Collaborators.
Variable ts : eulerCN_d3.
Variable PLANAR : bool.
Variable s : eulerCN_d3_cc.Solver.

Let u := eulerCN_d3_cc.unknownOf E ts PLANAR s.

Lemma after_sweeps_frame (k : nat) (w : World) :
    stdout (after_sweeps ts u k w) = stdout w /\
    subgridEnergy (after_sweeps ts u k w) = subgridEnergy w /\
    sweepMark s (after_sweeps ts u k w) = sweepMark s w.
Proof.
    induction k as [|k IH]; [repeat split|].
    change (after_sweeps ts u (S k) w)
      with (fst (eulerCN_d3_cc.sweep ts u (after_sweeps ts u k w))).
    destruct IH as (I1 & I2 & I3).
    destruct (sweep_frame E ts PLANAR s (after_sweeps ts u k w)) as (S1 & S2 & S3).
    fold u in S1, S2, S3.
    rewrite S1, S2, S3. now repeat split.
Qed.

Lemma after_sweeps_trace (k : nat) (w : World) :
    exists tr, trace (after_sweeps ts u k w) = trace w ++ tr /\
               forallb isBoundaryEvent tr = true /\
               occurrences (sweepMark s w) tr = k.
Proof.
    induction k as [|k IH].
    - exists nil. cbn. rewrite app_nil_r. repeat split.
    - destruct IH as (tr & Htr & Hb & Hocc).
      destruct (sweep_trace E ts PLANAR s (after_sweeps ts u k w))
        as (tr' & Htr' & Hb' & Hocc').
      fold u in Htr'.
      destruct (after_sweeps_frame k w) as (_ & _ & Hmark).
      rewrite Hmark in Hocc'.
      exists (tr ++ tr'). split; [|split].
      + change (after_sweeps ts u (S k) w)
          with (fst (eulerCN_d3_cc.sweep ts u (after_sweeps ts u k w))).
        rewrite Htr', Htr. now rewrite app_assoc.
      + rewrite forallb_app. now rewrite Hb, Hb'.
      + rewrite occurrences_app. lia.
Qed.

Lemma aborted_stdout (w : World) :
    stdout (aborted u w) 0%nat
    = stdout w 0%nat ++
      ("ERROR: Jacobi iterations for solution of " ++ eulerCN_d3_cc.u_name u ++
       " not converging. Aborting")%string :: nil
    /\ forall r, r <> 0%nat -> stdout (aborted u w) r = stdout w r.
Proof.
    split; [reflexivity|]. intros r Hr. cbn.
    destruct r; [contradiction | reflexivity].
Qed.

Lemma aborted_trace (w : World) :
    trace (aborted u w) = trace w ++ EvFinalize :: nil.
Proof. reflexivity. Qed.

  (** The two ways a solver ends, told apart by the passes *)
Lemma solve_Done_iff (w w' : World) :
    eulerCN_d3_cc.solve ts u w = Done tt w' <->
    exists k, (1 <= k <= S (Z.to_nat (maxIterations ts)))%nat /\
              below_tolerance ts u k w = true /\
              (forall j, (1 <= j < k)%nat -> below_tolerance ts u j w = false) /\
              w' = after_sweeps ts u k w.
Proof.
    destruct (solve_run ts u w) as [(k & Hk & Hb & Hfirst & Hres) | (Hall & Hres)].
    - split.
      + intros H. rewrite Hres in H. inversion H. exists k. now repeat split.
      + intros (k' & Hk' & Hb' & Hfirst' & ->). rewrite Hres.
        assert (k' = k); [|now subst].
        destruct (Nat.lt_trichotomy k' k) as [Hlt | [Heq | Hgt]]; [|exact Heq|].
        * rewrite Hfirst in Hb' by lia. discriminate.
        * rewrite Hfirst' in Hb by lia. discriminate.
    - split.
      + intros H. rewrite Hres in H. discriminate.
      + intros (k' & Hk' & Hb' & _). rewrite Hall in Hb' by lia. discriminate.
Qed.

Lemma solve_Exited_iff (st : Z) (w w' : World) :
    eulerCN_d3_cc.solve ts u w = Exited st w' <->
    (forall j, (1 <= j <= S (Z.to_nat (maxIterations ts)))%nat ->
               below_tolerance ts u j w = false) /\
    st = 0%Z /\
    w' = aborted u (after_sweeps ts u (S (Z.to_nat (maxIterations ts))) w).
Proof.
    destruct (solve_run ts u w) as [(k & Hk & Hb & Hfirst & Hres) | (Hall & Hres)].
    - split.
      + intros H. rewrite Hres in H. discriminate.
      + intros (Hall & _). rewrite Hall in Hb by lia. discriminate.
    - split.
      + intros H. rewrite Hres in H. inversion H. now repeat split.
      + intros (_ & -> & ->). exact Hres.
Qed.

Lemma solve_fuel (w : World) : eulerCN_d3_cc.solve ts u w <> OutOfFuel.
Proof.
    destruct (solve_run ts u w) as [(k & _ & _ & _ & Hres) | (_ & Hres)];
      rewrite Hres; discriminate.
Qed.

End RunFrame.

(** C2, amended.  For each of the four solvers: the loop is left normally
    exactly at the first pass whose all-reduced maximum residual is below
    [cnTolerance]; if none of the first [maxIterations + 1] passes gets
    below, the solver takes the abort branch, where rank 0 and no other rank
    prints the error message once, [MPI_Finalize] is called and the process
    exits with status 0, the status of a successful run, not with an error
    status.  One of the two always happens. *)
Theorem solver_exit
    (E : Collaborators) (ts : eulerCN_d3) (PLANAR : bool)
    (s : eulerCN_d3_cc.Solver) (w : World) :
  let u := eulerCN_d3_cc.unknownOf E ts PLANAR s in
  let N := S (Z.to_nat (maxIterations ts)) in
  let res := eulerCN_d3_cc.solve ts u w in
  let msg := ("ERROR: Jacobi iterations for solution of " ++
              eulerCN_d3_cc.u_name u ++ " not converging. Aborting")%string in
  res <> OutOfFuel /\
  (forall w', res = Done tt w' <->
     exists k, (1 <= k <= N)%nat /\
               below_tolerance ts u k w = true /\
               (forall j, (1 <= j < k)%nat -> below_tolerance ts u j w = false) /\
               w' = after_sweeps ts u k w) /\
  (forall st w', res = Exited st w' <->
     (forall j, (1 <= j <= N)%nat -> below_tolerance ts u j w = false) /\
     st = 0%Z /\ w' = aborted u (after_sweeps ts u N w)) /\
  (forall st w', res = Exited st w' ->
     stdout w' 0%nat = stdout w 0%nat ++ msg :: nil /\
     (forall r, r <> 0%nat -> stdout w' r = stdout w r) /\
     occurrences EvFinalize (trace w')
     = S (occurrences EvFinalize (trace w))).
Proof.
  cbv zeta. split; [apply solve_fuel|].
  split; [intros; apply solve_Done_iff|].
  split; [intros; apply solve_Exited_iff|].
  intros st w' H. apply solve_Exited_iff in H as (_ & _ & ->).
  destruct (aborted_stdout E ts PLANAR s
              (after_sweeps ts (eulerCN_d3_cc.unknownOf E ts PLANAR s)
                 (S (Z.to_nat (maxIterations ts))) w)) as (H0 & Hr).
  destruct (after_sweeps_frame E ts PLANAR s (S (Z.to_nat (maxIterations ts))) w)
    as (Hout & _).
  destruct (after_sweeps_trace E ts PLANAR s (S (Z.to_nat (maxIterations ts))) w)
    as (tr & Htr & Hb & _).
  split; [|split].
  - rewrite H0. now rewrite Hout.
  - intros r Hne. rewrite Hr by exact Hne. now rewrite Hout.
  - rewrite aborted_trace, Htr, !occurrences_app.
    rewrite (occurrences_boundary EvFinalize tr) by (reflexivity || exact Hb).
    cbn. lia.
Qed.

(** C9, amended.  Every call of a solver runs the loop body at least once
    before the first test, so the field it returns is the field as left by
    one of its sweeps, whatever the field held on entry; the counter is
    incremented after a failed test only, and the abort branch is taken after
    [maxIterations + 1] sweeps ([1] sweep if [maxIterations] is negative). *)
Theorem solver_sweep_count
    (E : Collaborators) (ts : eulerCN_d3) (PLANAR : bool)
    (s : eulerCN_d3_cc.Solver) (w : World) :
  let u := eulerCN_d3_cc.unknownOf E ts PLANAR s in
  let res := eulerCN_d3_cc.solve ts u w in
  let sweeps (w' : World) : nat :=
    (occurrences (sweepMark s w) (trace w')
     - occurrences (sweepMark s w) (trace w))%nat in
  (forall w', res = Done tt w' ->
     exists k, (1 <= k)%nat /\ sweeps w' = k /\
               w' = after_sweeps ts u k w /\
               eulerCN_d3_cc.u_get u w'
               = eulerCN_d3_cc.u_get u
                   (fst (eulerCN_d3_cc.sweep ts u (after_sweeps ts u (k - 1) w)))) /\
  (forall st w', res = Exited st w' ->
     Z.of_nat (sweeps w') = (Z.max 0 (maxIterations ts) + 1)%Z).
Proof.
  cbv zeta. split.
  - intros w' H. apply solve_Done_iff in H as (k & Hk & _ & _ & ->).
    exists k. split; [lia|].
    destruct (after_sweeps_trace E ts PLANAR s k w) as (tr & Htr & _ & Hocc).
    split; [|split].
    + rewrite Htr, occurrences_app. lia.
    + reflexivity.
    + destruct k as [|k]; [lia|].
      now replace (S k - 1)%nat with k by lia.
  - intros st w' H. apply solve_Exited_iff in H as (_ & _ & ->).
    destruct (after_sweeps_trace E ts PLANAR s (S (Z.to_nat (maxIterations ts))) w)
      as (tr & Htr & _ & Hocc).
    rewrite aborted_trace, Htr, !occurrences_app.
    assert (Hfin : occurrences (sweepMark s w) (EvFinalize :: nil) = 0%nat)
      by (now destruct s).
    rewrite Hfin, Hocc. lia.
Qed.

(** ** The iteration cap set by the constructor *)

Section ExpBounds.

Local Open Scope R_scope.

Lemma IZR_div_le (a b : Z) : (0 < b)%Z -> IZR (a / b) <= IZR a / IZR b.
Proof.
    intros Hb.
    assert (Hb' : 0 < IZR b) by now apply IZR_lt.
    apply Rmult_le_reg_r with (IZR b); [exact Hb'|].
    unfold Rdiv. rewrite Rmult_assoc, Rinv_l, Rmult_1_r by lra.
    rewrite <- mult_IZR. apply IZR_le.
    rewrite Z.mul_comm. now apply Z.mul_div_le.
Qed.

Lemma squarings_nonneg (D : Z) (m : nat) :
    forall a, (0 < D)%Z -> (0 <= a)%Z -> (0 <= ExpBound.squarings D m a)%Z.
Proof.
    induction m as [|m IH]; intros a HD Ha; simpl; [exact Ha|].
    apply IH; [exact HD|]. apply Z.div_pos; nia.
Qed.

Lemma squarings_exp (D : Z) (m : nat) :
    forall (a : Z) (y : R),
      (0 < D)%Z -> (0 <= a)%Z ->
      IZR a / IZR D <= exp y ->
      IZR (ExpBound.squarings D m a) / IZR D <= exp (2 ^ m * y).
Proof.
    induction m as [|m IH]; intros a y HD Ha Hy; simpl.
    - now rewrite Rmult_1_l.
    - replace (2 * 2 ^ m * y) with (2 ^ m * (y + y)) by ring.
      apply IH; [exact HD | apply Z.div_pos; nia |].
      rewrite exp_plus.
      assert (HD' : 0 < IZR D) by now apply IZR_lt.
      assert (Ha' : 0 <= IZR a / IZR D).
      { apply Rmult_le_pos; [now apply IZR_le|].
        apply Rlt_le. now apply Rinv_0_lt_compat. }
      apply Rle_trans with (IZR a / IZR D * (IZR a / IZR D)).
      + apply Rle_trans with (IZR (a * a) / IZR D / IZR D).
        * apply Rmult_le_compat_r; [apply Rlt_le; now apply Rinv_0_lt_compat|].
          now apply IZR_div_le.
        * rewrite mult_IZR. right. field. lra.
      + apply Rmult_le_compat; assumption.
Qed.

  (** [lower D p q m / D <= exp (p/q)] *)
Lemma lower_exp (D p q : Z) (m : nat) :
    (0 < D)%Z -> (0 < q)%Z -> (0 <= q * 2 ^ Z.of_nat m + p)%Z ->
    IZR (ExpBound.lower D p q m) / IZR D <= exp (IZR p / IZR q).
Proof.
    intros HD Hq Hp.
    assert (Hpow : (0 < 2 ^ Z.of_nat m)%Z) by (apply Z.pow_pos_nonneg; lia).
    assert (Hden : (0 < q * 2 ^ Z.of_nat m)%Z) by nia.
    assert (HD' : 0 < IZR D) by now apply IZR_lt.
    assert (Hq' : 0 < IZR q) by now apply IZR_lt.
    assert (Hpow' : 0 < 2 ^ m) by (apply pow_lt; lra).
    replace (IZR p / IZR q) with (2 ^ m * (IZR p / (IZR q * 2 ^ m)))
      by (field; split; lra).
    unfold ExpBound.lower. apply squarings_exp; [exact HD | |].
    - unfold ExpBound.start. apply Z.div_pos; nia.
    - eapply Rle_trans; [|apply exp_ineq1_le].
      unfold ExpBound.start.
      apply Rmult_le_reg_r with (IZR D); [exact HD'|].
      unfold Rdiv at 1. rewrite Rmult_assoc, Rinv_l, Rmult_1_r by lra.
      eapply Rle_trans; [apply IZR_div_le; exact Hden|].
      rewrite !mult_IZR, plus_IZR, mult_IZR.
      rewrite <- (pow_IZR 2 m).
      right. field. split; lra.
Qed.

End ExpBounds.

Section IterationCap.

Local Open Scope R_scope.

  (** [64 < exp 4.1601] and [exp 4.1409 < 64] *)
Lemma ln64_upper : ln 64 < 41601 / 10000.
Proof.
    apply exp_lt_inv. rewrite exp_ln by lra.
    pose proof (lower_exp (2 ^ 60) 41601 10000 13) as H.
    eapply Rlt_le_trans; [|apply H; lia].
    assert (HD : 0 < IZR (2 ^ 60)) by (apply IZR_lt; lia).
    apply Rmult_lt_reg_r with (IZR (2 ^ 60)); [exact HD|].
    unfold Rdiv. rewrite Rmult_assoc, Rinv_l, Rmult_1_r by lra.
    rewrite <- mult_IZR. apply IZR_lt. vm_compute. reflexivity.
Qed.

Lemma ln64_lower : 41409 / 10000 < ln 64.
Proof.
    apply exp_lt_inv. rewrite exp_ln by lra.
    pose proof (lower_exp (2 ^ 60) (-41409) 10000 9) as H.
    assert (HD : 0 < IZR (2 ^ 60)) by (apply IZR_lt; lia).
    assert (HL : IZR (2 ^ 60) < 64 * IZR (ExpBound.lower (2 ^ 60) (-41409) 10000 9)).
    { rewrite <- mult_IZR. apply IZR_lt. vm_compute. reflexivity. }
    specialize (H ltac:(lia) ltac:(lia) ltac:(lia)).
    set (L := IZR (ExpBound.lower (2 ^ 60) (-41409) 10000 9)) in *.
    set (D := IZR (2 ^ 60)) in *.
    assert (Hprod : exp (41409 / 10000) * exp (IZR (-41409) / 10000) = 1).
    { rewrite <- exp_plus.
      replace (41409 / 10000 + IZR (-41409) / 10000) with 0 by (simpl; lra).
      apply exp_0. }
    assert (Hpos : 0 < exp (41409 / 10000)) by apply exp_pos.
    assert (HLD : / 64 < L / D).
    { apply Rmult_lt_reg_r with D; [exact HD|].
      unfold Rdiv. rewrite Rmult_assoc, Rinv_l, Rmult_1_r by lra. lra. }
    assert (Hneg : / 64 < exp (IZR (-41409) / 10000)) by lra.
    nra.
Qed.

Lemma cube_ln64 : 71 < ln 64 ^ 3 < 72.
Proof.
    pose proof ln64_lower as Hl. pose proof ln64_upper as Hu.
    set (x := ln 64) in *.
    assert (H0 : 0 < x) by lra.
    split.
    - apply Rlt_trans with ((41409 / 10000) ^ 3); [lra|].
      simpl. rewrite !Rmult_1_r.
      apply Rmult_gt_0_lt_compat; try lra.
      apply Rmult_gt_0_lt_compat; lra.
    - apply Rlt_trans with ((41601 / 10000) ^ 3); [|lra].
      simpl. rewrite !Rmult_1_r.
      apply Rmult_gt_0_lt_compat; try lra.
      + apply Rmult_lt_0_compat; lra.
      + apply Rmult_gt_0_lt_compat; lra.
Qed.

Lemma Int_part_between (x : R) (z : Z) :
    IZR z <= x < IZR z + 1 -> Int_part x = z.
Proof.
    intros [H1 H2]. unfold Int_part.
    assert (Hup : (z + 1)%Z = up x).
    { apply tech_up; rewrite plus_IZR; lra. }
    rewrite <- Hup. lia.
Qed.

Lemma ln_nonneg (x : R) : 1 <= x -> 0 <= ln x.
Proof.
    intros [H|H].
    - rewrite <- ln_1. apply Rlt_le. apply ln_increasing; lra.
    - subst. rewrite ln_1. lra.
Qed.

End IterationCap.

Lemma int_wrap_id (z : Z) :
  (-2147483648 <= z < 2147483648)%Z -> eulerCN_d3_ctor.int_wrap z = z.
Proof.
  intros Hz. unfold eulerCN_d3_ctor.int_wrap.
  rewrite Z.mod_small by lia. lia.
Qed.

Lemma corePoints_in_range (grd : grid) :
  let Nx := Blitz.tv_get (coreSize grd) 0 in
  let Ny := Blitz.tv_get (coreSize grd) 1 in
  let Nz := Blitz.tv_get (coreSize grd) 2 in
  (1 <= Nx)%Z -> (1 <= Ny)%Z -> (1 <= Nz)%Z ->
  (Nx * Ny * Nz <= 2147483647)%Z ->
  eulerCN_d3_ctor.corePoints grd = (Nx * Ny * Nz)%Z /\ (1 <= Nx * Ny * Nz)%Z.
Proof.
  intros Nx Ny Nz Hx Hy Hz Hmax.
  unfold eulerCN_d3_ctor.corePoints, eulerCN_d3_ctor.int_mul. fold Nx Ny Nz.
  assert (Hxy : (1 <= Nx * Ny <= Nx * Ny * Nz)%Z) by nia.
  rewrite (int_wrap_id (Nx * Ny)) by lia.
  rewrite int_wrap_id by lia. split; [reflexivity | lia].
Qed.

(** Beyond the range of [int] the product wraps: a core of
    2048 x 1024 x 1024 cells gives a negative number. *)
Remark corePoints_wraps (grd : grid) :
  coreSize grd = (2048, 1024, 1024)%Z ->
  eulerCN_d3_ctor.corePoints grd = (-2147483648)%Z.
Proof.
  intros H. unfold eulerCN_d3_ctor.corePoints. rewrite H. reflexivity.
Qed.

(** C3, amended.  For a core of at least one cell in each direction whose
    number of cells [Nx Ny Nz] fits an [int], the constructor sets
    [maxIterations] to [(log (Nx Ny Nz))^3] with its fraction dropped: the
    greatest integer not above it, which is not negative. *)
Theorem maxIterations_truncates
    (grd : grid) (sTime step visc diff : real) :
  let Nx := Blitz.tv_get (coreSize grd) 0 in
  let Ny := Blitz.tv_get (coreSize grd) 1 in
  let Nz := Blitz.tv_get (coreSize grd) 2 in
  (1 <= Nx)%Z -> (1 <= Ny)%Z -> (1 <= Nz)%Z ->
  (Nx * Ny * Nz <= 2147483647)%Z ->
  let m := maxIterations (eulerCN_d3_ctor.constructor grd sTime step visc diff) in
  let v := (ln (IZR (Nx * Ny * Nz)) ^ 3)%R in
  (0 <= m)%Z /\ (IZR m <= v < IZR m + 1)%R.
Proof.
  intros Nx Ny Nz Hx Hy Hz Hmax m v.
  destruct (corePoints_in_range grd Hx Hy Hz Hmax) as [Hcp HN].
  fold Nx Ny Nz in Hcp, HN.
  assert (Hln : (0 <= ln (IZR (Nx * Ny * Nz)))%R).
  { apply ln_nonneg. now apply IZR_le. }
  assert (Hv : (0 <= v)%R).
  { subst v. apply pow_le. exact Hln. }
  assert (Hm : m = Int_part v).
  { subst m. unfold eulerCN_d3_ctor.constructor. cbn [maxIterations].
    unfold eulerCN_d3_ctor.maxIterations_of, eulerCN_d3_ctor.int_of_double.
    rewrite Hcp. fold v. destruct (Rle_dec 0 v); [reflexivity | contradiction]. }
  destruct (base_Int_part v) as [B1 B2]. rewrite Hm.
  split; [|split; lra].
  apply le_IZR. apply Rnot_lt_le. intros Hneg.
  assert (IZR (Int_part v) <= -1)%R.
  { replace (-1)%R with (IZR (-1)) by reflexivity. apply IZR_le.
    apply lt_IZR in Hneg. lia. }
  lra.
Qed.

(** The cap of a 4 x 4 x 4 core is 71, and [(log 64)^3] rounded up is 72. *)
Lemma maxIterations_not_ceiling :
  let m := maxIterations
             (eulerCN_d3_ctor.constructor grid444 0%Qc 0%Qc 0%Qc 0%Qc) in
  m = 71%Z /\ ceiling (ln (IZR (4 * 4 * 4)) ^ 3) = 72%Z /\
  m <> ceiling (ln (IZR (4 * 4 * 4)) ^ 3).
Proof.
  cbv zeta.
  pose proof cube_ln64 as [Hl Hu].
  assert (Hm : maxIterations
                 (eulerCN_d3_ctor.constructor grid444 0%Qc 0%Qc 0%Qc 0%Qc) = 71%Z).
  { unfold eulerCN_d3_ctor.constructor. cbn [maxIterations].
    unfold eulerCN_d3_ctor.maxIterations_of, eulerCN_d3_ctor.int_of_double.
    change (IZR (eulerCN_d3_ctor.corePoints grid444)) with 64%R.
    destruct (Rle_dec 0 (ln 64 ^ 3)) as [_|Hn]; [|exfalso; apply Hn; lra].
    apply Int_part_between. simpl (IZR 71). lra. }
  assert (Hc : ceiling (ln (IZR (4 * 4 * 4)) ^ 3) = 72%Z).
  { unfold ceiling. change (IZR (4 * 4 * 4)) with 64%R.
    rewrite (Int_part_between (- ln 64 ^ 3) (-72)); [reflexivity|].
    change (IZR (-72)) with (-72)%R. lra. }
  rewrite Hm, Hc. repeat split. discriminate.
Qed.

(** ** Rules for programs *)

Section Rules.

Context {A B : Type}.

Lemma wp_bind (c : M A) (k : A -> M B) Q X w :
    wp c (fun a w' => wp (k a) Q X w') X w -> wp (bind c k) Q X w.
Proof.
    unfold wp, bind. destruct (c w) as [a w'| st w'|]; auto.
Qed.

Lemma wp_mono (c : M A) (Q Q' : A -> World -> Prop) (X X' : World -> Prop) w :
    wp c Q X w ->
    (forall a w', Q a w' -> Q' a w') -> (forall w', X w' -> X' w') ->
    wp c Q' X' w.
Proof.
    unfold wp. destruct (c w) as [a w'| st w'|]; auto.
Qed.

Lemma wp_result (c : M A) Q X w :
    wp c Q X w ->
    exists w', result_world (c w) = Some w' /\
               ((exists a, c w = Done a w' /\ Q a w') \/
                (exists st, c w = Exited st w' /\ X w')).
Proof.
    unfold wp. destruct (c w) as [a w'| st w'|]; intros H.
    - exists w'. split; [reflexivity|]. left. now exists a.
    - exists w'. split; [reflexivity|]. right. now exists st.
    - contradiction.
Qed.

End Rules.

Section KeepRules.

Variable I : World -> Prop.

Lemma keeps_bind {A B : Type} (c : M A) (k : A -> M B) :
    keeps I c -> (forall a, keeps I (k a)) -> keeps I (bind c k).
Proof.
    intros Hc Hk w Hw. apply wp_bind.
    eapply wp_mono; [apply Hc, Hw | | auto].
    intros a w' Hw'. now apply Hk.
Qed.

Lemma keeps_ret {A : Type} (a : A) : keeps I (ret a).
Proof. intros w Hw. exact Hw. Qed.

Lemma keeps_modify (f : World -> World) :
    (forall w, I w -> I (f w)) -> keeps I (modify f).
Proof. intros H w Hw. now apply H. Qed.

Lemma keeps_whenM (b : bool) (c : M unit) :
    keeps I c -> keeps I (whenM b c).
Proof. intros H. destruct b; [exact H | apply keeps_ret]. Qed.

Lemma keeps_solve (ts : eulerCN_d3) (u : eulerCN_d3_cc.Unknown) :
    (forall w, I w -> I (fst (eulerCN_d3_cc.sweep ts u w))) ->
    (forall w, I w -> I (aborted u w)) ->
    keeps I (eulerCN_d3_cc.solve ts u).
Proof.
    intros Hsweep Habort w Hw.
    assert (Hk : forall k, I (after_sweeps ts u k w)).
    { induction k as [|k IH]; [exact Hw|]. now apply Hsweep. }
    unfold wp.
    destruct (solve_run ts u w) as [(k & _ & _ & _ & ->) | (_ & ->)].
    - apply Hk.
    - apply Habort, Hk.
Qed.

End KeepRules.

(** ** The sub-grid block of [timeAdvance] *)

Section LES.

Variable E : Collaborators.
Variable ts : eulerCN_d3.
Variable PLANAR : bool.
Variable TEST_POISSON : bool.

Lemma wp_modify_bind {B : Type} (f : World -> World) (k : unit -> M B) Q X w :
    wp (k tt) Q X (f w) -> wp (bind (modify f) k) Q X w.
Proof. intros H. apply wp_bind. exact H. Qed.

Lemma Qcltb_lt (a b : Qc) : Qcltb a b = true <-> (a < b)%Qc.
Proof.
    unfold Qcltb. rewrite Qclt_alt.
    destruct (a ?= b)%Qc; split; congruence.
Qed.

Lemma lesActive_iff :
    eulerCN_d3_cc.lesActive ts = true <->
    lesModel (inputParams (mesh ts)) <> 0%Z /\
    (five * tStp (inputParams (mesh ts)) < solTime ts)%Qc.
Proof.
    unfold eulerCN_d3_cc.lesActive.
    rewrite andb_true_iff, negb_true_iff, Z.eqb_neq. now rewrite Qcltb_lt.
Qed.

  (** Steps that keep [lesState] *)

Variables (nV nVT : nat) (sgKE : real).

Let I := lesState nV nVT sgKE.

Lemma les_keeps_run {S : Type} (getS : World -> S)
      (setS : S -> World -> World) (m : Method S) :
    boundaryMethod m ->
    (forall s w, trace (setS s w) = trace w /\
                 subgridEnergy (setS s w) = subgridEnergy w) ->
    keeps I (run getS setS m).
Proof.
    intros Hm Hset. apply keeps_modify. intros w (H1 & H2 & H3).
    rewrite runOn_eq. unfold I, lesState.
    cbn [trace subgridEnergy add_trace].
    destruct (Hset (fst (m (getS w))) w) as [Ht Hs].
    rewrite Ht, Hs, !occurrences_app.
    rewrite !(occurrences_boundary _ (snd (m (getS w))))
      by (reflexivity || apply Hm).
    rewrite !Nat.add_0_r. now repeat split.
Qed.

Lemma les_keeps_solve (s : eulerCN_d3_cc.Solver) :
    keeps I (eulerCN_d3_cc.solve ts (eulerCN_d3_cc.unknownOf E ts PLANAR s)).
Proof.
    apply keeps_solve.
    - intros w (H1 & H2 & H3).
      destruct (sweep_trace E ts PLANAR s w) as (tr & Htr & Hb & _).
      destruct (sweep_frame E ts PLANAR s w) as (_ & Hs & _).
      unfold I, lesState. rewrite Htr, Hs, !occurrences_app.
      rewrite !(occurrences_boundary _ tr) by (reflexivity || exact Hb).
      rewrite !Nat.add_0_r. now repeat split.
    - intros w (H1 & H2 & H3). unfold I, lesState.
      rewrite aborted_trace, !occurrences_app.
      change (subgridEnergy (aborted (eulerCN_d3_cc.unknownOf E ts PLANAR s) w))
        with (subgridEnergy w).
      change (occurrences EvComputeSG_V (EvFinalize :: nil)) with 0%nat.
      change (occurrences EvComputeSG_VT (EvFinalize :: nil)) with 0%nat.
      rewrite !Nat.add_0_r. now repeat split.
Qed.

Lemma boundary_call {S : Type} (e : Event) (f : S -> S) :
    isBoundaryEvent e = true -> boundaryMethod (call e f).
Proof. intros He s. cbn. now rewrite He. Qed.

Lemma boundary_plainvf_sync (name : string) :
    boundaryMethod (plainvf_cc.syncData E name).
Proof. intros s. reflexivity. Qed.

Lemma boundary_plainsf_sync (name : string) :
    boundaryMethod (plainsf_ops.syncData E name).
Proof. intros s. reflexivity. Qed.

Lemma boundary_sfield_sync : boundaryMethod (sfield_cc.syncData E).
Proof. intros s. reflexivity. Qed.

Lemma boundary_imposeBCs :
    boundaryMethod (sfield_cc.imposeBCs E (mesh ts) PLANAR).
Proof.
    intros s. rewrite imposeBCs_trace. apply imposeBCs_events_boundary.
Qed.

End LES.

Ltac les_pure :=
  apply keeps_modify;
  let w := fresh "w" in let H := fresh "H" in
  intros w H; unfold lesState in *;
  repeat match goal with
         | |- context [let (_, _) := ?p in _] => destruct p
         end;
  cbn -[occurrences]; rewrite ?occurrences_app; cbn -[Nat.add];
  rewrite ?Nat.add_0_r; exact H.

(** Walks a sequence of statements and shows that each keeps [lesState] *)
Ltac les_walk E ts PLANAR :=
  lazymatch goal with
  | |- keeps _ (ret _) => apply keeps_ret
  | |- keeps _ (bind _ _) =>
      apply keeps_bind; [les_walk E ts PLANAR | intros ?; les_walk E ts PLANAR]
  | |- keeps _ (whenM _ _) => apply keeps_whenM; les_walk E ts PLANAR
  | |- keeps _ (eulerCN_d3_cc.solveVx _ _) =>
      apply (les_keeps_solve E ts PLANAR _ _ _ eulerCN_d3_cc.SolveVx)
  | |- keeps _ (eulerCN_d3_cc.solveVy _ _) =>
      apply (les_keeps_solve E ts PLANAR _ _ _ eulerCN_d3_cc.SolveVy)
  | |- keeps _ (eulerCN_d3_cc.solveVz _ _) =>
      apply (les_keeps_solve E ts PLANAR _ _ _ eulerCN_d3_cc.SolveVz)
  | |- keeps _ (eulerCN_d3_cc.solveT _ _ _) =>
      apply (les_keeps_solve E ts PLANAR _ _ _ eulerCN_d3_cc.SolveT)
  | |- keeps _ (run _ _ _) =>
      apply les_keeps_run;
      [ first [ apply boundary_plainvf_sync | apply boundary_plainsf_sync
              | apply boundary_sfield_sync | apply boundary_imposeBCs
              | apply boundary_call; reflexivity ]
      | intros; split; reflexivity ]
  | |- keeps _ (modify _) => les_pure
  end.

Ltac les_tail E ts PLANAR :=
  unfold eulerCN_d3_cc.project, eulerCN_d3_cc.correct,
    eulerCN_d3_cc.callMgSolve, eulerCN_d3_cc.gradient_into_pressureGradient,
    emit;
  les_walk E ts PLANAR.

Section LESBlock.

Variable E : Collaborators.
Variable ts : eulerCN_d3.
Variable PLANAR : bool.
Variable TEST_POISSON : bool.

Lemma wp_callComputeSG_V Q X w :
    (let p := computeSG_V E (nseRHS w) (V w) in
     Q (snd p) (set_nseRHS (fst p) (add_trace (EvComputeSG_V :: nil) w))) ->
    wp (eulerCN_d3_cc.callComputeSG_V E) Q X w.
Proof.
    unfold wp, eulerCN_d3_cc.callComputeSG_V, bind, get. cbv zeta.
    destruct (computeSG_V E (nseRHS w) (V w)) as [rhs ke]. auto.
Qed.

Lemma wp_callComputeSG_VT Q X w :
    (let p := computeSG_VT E (nseRHS w) (tmpRHS w) (V w) (T w) in
     Q (snd p)
       (set_tmpRHS (snd (fst p))
          (set_nseRHS (fst (fst p)) (add_trace (EvComputeSG_VT :: nil) w)))) ->
    wp (eulerCN_d3_cc.callComputeSG_VT E) Q X w.
Proof.
    unfold wp, eulerCN_d3_cc.callComputeSG_VT, bind, get. cbv zeta.
    destruct (computeSG_VT E (nseRHS w) (tmpRHS w) (V w) (T w)) as [[rhsV rhsT] ke].
    auto.
Qed.

Lemma lesState_atLES (w : World) :
    lesState (occurrences EvComputeSG_V (trace w))
             (occurrences EvComputeSG_VT (trace w))
             (subgridEnergy w) (atLES E ts w).
Proof. repeat split. Qed.

Lemma lesState_atLES_T (w : World) :
    lesState (occurrences EvComputeSG_V (trace w))
             (occurrences EvComputeSG_VT (trace w))
             (subgridEnergy w) (atLES_T E ts PLANAR w).
Proof.
    unfold atLES_T.
    repeat match goal with
           | |- context [let (_, _) := ?p in _] => destruct p
           end.
    repeat split.
Qed.

  (** The sub-grid call of [timeAdvance(V, P)] adds one call and stores the
      energy. *)
Lemma lesState_call_V (nV nVT : nat) (sgKE : real) (w : World) :
    lesState nV nVT sgKE w ->
    let p := computeSG_V E (nseRHS w) (V w) in
    lesState (S nV) nVT (snd p)
      (set_subgridEnergy (snd p)
         (set_nseRHS (fst p) (add_trace (EvComputeSG_V :: nil) w))).
Proof.
    intros (H1 & H2 & H3). unfold lesState.
    cbn [subgridEnergy trace set_subgridEnergy set_nseRHS add_trace].
    rewrite !occurrences_app, H1, H2. cbn. repeat split; lia.
Qed.

Lemma lesState_call_VT (nV nVT : nat) (sgKE : real) (w : World) :
    lesState nV nVT sgKE w ->
    let p := computeSG_VT E (nseRHS w) (tmpRHS w) (V w) (T w) in
    lesState nV (S nVT) (snd p)
      (set_subgridEnergy (snd p)
         (set_tmpRHS (snd (fst p))
            (set_nseRHS (fst (fst p)) (add_trace (EvComputeSG_VT :: nil) w)))).
Proof.
    intros (H1 & H2 & H3). unfold lesState.
    cbn [subgridEnergy trace set_subgridEnergy set_nseRHS set_tmpRHS add_trace].
    rewrite !occurrences_app, H1, H2. cbn. repeat split; lia.
Qed.

Lemma lesState_none (nV nVT : nat) (sgKE : real) (w : World) :
    lesState nV nVT sgKE w ->
    lesState nV nVT 0%Qc (set_subgridEnergy 0%Qc w).
Proof. intros (H1 & H2 & H3). now repeat split. Qed.

  (** [timeAdvance(V, P)]: the sub-grid model is called once if the test
      holds and not at all otherwise. *)
Lemma timeAdvance_les (w : World) :
    let active := eulerCN_d3_cc.lesActive ts in
    let wL := atLES E ts w in
    let post :=
      lesState
        (if active then S (occurrences EvComputeSG_V (trace w))
         else occurrences EvComputeSG_V (trace w))
        (occurrences EvComputeSG_VT (trace w))
        (if active then snd (computeSG_V E (nseRHS wL) (V wL))
         else subgridEnergy w) in
    wp (eulerCN_d3_cc.timeAdvance E ts PLANAR TEST_POISSON)
       (fun _ => post) post w.
Proof.
    cbv zeta. unfold eulerCN_d3_cc.timeAdvance.
    do 5 apply wp_modify_bind.
    match goal with |- wp _ _ _ ?x => change x with (atLES E ts w) end.
    pose proof (lesState_atLES w) as H0.
    set (wL := atLES E ts w) in *. clearbody wL.
    apply wp_bind.
    match goal with
    | |- wp _ (fun _ w' => wp ?c _ _ w') _ _ =>
        assert (Hk : forall nV nVT sgKE, keeps (lesState nV nVT sgKE) c)
    end.
    { clear. intros nV nVT sgKE. les_tail E ts PLANAR. }
    destruct (eulerCN_d3_cc.lesActive ts); cbn [whenM].
    - apply wp_bind, wp_callComputeSG_V. cbv zeta.
      unfold wp at 1. cbn [modify].
      apply Hk. eapply lesState_call_V. exact H0.
    - unfold wp at 1. cbn [ret]. apply Hk. exact H0.
Qed.

  (** [timeAdvance(V, P, T)]: when the test holds, [computeSG(nseRHS, V)] is
      called once if [lesModel] is 1, [computeSG(nseRHS, tmpRHS, V, T)] once
      if it is 2, and neither otherwise. *)
Lemma timeAdvance_T_les (w : World) :
    let eff :=
      lesEffect_T E ts PLANAR w
        (occurrences EvComputeSG_V (trace w))
        (occurrences EvComputeSG_VT (trace w)) (subgridEnergy w) in
    wp (eulerCN_d3_cc.timeAdvance_T E ts PLANAR)
       (fun _ => lesState (fst (fst eff)) (snd (fst eff)) (snd eff))
       (lesState (fst (fst eff)) (snd (fst eff)) (snd eff)) w.
Proof.
    cbv zeta. unfold lesEffect_T, eulerCN_d3_cc.timeAdvance_T.
    do 10 apply wp_modify_bind.
    match goal with |- wp _ _ _ ?x => change x with (atLES_T E ts PLANAR w) end.
    pose proof (lesState_atLES_T w) as H0.
    set (wL := atLES_T E ts PLANAR w) in *. clearbody wL.
    apply wp_bind.
    match goal with
    | |- wp _ (fun _ w' => wp ?c _ _ w') _ _ =>
        assert (Hk : forall nV nVT sgKE, keeps (lesState nV nVT sgKE) c)
    end.
    { clear. intros nV nVT sgKE. les_tail E ts PLANAR. }
    destruct (eulerCN_d3_cc.lesActive ts); cbn [whenM].
    - destruct (lesModel (inputParams (mesh ts)) =? 1)%Z;
        [|destruct (lesModel (inputParams (mesh ts)) =? 2)%Z];
        cbn [fst snd]; apply wp_bind.
      + apply wp_callComputeSG_V. cbv zeta. unfold wp at 1. cbn [modify].
        apply Hk. eapply lesState_call_V. exact H0.
      + apply wp_callComputeSG_VT. cbv zeta. unfold wp at 1. cbn [modify].
        apply Hk. eapply lesState_call_VT. exact H0.
      + unfold wp at 1. cbn [ret]. unfold wp at 1. cbn [modify].
        apply Hk. eapply lesState_none. exact H0.
    - cbn [fst snd]. unfold wp at 1. cbn [ret]. apply Hk. exact H0.
Qed.

End LESBlock.

Lemma wp_same_post {A : Type} (c : M A) (I : World -> Prop) (w : World) :
  wp c (fun _ => I) I w -> exists w', result_world (c w) = Some w' /\ I w'.
Proof.
  unfold wp. destruct (c w) as [a w'| st w'|]; intros H.
  - now exists w'.
  - now exists w'.
  - contradiction.
Qed.

(** C4, amended.  In [timeAdvance(V, P)], [computeSG] is called exactly when
    [lesModel] is not zero and [solTime > 5 tStp] (once, then).  In
    [timeAdvance(V, P, T)] it is called exactly when, in addition, [lesModel]
    is 1 or 2: [computeSG(nseRHS, V)] for 1, [computeSG(nseRHS, tmpRHS, V,
    T)] for 2; for any other non-zero [lesModel] that passes the test no
    call is made and [subgridEnergy] is set to 0.  When the solution time is
    at most [5 tStp] no call is made and [subgridEnergy] keeps its value.
    When a call is made, the energy it returns is what
    [tsWriter.subgridEnergy] holds afterwards. *)
Theorem les_invocation
    (E : Collaborators) (ts : eulerCN_d3) (PLANAR TEST_POISSON : bool)
    (w : World) :
  let p := inputParams (mesh ts) in
  let active := eulerCN_d3_cc.lesActive ts in
  let wL := atLES E ts w in
  let wT := atLES_T E ts PLANAR w in
  (active = true <->
   lesModel p <> 0%Z /\ (five * tStp p < solTime ts)%Qc) /\
  (exists w',
     result_world (eulerCN_d3_cc.timeAdvance E ts PLANAR TEST_POISSON w) = Some w' /\
     newCalls EvComputeSG_V w w' = (if active then 1 else 0)%nat /\
     newCalls EvComputeSG_VT w w' = 0%nat /\
     subgridEnergy w' =
       (if active then snd (computeSG_V E (nseRHS wL) (V wL))
        else subgridEnergy w)) /\
  (exists w',
     result_world (eulerCN_d3_cc.timeAdvance_T E ts PLANAR w) = Some w' /\
     newCalls EvComputeSG_V w w'
       = (if active && (lesModel p =? 1)%Z then 1 else 0)%nat /\
     newCalls EvComputeSG_VT w w'
       = (if active && (lesModel p =? 2)%Z then 1 else 0)%nat /\
     subgridEnergy w' =
       (if active
        then if (lesModel p =? 1)%Z
             then snd (computeSG_V E (nseRHS wT) (V wT))
             else if (lesModel p =? 2)%Z
                  then snd (computeSG_VT E (nseRHS wT) (tmpRHS wT) (V wT) (T wT))
                  else 0%Qc
        else subgridEnergy w)).
Proof.
  cbv zeta. split; [apply lesActive_iff|]. split.
  - pose proof (timeAdvance_les E ts PLANAR TEST_POISSON w) as H.
    cbv zeta in H. apply wp_same_post in H as (w' & Hres & H1 & H2 & H3).
    exists w'. split; [exact Hres|].
    unfold newCalls. rewrite H1, H2, H3.
    destruct (eulerCN_d3_cc.lesActive ts); repeat split; lia.
  - pose proof (timeAdvance_T_les E ts PLANAR w) as H.
    cbv zeta in H. apply wp_same_post in H as (w' & Hres & H1 & H2 & H3).
    exists w'. split; [exact Hres|].
    unfold newCalls. rewrite H1, H2, H3. clear H1 H2 H3 Hres.
    unfold lesEffect_T.
    destruct (eulerCN_d3_cc.lesActive ts); cbn [andb];
      [|cbn [fst snd]; repeat split; lia].
    destruct (lesModel (inputParams (mesh ts)) =? 1)%Z eqn:E1.
    + apply Z.eqb_eq in E1. rewrite E1. cbn [fst snd Z.eqb Pos.eqb].
      repeat split; lia.
    + destruct (lesModel (inputParams (mesh ts)) =? 2)%Z eqn:E2; cbn [fst snd];
        repeat split; lia.
Qed.

(** On the small configuration with [lesModel = 3] and [solTime > 5 tStp],
    [timeAdvance(V, P, T)] calls neither [computeSG]. *)
Lemma les_model_three_makes_no_call :
  lesModel (inputParams (mesh Ex.les3)) <> 0%Z /\
  (five * tStp (inputParams (mesh Ex.les3)) < solTime Ex.les3)%Qc /\
  exists w',
    result_world
      (eulerCN_d3_cc.timeAdvance_T (Ex.collab 0%Qc) Ex.les3 false Ex.world)
    = Some w' /\
    newCalls EvComputeSG_V Ex.world w' = 0%nat /\
    newCalls EvComputeSG_VT Ex.world w' = 0%nat.
Proof.
  split; [discriminate|]. split; [reflexivity|].
  pose proof (timeAdvance_T_les (Ex.collab 0%Qc) Ex.les3 false Ex.world) as H.
  cbv zeta in H. apply wp_same_post in H as (w' & Hres & H1 & H2 & _).
  exists w'. split; [exact Hres|].
  unfold newCalls. rewrite H1, H2. unfold lesEffect_T.
  change (eulerCN_d3_cc.lesActive Ex.les3) with true.
  change (lesModel (inputParams (mesh Ex.les3))) with 3%Z.
  cbn [Z.eqb Pos.eqb fst snd]. split; lia.
Qed.

(** ** What the sub-grid block hands to the model *)

Lemma bind_modify {B : Type} (f : World -> World) (k : unit -> M B) (w : World) :
  bind (modify f) k w = k tt (f w).
Proof. reflexivity. Qed.

(** C8.  In [timeAdvance(V, P, T)] the scalar accumulator [tmpRHS] is handed
    to the sub-grid model exactly when the sub-grid test holds and
    [lesModel] is 2: then [computeSG] is applied to [nseRHS], [tmpRHS], [V]
    and [T] as they are at the test, and the accumulators it returns replace
    [nseRHS] and [tmpRHS].  When the test holds and [lesModel] is 1,
    [computeSG] is applied to [nseRHS] and [V] only, it replaces [nseRHS],
    and [tmpRHS] is as it was.  With [lesModel] 0 no call is made and both
    accumulators are as they were.  The step continues from that world with
    [pressureGradient = 0.0], and no other call of [computeSG] is made in
    the step. *)
Theorem les_scalar_forwarding
    (E : Collaborators) (ts : eulerCN_d3) (PLANAR : bool) (w : World) :
  let lm := lesModel (inputParams (mesh ts)) in
  let active := eulerCN_d3_cc.lesActive ts in
  let wL := atLES_T E ts PLANAR w in
  let viaV := computeSG_V E (nseRHS wL) (V wL) in
  let viaVT := computeSG_VT E (nseRHS wL) (tmpRHS wL) (V wL) (T wL) in
  let momentumOnly := active && (lm =? 1)%Z in
  let forwarded := active && (lm =? 2)%Z in
  (exists w2,
     eulerCN_d3_cc.timeAdvance_T E ts PLANAR w = afterLES_T E ts PLANAR w2 /\
     tmpRHS w2 = (if forwarded then snd (fst viaVT) else tmpRHS wL) /\
     nseRHS w2 = (if momentumOnly then fst viaV
                  else if forwarded then fst (fst viaVT) else nseRHS wL) /\
     subgridEnergy w2 = (if momentumOnly then snd viaV
                         else if forwarded then snd viaVT
                         else if active then 0%Qc else subgridEnergy wL) /\
     trace w2 = trace wL ++ (if momentumOnly then EvComputeSG_V :: nil
                             else if forwarded then EvComputeSG_VT :: nil
                             else nil) /\
     V w2 = V wL /\ P w2 = P wL /\ T w2 = T wL) /\
  (exists w',
     result_world (eulerCN_d3_cc.timeAdvance_T E ts PLANAR w) = Some w' /\
     newCalls EvComputeSG_VT w w' = (if forwarded then 1 else 0)%nat /\
     newCalls EvComputeSG_V w w' = (if momentumOnly then 1 else 0)%nat) /\
  (lm = 0%Z -> momentumOnly = false /\ forwarded = false).
Proof.
  cbv zeta. split; [|split].
  - unfold eulerCN_d3_cc.timeAdvance_T.
    do 10 (rewrite bind_modify; cbv beta).
    match goal with
    | |- context [bind _ _ ?x = _] => change x with (atLES_T E ts PLANAR w)
    end.
    set (wL := atLES_T E ts PLANAR w). clearbody wL.
    destruct (eulerCN_d3_cc.lesActive ts); cbn [whenM andb].
    + destruct (lesModel (inputParams (mesh ts)) =? 1)%Z eqn:E1.
      * assert (E2 : (lesModel (inputParams (mesh ts)) =? 2)%Z = false).
        { apply Z.eqb_eq in E1. now rewrite E1. }
        rewrite E2.
        unfold bind at 1 2, eulerCN_d3_cc.callComputeSG_V, get, emit, modify, ret.
        unfold bind at 1 2 3.
        destruct (computeSG_V E (nseRHS wL) (V wL)) as [rV sg].
        eexists. split; [reflexivity|]. cbn [fst snd]. repeat split.
      * destruct (lesModel (inputParams (mesh ts)) =? 2)%Z eqn:E2.
        -- unfold bind at 1 2, eulerCN_d3_cc.callComputeSG_VT, get, emit, modify, ret.
           unfold bind at 1 2 3 4.
           destruct (computeSG_VT E (nseRHS wL) (tmpRHS wL) (V wL) (T wL))
             as [[rV rT] sg].
           eexists. split; [reflexivity|]. cbn [fst snd]. repeat split.
        -- eexists. split; [reflexivity|]. repeat split.
           cbn [trace set_subgridEnergy]. now rewrite app_nil_r.
    + eexists. split; [reflexivity|]. repeat split.
      now rewrite app_nil_r.
  - pose proof (timeAdvance_T_les E ts PLANAR w) as H.
    cbv zeta in H. apply wp_same_post in H as (w' & Hres & H1 & H2 & _).
    exists w'. split; [exact Hres|].
    unfold newCalls. rewrite H1, H2. clear H1 H2 Hres.
    unfold lesEffect_T.
    destruct (eulerCN_d3_cc.lesActive ts); cbn [andb].
    + destruct (lesModel (inputParams (mesh ts)) =? 1)%Z eqn:E1.
      * apply Z.eqb_eq in E1. rewrite E1. cbn [fst snd Z.eqb Pos.eqb].
        split; lia.
      * destruct (lesModel (inputParams (mesh ts)) =? 2)%Z eqn:E2; cbn [fst snd];
          split; lia.
    + cbn [fst snd]. split; lia.
  - intros ->. cbn [Z.eqb]. rewrite !andb_false_r. split; reflexivity.
Qed.

(** ** A step of size zero *)

Section ZeroStep.

Local Open Scope Qc_scope.

Lemma agree_refl d A : agree d A A.
Proof. intros r i j k _. reflexivity. Qed.

Lemma agree_trans d A B C : agree d A B -> agree d B C -> agree d A C.
Proof. intros H1 H2 r i j k Hc. now rewrite H1, H2. Qed.

Lemma Qcinv_1 : / 1 = 1.
Proof. apply Qc_is_canon. reflexivity. Qed.

Lemma fold_Qcmax_zeros (l : list Qc) :
    (forall x, In x l -> x = 0) -> fold_left Qcmax l 0 = 0.
Proof.
    induction l as [|x l IH]; intros H; simpl; [reflexivity|].
    rewrite (H x) by now left.
    change (Qcmax 0 0) with 0. apply IH. intros y Hy. apply H. now right.
Qed.

Lemma Blitz_max_zeros (l : list Qc) :
    (forall x, In x l -> x = 0) -> Blitz.max l = 0.
Proof.
    destruct l as [|x l]; intros H; simpl; [reflexivity|].
    rewrite (H x) by now left.
    apply fold_Qcmax_zeros. intros y Hy. apply H. now right.
Qed.

Lemma Allreduce_MAX_zeros (np : nat) (loc : nat -> Qc) :
    (forall r, loc r = 0) -> MPI.Allreduce_MAX np loc = 0.
Proof.
    intros H. unfold MPI.Allreduce_MAX. rewrite H.
    apply fold_Qcmax_zeros. intros x Hx.
    apply in_map_iff in Hx as (r & <- & _). apply H.
Qed.

Variable ts : eulerCN_d3.
Hypothesis Hdt : dt ts = 0.

  (** With [dt = 0] the candidate is the right-hand side and the defect is
      the field. *)
Lemma jacobiUpdate_rest (alpha : real) (r : nat) (F rhs : Blitz.Array) i j k :
    eulerCN_d3_cc.jacobiUpdate ts alpha r F rhs i j k = rhs i j k.
Proof.
    unfold eulerCN_d3_cc.jacobiUpdate. rewrite Hdt. unfold Qcdiv.
    match goal with
    | |- _ * / ?d = _ => replace d with (Q2Qc 1) by qc_ring
    end.
    rewrite Qcinv_1. qc_ring.
Qed.

Lemma jacobiDefect_rest (alpha : real) (r : nat) (F : Blitz.Array) i j k :
    eulerCN_d3_cc.jacobiDefect ts alpha r F i j k = F i j k.
Proof.
    unfold eulerCN_d3_cc.jacobiDefect. rewrite Hdt. qc_ring.
Qed.

  (** If the field agrees with the right-hand side on the core, [gloMax]
      is zero. *)
Lemma gloMax_rest (alpha : real) (phi rhs temp : DArray) :
    agree (coreDomain (mesh ts)) phi rhs ->
    MPI.Allreduce_MAX (nProc (mesh ts)) (fun r =>
      Blitz.max
        (Blitz.slice
           (dOnDomain (eulerCN_d3_cc.core ts) (fun t b => Qcabs (t - b))
              (eulerCN_d3_cc.loopNest ts
                 (fun r => eulerCN_d3_cc.jacobiDefect ts alpha r (phi r)) temp)
              rhs r)
           (eulerCN_d3_cc.core ts))) = 0.
Proof.
    intros Hag. apply Allreduce_MAX_zeros. intros r.
    apply Blitz_max_zeros. intros x Hx.
    unfold Blitz.slice in Hx. apply in_map_iff in Hx as ([[i j] k] & <- & Hin).
    apply cells_inDomain in Hin. simpl.
    unfold dOnDomain, Blitz.onDomain. rewrite loopNest_pointwise, Hin.
    rewrite jacobiDefect_rest, (Hag r i j k Hin).
    replace (rhs r i j k - rhs r i j k) with (Q2Qc 0) by qc_ring.
    apply Qc_is_canon. reflexivity.
Qed.

End ZeroStep.

Section RestSolve.

Variable E : Collaborators.
Variable ts : eulerCN_d3.
Variable PLANAR : bool.
Hypothesis Hdt : dt ts = 0%Qc.
Hypothesis HE : respectsCore E (coreDomain (mesh ts)).

Lemma firstLoop_rest (alpha : real) (phi rhs temp : DArray) :
    agree (coreDomain (mesh ts))
      (eulerCN_d3_cc.loopNest ts
         (fun r => eulerCN_d3_cc.jacobiUpdate ts alpha r (phi r) (rhs r)) temp)
      rhs.
Proof.
    intros r i j k Hc. rewrite loopNest_pointwise.
    unfold eulerCN_d3_cc.core. rewrite Hc. now apply jacobiUpdate_rest.
Qed.

  (** [imposeBCs] leaves the core of the field as it is *)
Lemma imposeBCs_core (this : Sfield.t) :
    agree (coreDomain (mesh ts))
      (Field.F (Sfield.F (fst (sfield_cc.imposeBCs E (mesh ts) PLANAR this))))
      (Field.F (Sfield.F this)).
Proof.
    destruct HE as (Hsync & Hbc & _).
    rewrite imposeBCs_array. cbv zeta.
    destruct (negb (xPer (inputParams (mesh ts)))),
             (negb PLANAR && negb (yPer (inputParams (mesh ts))));
      repeat (eapply agree_trans; [apply Hbc|]); apply Hsync.
Qed.

Variables vx vy vz t t' : DArray.

Lemma sweep_rest (s : eulerCN_d3_cc.Solver) (w : World) :
    (s = eulerCN_d3_cc.SolveT -> agree (coreDomain (mesh ts)) t' t) ->
    coresAre (coreDomain (mesh ts)) vx vy vz t w ->
    rhsAre (coreDomain (mesh ts)) vx vy vz t' w ->
    let res := eulerCN_d3_cc.sweep ts (eulerCN_d3_cc.unknownOf E ts PLANAR s) w in
    snd res = 0%Qc /\
    coresAre (coreDomain (mesh ts)) vx vy vz t (fst res) /\
    rhsAre (coreDomain (mesh ts)) vx vy vz t' (fst res).
Proof.
    intros Ht (C1 & C2 & C3 & C4) (R1 & R2 & R3 & R4).
    destruct HE as (Hsync & Hbc & HVbc & HVbcs).
    destruct s; unfold eulerCN_d3_cc.sweep, eulerCN_d3_cc.imposeVBC;
      cbn -[sfield_cc.imposeBCs eulerCN_d3_cc.loopNest];
      rewrite ?runOn_eq;
      cbn -[sfield_cc.imposeBCs eulerCN_d3_cc.loopNest].
    1-3: match goal with
         | |- context [V_imposeVBC E ?c ?U] =>
             destruct (HVbc c U) as (B1 & B2 & B3); cbn in B1, B2, B3
         end.
    1-3: split;
      [ apply (gloMax_rest ts Hdt);
        eapply agree_trans; [eassumption | apply firstLoop_rest]
      | split; [|now repeat split] ];
      unfold coresAre; cbn; repeat split;
      solve [ assumption
            | eapply agree_trans; [eassumption|]; assumption
            | eapply agree_trans; [eassumption|];
              eapply agree_trans; [apply firstLoop_rest | assumption] ].
    match goal with
    | |- context [sfield_cc.imposeBCs E (mesh ts) PLANAR ?U] =>
        pose proof (imposeBCs_core U) as B; cbn in B
    end.
    split;
      [ apply (gloMax_rest ts Hdt);
        eapply agree_trans; [exact B | apply firstLoop_rest]
      | split; [|now repeat split] ].
    unfold coresAre; cbn -[sfield_cc.imposeBCs]; repeat split; try assumption.
    eapply agree_trans; [exact B|].
    eapply agree_trans; [apply firstLoop_rest |].
    eapply agree_trans; [exact R4 | now apply Ht].
Qed.

  (** With a zero step and a positive tolerance a solver returns after one
      sweep, and the cores are what they were. *)
Lemma solve_rest (s : eulerCN_d3_cc.Solver) :
    (0 < cnTolerance (inputParams (mesh ts)))%Qc ->
    (s = eulerCN_d3_cc.SolveT -> agree (coreDomain (mesh ts)) t' t) ->
    runs (restInv (coreDomain (mesh ts)) vx vy vz t t')
         (eulerCN_d3_cc.solve ts (eulerCN_d3_cc.unknownOf E ts PLANAR s))
         (restInv (coreDomain (mesh ts)) vx vy vz t t').
Proof.
    intros Htol Ht w (HC & HR).
    destruct (sweep_rest s w Ht HC HR) as (Hg & HC' & HR').
    assert (Hrun : eulerCN_d3_cc.solve ts (eulerCN_d3_cc.unknownOf E ts PLANAR s) w
                   = Done tt (after_sweeps ts (eulerCN_d3_cc.unknownOf E ts PLANAR s) 1 w)).
    { apply solve_Done_iff. exists 1%nat. repeat split; try lia.
      rewrite below_tolerance_1, Hg. now apply Qcltb_lt. }
    unfold wp. rewrite Hrun. now split.
Qed.

End RestSolve.

Section RunsRules.

Lemma runs_bind {A B : Type} (I1 I2 I3 : World -> Prop)
      (c : M A) (k : A -> M B) :
    runs I1 c I2 -> (forall a, runs I2 (k a) I3) -> runs I1 (bind c k) I3.
Proof.
    intros Hc Hk w Hw. apply wp_bind.
    eapply wp_mono; [apply Hc, Hw | | auto].
    intros a w' Hw'. now apply Hk.
Qed.

Lemma runs_ret {A : Type} (I1 I2 : World -> Prop) (a : A) :
    (forall w, I1 w -> I2 w) -> runs I1 (ret a) I2.
Proof. intros H w Hw. now apply H. Qed.

Lemma runs_modify (I1 I2 : World -> Prop) (f : World -> World) :
    (forall w, I1 w -> I2 (f w)) -> runs I1 (modify f) I2.
Proof. intros H w Hw. now apply H. Qed.

  (** The strongest postcondition of an assignment *)
Lemma runs_modify_sp (I1 : World -> Prop) (f : World -> World) :
    runs I1 (modify f) (fun w2 => exists w1, I1 w1 /\ w2 = f w1).
Proof. intros w Hw. now exists w. Qed.

Lemma runs_whenM (I : World -> Prop) (b : bool) (c : M unit) :
    runs I c I -> runs I (whenM b c) I.
Proof. intros H. destruct b; [exact H | now apply runs_ret]. Qed.

Lemma runs_if {A : Type} (I1 I2 : World -> Prop) (b : bool) (c1 c2 : M A) :
    runs I1 c1 I2 -> runs I1 c2 I2 -> runs I1 (if b then c1 else c2) I2.
Proof. now destruct b. Qed.

Lemma runs_Done {A : Type} (I1 I2 : World -> Prop) (c : M A) (w : World) :
    runs I1 c I2 -> I1 w -> exists a w', c w = Done a w' /\ I2 w'.
Proof.
    intros H Hw. specialize (H w Hw). unfold wp in H.
    destruct (c w) as [a w'| |]; [|contradiction|contradiction].
    now exists a, w'.
Qed.

End RunsRules.

(** The derivative operators of [sfield] change the scratch array only *)
Lemma computeDiff_F E g PLANAR this H :
  Sfield.F (fst (sfield_cc.computeDiff E g PLANAR this H)) = Sfield.F this.
Proof. unfold sfield_cc.computeDiff. now destruct PLANAR. Qed.

Lemma computeNLin_F E g PLANAR this U H :
  Sfield.F (fst (sfield_cc.computeNLin E g PLANAR this U H)) = Sfield.F this.
Proof. unfold sfield_cc.computeNLin. now destruct PLANAR. Qed.

Lemma gradient_F E g PLANAR this G :
  Sfield.F (fst (sfield_cc.gradient E g PLANAR this G)) = Sfield.F this.
Proof. unfold sfield_cc.gradient. now destruct PLANAR. Qed.

(** A statement that assigns to members other than the arrays an invariant
    speaks of *)
Ltac rest_pure :=
  apply runs_modify;
  let w := fresh "w" in let H := fresh "H" in
  intros w H; cbv beta in *; unfold restInv, coresAre, rhsAre, pgAre in *;
  repeat match goal with
         | |- context [let (_, _) := ?p in _] =>
             let Hp := fresh "Hp" in
             destruct p eqn:Hp;
             apply (f_equal (fun q => Sfield.F (fst q))) in Hp;
             cbv beta in Hp; cbn [fst] in Hp;
             rewrite ?computeDiff_F, ?computeNLin_F, ?gradient_F in Hp
         end;
  cbn -[agree sfield_cc.imposeBCs];
  repeat match goal with
         | Hp : Sfield.F _ = Sfield.F _ |- _ => rewrite <- Hp; clear Hp
         end;
  exact H.

Section RestStep.

Variable E : Collaborators.
Variable ts : eulerCN_d3.
Variable PLANAR : bool.
Hypothesis Hdt : dt ts = 0%Qc.
Hypothesis Htol : (0 < cnTolerance (inputParams (mesh ts)))%Qc.
Hypothesis HE : respectsCore E (coreDomain (mesh ts)).

Variables vx vy vz t t' : DArray.

Let d := coreDomain (mesh ts).
Let C := coresAre d vx vy vz t.
Let K := restInv d vx vy vz t t'.

Lemma rest_callSG_V : runs C (eulerCN_d3_cc.callComputeSG_V E) C.
Proof. intros w Hw. apply wp_callComputeSG_V. exact Hw. Qed.

Lemma rest_callSG_VT : runs C (eulerCN_d3_cc.callComputeSG_VT E) C.
Proof. intros w Hw. apply wp_callComputeSG_VT. exact Hw. Qed.

Lemma rest_sync_nseRHS (name : string) :
    runs K (run nseRHS set_nseRHS (plainvf_cc.syncData E name)) K.
Proof.
    destruct HE as (Hsync & _).
    apply runs_modify. intros w (HC & R1 & R2 & R3 & R4).
    rewrite runOn_eq. split; [exact HC|].
    unfold rhsAre. cbn. repeat split; try assumption;
      (eapply agree_trans; [apply Hsync | assumption]).
Qed.

Lemma rest_sync_tmpRHS (name : string) :
    runs K (run tmpRHS set_tmpRHS (plainsf_ops.syncData E name)) K.
Proof.
    destruct HE as (Hsync & _).
    apply runs_modify. intros w (HC & R1 & R2 & R3 & R4).
    rewrite runOn_eq. split; [exact HC|].
    unfold rhsAre. cbn. repeat split; try assumption.
    eapply agree_trans; [apply Hsync | assumption].
Qed.

End RestStep.

Ltac rest_keep I :=
  apply (runs_bind I I); [|intros ?].

Section RestAdvance.

Variable E : Collaborators.
Variable ts : eulerCN_d3.
Variable PLANAR : bool.
Hypothesis Hdt : dt ts = 0%Qc.
Hypothesis Htol : (0 < cnTolerance (inputParams (mesh ts)))%Qc.
Hypothesis HE : respectsCore E (coreDomain (mesh ts)).

Variables vx vy vz t : DArray.

  (** [timeAdvance(V, P, T)] up to the solvers *)
Lemma predictor_T_rest :
    runs (coresAre (coreDomain (mesh ts)) vx vy vz t)
         (predictor_T E ts PLANAR)
         (restInv (coreDomain (mesh ts)) vx vy vz t t).
Proof.
    set (C := coresAre (coreDomain (mesh ts)) vx vy vz t).
    set (K := restInv (coreDomain (mesh ts)) vx vy vz t t).
    unfold predictor_T, eulerCN_d3_cc.gradient_into_pressureGradient.
    do 10 (rest_keep C; [subst C; rest_pure|]).
    rest_keep C.
    { apply runs_whenM. rest_keep C; [|subst C; rest_pure].
      repeat apply runs_if;
        [apply rest_callSG_V | apply rest_callSG_VT | now apply runs_ret]. }
    do 3 (rest_keep C; [subst C; rest_pure|]).
    (* the right-hand sides become the fields *)
    do 3 (eapply runs_bind; [apply runs_modify_sp | intros _]).
    apply (runs_bind _ K).
    { apply runs_modify.
      intros w4 (w3 & (w2 & (w1 & (C1 & C2 & C3 & C4) & ->) & ->) & ->).
      split; [now repeat split|].
      unfold rhsAre. cbn. rewrite Hdt.
      repeat split; intros r i j k Hc;
        unfold dzip, dmap, Blitz.zipWith, Blitz.mapWith;
        rewrite Qcmult_0_r, Qcplus_0_l;
        [apply C1 | apply C2 | apply C3 | apply C4]; exact Hc. }
    intros _.
    rest_keep K; [apply (rest_sync_nseRHS E ts HE)|].
    rest_keep K; [apply (rest_sync_tmpRHS E ts HE)|].
    rest_keep K;
      [apply (solve_rest E ts PLANAR Hdt HE vx vy vz t t eulerCN_d3_cc.SolveVx Htol);
       intros; apply agree_refl|].
    rest_keep K;
      [apply (solve_rest E ts PLANAR Hdt HE vx vy vz t t eulerCN_d3_cc.SolveVy Htol);
       intros; apply agree_refl|].
    rest_keep K;
      [apply (solve_rest E ts PLANAR Hdt HE vx vy vz t t eulerCN_d3_cc.SolveVz Htol);
       intros; apply agree_refl|].
    apply (solve_rest E ts PLANAR Hdt HE vx vy vz t t eulerCN_d3_cc.SolveT Htol).
    intros; apply agree_refl.
Qed.

Variable t' : DArray.

  (** [timeAdvance(V, P)] up to the solvers; nothing there assigns to [T] or
      [tmpRHS]. *)
Lemma predictor_rest :
    runs (fun w => coresAre (coreDomain (mesh ts)) vx vy vz t w /\
                   agree (coreDomain (mesh ts)) (Plainsf.F (tmpRHS w)) t')
         (predictor E ts PLANAR)
         (restInv (coreDomain (mesh ts)) vx vy vz t t').
Proof.
    set (C := fun w => coresAre (coreDomain (mesh ts)) vx vy vz t w /\
                       agree (coreDomain (mesh ts)) (Plainsf.F (tmpRHS w)) t').
    set (K := restInv (coreDomain (mesh ts)) vx vy vz t t').
    unfold predictor, eulerCN_d3_cc.gradient_into_pressureGradient.
    do 5 (rest_keep C; [subst C; rest_pure|]).
    rest_keep C.
    { apply runs_whenM. rest_keep C; [|subst C; rest_pure].
      intros w Hw. apply wp_callComputeSG_V. exact Hw. }
    do 3 (rest_keep C; [subst C; rest_pure|]).
    eapply runs_bind; [apply runs_modify_sp | intros _].
    apply (runs_bind _ K).
    { apply runs_modify.
      intros w2 (w1 & ((C1 & C2 & C3 & C4) & R4) & ->).
      split; [now repeat split|].
      unfold rhsAre. cbn. rewrite Hdt.
      repeat split; try exact R4; intros r i j k Hc;
        unfold dzip, dmap, Blitz.zipWith, Blitz.mapWith;
        rewrite Qcmult_0_r, Qcplus_0_l;
        [apply C1 | apply C2 | apply C3]; exact Hc. }
    intros _.
    rest_keep K; [apply (rest_sync_nseRHS E ts HE)|].
    rest_keep K;
      [apply (solve_rest E ts PLANAR Hdt HE vx vy vz t t' eulerCN_d3_cc.SolveVx Htol);
       discriminate|].
    rest_keep K;
      [apply (solve_rest E ts PLANAR Hdt HE vx vy vz t t' eulerCN_d3_cc.SolveVy Htol);
       discriminate|].
    apply (solve_rest E ts PLANAR Hdt HE vx vy vz t t' eulerCN_d3_cc.SolveVz Htol).
    discriminate.
Qed.

End RestAdvance.

(** The stages of a time step, put together *)

Lemma bind_assoc {A B C : Type} (c : M A) (k : A -> M B) (k' : B -> M C) :
  bind (bind c k) k' = bind c (fun a => bind (k a) k').
Proof.
  extensionality w. unfold bind. now destruct (c w).
Qed.

Ltac reassociate :=
  repeat (rewrite bind_assoc; apply f_equal;
          let x := fresh "x" in extensionality x);
  reflexivity.

Lemma timeAdvance_stages E ts PLANAR TEST_POISSON :
  eulerCN_d3_cc.timeAdvance E ts PLANAR TEST_POISSON
  = bind (predictor E ts PLANAR) (fun _ => corrector E ts PLANAR TEST_POISSON).
Proof.
  unfold eulerCN_d3_cc.timeAdvance, predictor, corrector. reassociate.
Qed.

Lemma timeAdvance_T_stages E ts PLANAR :
  eulerCN_d3_cc.timeAdvance_T E ts PLANAR
  = bind (predictor_T E ts PLANAR) (fun _ => corrector_T E ts PLANAR).
Proof.
  unfold eulerCN_d3_cc.timeAdvance_T, predictor_T, corrector_T. reassociate.
Qed.

(** A step of size zero on the small configuration: the multigrid
    correction is added to [P], and the bottom wall of [T] takes its
    boundary value.  The multigrid solver of the configuration answers with
    the same correction whatever right-hand side it is given, so the two
    cells do not depend on the value of [1.0/dt]. *)
Lemma zero_step_changes_P_and_wall :
  dt Ex.atRest = 0%Qc /\
  exists w',
    eulerCN_d3_cc.timeAdvance_T (Ex.collab 1%Qc) Ex.atRest false Ex.world
    = Done tt w' /\
    Field.F (Sfield.F (P w')) 0%nat 0%Z 0%Z 0%Z
    <> Field.F (Sfield.F (P Ex.world)) 0%nat 0%Z 0%Z 0%Z /\
    Field.F (Sfield.F (T w')) 0%nat 0%Z 0%Z (-1)%Z
    <> Field.F (Sfield.F (T Ex.world)) 0%nat 0%Z 0%Z (-1)%Z.
Proof.
  split; [reflexivity|].
  assert (Hobs : Ex.observe
                   (eulerCN_d3_cc.timeAdvance_T (Ex.collab 1%Qc) Ex.atRest
                      false Ex.world) = Some (1%Q, 1%Q))
    by (vm_compute; reflexivity).
  destruct (eulerCN_d3_cc.timeAdvance_T (Ex.collab 1%Qc) Ex.atRest false Ex.world)
    as [[] w'| |]; try discriminate.
  exists w'. split; [reflexivity|].
  unfold Ex.observe, Ex.cellQ in Hobs.
  split; intros Heq; rewrite Heq in Hobs; vm_compute in Hobs; discriminate.
Qed.

(** ** A tolerance that cannot be met *)

Section NeverBelow.

Local Open Scope Qc_scope.

Lemma Qcmax_ge_l (a b : Qc) : a <= Qcmax a b.
Proof.
    destruct (Qcmax_spec a b) as [[H ->]|[H ->]];
      [now apply Qclt_le_weak | apply Qcle_refl].
Qed.

Lemma fold_Qcmax_ge (l : list Qc) : forall a, a <= fold_left Qcmax l a.
Proof.
    induction l as [|x l IH]; intros a; simpl; [apply Qcle_refl|].
    eapply Qcle_trans; [apply Qcmax_ge_l | apply IH].
Qed.

Lemma Blitz_max_nonneg (l : list Qc) :
    (forall x, In x l -> 0 <= x) -> 0 <= Blitz.max l.
Proof.
    destruct l as [|x l]; intros H; simpl; [apply Qcle_refl|].
    eapply Qcle_trans; [apply H; now left | apply fold_Qcmax_ge].
Qed.

Lemma Allreduce_MAX_nonneg (np : nat) (loc : nat -> Qc) :
    0 <= loc O -> 0 <= MPI.Allreduce_MAX np loc.
Proof.
    intros H. unfold MPI.Allreduce_MAX.
    eapply Qcle_trans; [exact H | apply fold_Qcmax_ge].
Qed.

Variable E : Collaborators.
Variable ts : eulerCN_d3.
Variable PLANAR : bool.

  (** [gloMax] is a maximum of absolute values *)
Lemma gloMax_nonneg (s : eulerCN_d3_cc.Solver) (w : World) :
    0 <= snd (eulerCN_d3_cc.sweep ts (eulerCN_d3_cc.unknownOf E ts PLANAR s) w).
Proof.
    destruct s; unfold eulerCN_d3_cc.sweep; cbn [snd];
      apply Allreduce_MAX_nonneg, Blitz_max_nonneg;
      intros x Hx; unfold Blitz.slice in Hx;
      apply in_map_iff in Hx as ([[i j] k] & <- & Hin);
      apply cells_inDomain in Hin;
      cbn -[eulerCN_d3_cc.loopNest sfield_cc.imposeBCs Blitz.inDomain];
      unfold dOnDomain, Blitz.onDomain;
      rewrite Hin; apply Qcabs_nonneg.
Qed.

  (** With a tolerance that is not positive no pass gets below it, and the
      solver takes the abort branch after [maxIterations + 1] passes. *)
Lemma solve_never_below (s : eulerCN_d3_cc.Solver) (w : World) :
    cnTolerance (inputParams (mesh ts)) <= 0 ->
    let u := eulerCN_d3_cc.unknownOf E ts PLANAR s in
    eulerCN_d3_cc.solve ts u w
    = Exited 0 (aborted u (after_sweeps ts u (S (Z.to_nat (maxIterations ts))) w)).
Proof.
    intros Htol u. apply solve_Exited_iff. split; [|now split].
    intros j _. unfold below_tolerance, gloMax_of_sweep.
    destruct (Qcltb _ _) eqn:B; [|reflexivity].
    apply Qcltb_lt in B. exfalso.
    apply (Qclt_not_le _ _ B).
    eapply Qcle_trans; [exact Htol | apply gloMax_nonneg].
Qed.

End NeverBelow.

(** On the small configuration with tolerance zero and [maxIterations = 2],
    [solveVx] aborts after three sweeps, not four. *)
Lemma abort_after_three_sweeps :
  maxIterations Ex.strict = 2%Z /\
  exists w',
    eulerCN_d3_cc.solveVx (Ex.collab 0%Qc) Ex.strict Ex.world = Exited 0 w' /\
    newCalls (EvImposeVBC CVx) Ex.world w' = 3%nat /\
    Z.of_nat (newCalls (EvImposeVBC CVx) Ex.world w')
    <> (maxIterations Ex.strict + 2)%Z.
Proof.
  split; [reflexivity|].
  pose proof (solve_never_below (Ex.collab 0%Qc) Ex.strict false
                eulerCN_d3_cc.SolveVx Ex.world) as Hrun.
  cbv zeta in Hrun.
  eexists. split.
  - apply Hrun. vm_compute. discriminate.
  - destruct (after_sweeps_trace (Ex.collab 0%Qc) Ex.strict false
                eulerCN_d3_cc.SolveVx 3 Ex.world) as (tr & Htr & _ & Hocc).
    assert (Hn : newCalls (EvImposeVBC CVx) Ex.world
                   (aborted (eulerCN_d3_cc.unknownOf (Ex.collab 0%Qc) Ex.strict false
                               eulerCN_d3_cc.SolveVx)
                      (after_sweeps Ex.strict
                         (eulerCN_d3_cc.unknownOf (Ex.collab 0%Qc) Ex.strict false
                            eulerCN_d3_cc.SolveVx) 3 Ex.world)) = 3%nat).
    { unfold newCalls. rewrite aborted_trace, Htr, !occurrences_app.
      change (sweepMark eulerCN_d3_cc.SolveVx Ex.world) with (EvImposeVBC CVx) in Hocc.
      rewrite Hocc. cbn. lia. }
    change (Z.to_nat (maxIterations Ex.strict)) with 2%nat.
    rewrite Hn. split; [reflexivity|]. cbn. lia.
Qed.

(** On the small configuration with tolerance zero no pass of [solveVx]
    gets below the tolerance: rank 0 prints the error line and the process
    ends, but with exit status 0, which is not an error status. *)
Lemma abort_exit_status_is_success :
  exists w',
    eulerCN_d3_cc.solveVx (Ex.collab 0%Qc) Ex.strict Ex.world = Exited 0 w' /\
    stdout w' 0%nat
    = ("ERROR: Jacobi iterations for solution of Vx not converging. Aborting"
       :: nil)%string /\
    isErrorStatus 0 = false /\
    endsWithError (eulerCN_d3_cc.solveVx (Ex.collab 0%Qc) Ex.strict Ex.world)
    = false.
Proof.
  pose proof (solve_never_below (Ex.collab 0%Qc) Ex.strict false
                eulerCN_d3_cc.SolveVx Ex.world) as Hrun.
  cbv zeta in Hrun.
  assert (Htol : (cnTolerance (inputParams (mesh Ex.strict)) <= 0)%Qc)
    by (vm_compute; discriminate).
  specialize (Hrun Htol).
  eexists. split; [exact Hrun|]. split; [|split; [reflexivity|]].
  - destruct (aborted_stdout (Ex.collab 0%Qc) Ex.strict false
                eulerCN_d3_cc.SolveVx
                (after_sweeps Ex.strict
                   (eulerCN_d3_cc.unknownOf (Ex.collab 0%Qc) Ex.strict false
                      eulerCN_d3_cc.SolveVx)
                   (S (Z.to_nat (maxIterations Ex.strict))) Ex.world))
      as (H0 & _).
    destruct (after_sweeps_frame (Ex.collab 0%Qc) Ex.strict false
                eulerCN_d3_cc.SolveVx
                (S (Z.to_nat (maxIterations Ex.strict))) Ex.world) as (Hout & _).
    rewrite H0, Hout. reflexivity.
  - unfold eulerCN_d3_cc.solveVx.
    change (eulerCN_d3_cc.unknownVx (Ex.collab 0%Qc) Ex.strict)
      with (eulerCN_d3_cc.unknownOf (Ex.collab 0%Qc) Ex.strict false
              eulerCN_d3_cc.SolveVx).
    rewrite Hrun. reflexivity.
Qed.

(** ** The small configuration *)

Lemma Ex_core_cell (i j k : Z) :
  Blitz.inDomain Ex.core i j k = true ->
  (0 <= i <= 1 /\ j = 0 /\ 0 <= k <= 1)%Z.
Proof.
  unfold Blitz.inDomain, Blitz.inRange. cbn.
  rewrite !andb_true_iff, !Z.leb_le. lia.
Qed.

Lemma Ex_sync_core (A : DArray) : agree Ex.core (Ex.sync A) A.
Proof.
  intros r i j k Hc. apply Ex_core_cell in Hc as (_ & -> & _). reflexivity.
Qed.

Lemma Ex_wallBC_core (w : Wall) (v : option real) (A : DArray) :
  agree Ex.core (Ex.wallBC w v A) A.
Proof.
  intros r i j k Hc. apply Ex_core_cell in Hc as (Hi & -> & Hk).
  unfold Ex.wallBC.
  destruct w; cbn; try reflexivity;
    match goal with
    | |- context [(?a =? ?b)%Z] =>
        destruct (Z.eqb_spec a b); [lia | reflexivity]
    end.
Qed.

Lemma Ex_noSlip_core (f : Field.t) :
  agree Ex.core (Field.F (Ex.noSlip f)) (Field.F f).
Proof.
  unfold Ex.noSlip. cbn.
  repeat (eapply agree_trans; [apply Ex_wallBC_core|]). apply Ex_sync_core.
Qed.

Lemma Ex_imposeV_core (c : Comp) (U : Vfield.t) :
  agreeV Ex.core (Ex.imposeV c U) U.
Proof.
  destruct c; repeat split; cbn;
    first [apply Ex_noSlip_core | apply agree_refl].
Qed.

(** The collaborators of the small configuration write outside the core *)
Lemma Ex_respectsCore (pp : real) : respectsCore (Ex.collab pp) Ex.core.
Proof.
  split; [|split; [|split]]; cbn.
  - intros name A. apply Ex_sync_core.
  - intros name w A. apply Ex_wallBC_core.
  - intros c U. apply Ex_imposeV_core.
  - intros U.
    destruct (Ex_imposeV_core CVx U) as (A1 & A2 & A3).
    destruct (Ex_imposeV_core CVy (Ex.imposeV CVx U)) as (B1 & B2 & B3).
    destruct (Ex_imposeV_core CVz (Ex.imposeV CVy (Ex.imposeV CVx U)))
      as (D1 & D2 & D3).
    repeat split;
      (eapply agree_trans; [eassumption|]);
      (eapply agree_trans; [eassumption|]); assumption.
Qed.

(** ** The statements above on the small configuration *)

Lemma solver_exit_witness :
  exists w',
    eulerCN_d3_cc.solve Ex.loose
      (eulerCN_d3_cc.unknownOf (Ex.collab 0%Qc) Ex.loose false eulerCN_d3_cc.SolveVx)
      Ex.world = Done tt w'.
Proof.
  destruct (solver_exit (Ex.collab 0%Qc) Ex.loose false eulerCN_d3_cc.SolveVx
              Ex.world) as (_ & HDone & _).
  eexists. apply HDone. exists 1%nat.
  split; [cbn; lia|]. split; [vm_compute; reflexivity|].
  split; [intros j Hj; lia | reflexivity].
Defined.

Lemma solver_sweep_count_witness :
  exists w',
    eulerCN_d3_cc.solve Ex.strict
      (eulerCN_d3_cc.unknownOf (Ex.collab 0%Qc) Ex.strict false eulerCN_d3_cc.SolveVx)
      Ex.world = Exited 0 w' /\
    Z.of_nat (occurrences (EvImposeVBC CVx) (trace w')
              - occurrences (EvImposeVBC CVx) (trace Ex.world)) = 3%Z.
Proof.
  eexists. split.
  - apply solve_never_below. vm_compute. discriminate.
  - apply (proj2 (solver_sweep_count (Ex.collab 0%Qc) Ex.strict false
                    eulerCN_d3_cc.SolveVx Ex.world) 0%Z).
    apply solve_never_below. vm_compute. discriminate.
Defined.

Lemma maxIterations_truncates_witness :
  (0 <= maxIterations
          (eulerCN_d3_ctor.constructor grid444 0%Qc 0%Qc 0%Qc 0%Qc))%Z.
Proof.
  refine (proj1 (maxIterations_truncates grid444 0%Qc 0%Qc 0%Qc 0%Qc _ _ _ _));
    cbn; lia.
Defined.

Lemma les_invocation_witness :
  exists w',
    result_world
      (eulerCN_d3_cc.timeAdvance_T (Ex.collab 0%Qc) Ex.les3 false Ex.world)
    = Some w' /\
    newCalls EvComputeSG_V Ex.world w' = 0%nat /\
    newCalls EvComputeSG_VT Ex.world w' = 0%nat /\
    subgridEnergy w' = 0%Qc.
Proof.
  destruct (proj2 (proj2 (les_invocation (Ex.collab 0%Qc) Ex.les3 false false
                            Ex.world))) as (w' & H1 & H2 & H3 & H4).
  exists w'. split; [exact H1|]. split; [exact H2|]. split; [exact H3 | exact H4].
Defined.

Lemma les_scalar_forwarding_witness :
  let wL := atLES_T (Ex.collab 0%Qc) Ex.les2 false Ex.world in
  exists w2,
    eulerCN_d3_cc.timeAdvance_T (Ex.collab 0%Qc) Ex.les2 false Ex.world
    = afterLES_T (Ex.collab 0%Qc) Ex.les2 false w2 /\
    tmpRHS w2
    = snd (fst (computeSG_VT (Ex.collab 0%Qc) (nseRHS wL) (tmpRHS wL) (V wL) (T wL))) /\
    Plainsf.F (tmpRHS w2) 0%nat 0%Z 0%Z 0%Z = 1%Qc.
Proof.
  intros wL.
  destruct (proj1 (les_scalar_forwarding (Ex.collab 0%Qc) Ex.les2 false Ex.world))
    as (w2 & H1 & H2 & _).
  exists w2. split; [exact H1|]. split; [exact H2|].
  rewrite H2. apply Qc_is_canon. vm_compute. reflexivity.
Defined.

Lemma sfield_operators_write_core_only_witness :
  Plainsf.F
    (snd (sfield_cc.computeDiff (Ex.collab 0%Qc) (mesh Ex.loose) false
            (T Ex.world) (Plainsf.mk Ex.ones)))
    0%nat (-1)%Z 0%Z 0%Z
  = Ex.ones 0%nat (-1)%Z 0%Z 0%Z.
Proof.
  exact (proj1 (proj1 (sfield_operators_write_core_only (Ex.collab 0%Qc)
                         (mesh Ex.loose) false (T Ex.world) (V Ex.world)
                         (Plainsf.mk Ex.ones) (nseRHS Ex.world)
                         0%nat (-1)%Z 0%Z 0%Z) eq_refl)).
Defined.

(** * Further properties of the field layer and of the time stepper *)

(** ** The wall slices of a field *)

Section WallSlices.

Variables F_lbound F_ubound : Blitz.TinyVector.
Variable core : Blitz.RectDomain.

Lemma setWallSlices_eq :
    field_walls.setWallSlices F_lbound F_ubound core
    = let '(lx, ly, lz) := F_lbound in
      let '(ux, uy, uz) := F_ubound in
      let '(cx, cy, cz) := Blitz.lbound core in
      let '(dx, dy, dz) := Blitz.ubound core in
      Blitz.mkRectDomain (cx - 1, ly, lz)%Z (cx - 1, uy, uz)%Z ::
      Blitz.mkRectDomain (dx + 1, ly, lz)%Z (dx + 1, uy, uz)%Z ::
      Blitz.mkRectDomain (lx, cy - 1, lz)%Z (ux, cy - 1, uz)%Z ::
      Blitz.mkRectDomain (lx, dy + 1, lz)%Z (ux, dy + 1, uz)%Z ::
      Blitz.mkRectDomain (lx, ly, cz - 1)%Z (ux, uy, cz - 1)%Z ::
      Blitz.mkRectDomain (lx, ly, dz + 1)%Z (ux, uy, dz + 1)%Z :: nil.
Proof.
    destruct F_lbound as [[lx ly] lz], F_ubound as [[ux uy] uz], core as [[[cx cy] cz] [[dx dy] dz]].
    reflexivity.
Qed.

End WallSlices.

Ltac walls_cases H :=
  rewrite setWallSlices_eq in H;
  repeat match goal with
         | v : Blitz.TinyVector |- _ => destruct v as [[? ?] ?]
         | d : Blitz.RectDomain |- _ => destruct d as [[[? ?] ?] [[? ?] ?]]
         end;
  cbn [Blitz.lbound Blitz.ubound] in H;
  cbn [In] in H;
  repeat match type of H with
         | _ \/ _ => destruct H as [H | H]
         end;
  try contradiction; inversion H; subst; clear H.

Ltac bools :=
  unfold Blitz.inDomain, Blitz.inRange in *;
  cbn [Blitz.lbound Blitz.ubound Blitz.tv_get] in *;
  repeat match goal with
         | H : _ && _ = true |- _ => apply andb_prop in H; destruct H
         | H : (_ <=? _)%Z = true |- _ => apply Z.leb_le in H
         end.

(** X1.  [setWallSlices] makes six slices, and each lies in the layer just
    outside the core, in the order left, right, front, back, bottom, top:
    every cell of slice 0 has [i = core.lbound(0) - 1], of slice 1
    [i = core.ubound(0) + 1], of slice 2 [j = core.lbound(1) - 1], of slice 3
    [j = core.ubound(1) + 1], of slice 4 [k = core.lbound(2) - 1] and of
    slice 5 [k = core.ubound(2) + 1].  So no cell of a wall slice is a cell
    of the core. *)
Theorem wall_slices_outside_core
    (F_lbound F_ubound : Blitz.TinyVector) (core : Blitz.RectDomain) :
  let walls := field_walls.setWallSlices F_lbound F_ubound core in
  List.length walls = 6%nat /\
  forall (n : nat) (W : Blitz.RectDomain) (i j k : Z),
    nth_error walls n = Some W ->
    Blitz.inDomain W i j k = true ->
    match n with
    | 0%nat => i = (Blitz.tv_get (Blitz.lbound core) 0 - 1)%Z
    | 1%nat => i = (Blitz.tv_get (Blitz.ubound core) 0 + 1)%Z
    | 2%nat => j = (Blitz.tv_get (Blitz.lbound core) 1 - 1)%Z
    | 3%nat => j = (Blitz.tv_get (Blitz.ubound core) 1 + 1)%Z
    | 4%nat => k = (Blitz.tv_get (Blitz.lbound core) 2 - 1)%Z
    | _ => k = (Blitz.tv_get (Blitz.ubound core) 2 + 1)%Z
    end /\
    Blitz.inDomain core i j k = false.
Proof.
  cbv zeta. rewrite setWallSlices_eq.
  destruct F_lbound as [[lx ly] lz], F_ubound as [[ux uy] uz],
    core as [[[cx cy] cz] [[dx dy] dz]].
  cbn [Blitz.lbound Blitz.ubound Blitz.tv_get].
  split; [reflexivity|].
  intros n W i j k HW Hin.
  destruct n as [|[|[|[|[|[|n]]]]]]; cbn [nth_error] in HW;
    try (destruct n; discriminate);
    injection HW as <-; bools;
    (split; [lia|]); apply not_true_iff_false; intros Hc; bools; lia.
Qed.

(** X2.  If the core is not empty and the array of the field reaches at
    least one cell beyond it on every side, every cell of a wall slice is a
    cell of the array. *)
Theorem wall_slices_inside_array
    (F_lbound F_ubound : Blitz.TinyVector) (core W : Blitz.RectDomain)
    (i j k : Z) :
  (forall d, (d < 3)%nat ->
     (Blitz.tv_get F_lbound d <= Blitz.tv_get (Blitz.lbound core) d - 1)%Z /\
     (Blitz.tv_get (Blitz.lbound core) d <= Blitz.tv_get (Blitz.ubound core) d)%Z /\
     (Blitz.tv_get (Blitz.ubound core) d + 1 <= Blitz.tv_get F_ubound d)%Z) ->
  In W (field_walls.setWallSlices F_lbound F_ubound core) ->
  Blitz.inDomain W i j k = true ->
  Blitz.inDomain (Blitz.mkRectDomain F_lbound F_ubound) i j k = true.
Proof.
  intros Hpad HW Hin.
  pose proof (Hpad 0%nat ltac:(lia)) as (Hx1 & Hx0 & Hx2).
  pose proof (Hpad 1%nat ltac:(lia)) as (Hy1 & Hy0 & Hy2).
  pose proof (Hpad 2%nat ltac:(lia)) as (Hz1 & Hz0 & Hz2).
  clear Hpad.
  walls_cases HW; bools;
    repeat (apply andb_true_intro; split); apply Z.leb_le; lia.
Qed.

(** X3.  The wall slices cover the shell around the core: a cell of the
    array that is not in the core and is at most one cell away from it in
    each direction (edges and corners included) lies in a wall slice. *)
Theorem wall_slices_cover_shell
    (F_lbound F_ubound : Blitz.TinyVector) (core : Blitz.RectDomain)
    (i j k : Z) :
  Blitz.inDomain (Blitz.mkRectDomain F_lbound F_ubound) i j k = true ->
  Blitz.inDomain core i j k = false ->
  Blitz.inDomain
    (Blitz.mkRectDomain
       ((Blitz.tv_get (Blitz.lbound core) 0 - 1)%Z,
        (Blitz.tv_get (Blitz.lbound core) 1 - 1)%Z,
        (Blitz.tv_get (Blitz.lbound core) 2 - 1)%Z)
       ((Blitz.tv_get (Blitz.ubound core) 0 + 1)%Z,
        (Blitz.tv_get (Blitz.ubound core) 1 + 1)%Z,
        (Blitz.tv_get (Blitz.ubound core) 2 + 1)%Z)) i j k = true ->
  existsb (fun W => Blitz.inDomain W i j k)
          (field_walls.setWallSlices F_lbound F_ubound core) = true.
Proof.
  intros Harr Hout Hshell. rewrite setWallSlices_eq.
  destruct F_lbound as [[lx ly] lz], F_ubound as [[ux uy] uz],
    core as [[[cx cy] cz] [[dx dy] dz]].
  cbn [Blitz.lbound Blitz.ubound existsb].
  apply not_true_iff_false in Hout.
  rewrite orb_false_r, !orb_true_iff.
  bools.
  rewrite !andb_true_iff, !Z.leb_le.
  destruct (Z.eq_dec i (cx - 1)); [left; lia|].
  destruct (Z.eq_dec i (dx + 1)); [right; left; lia|].
  destruct (Z.eq_dec j (cy - 1)); [do 2 right; left; lia|].
  destruct (Z.eq_dec j (dy + 1)); [do 3 right; left; lia|].
  destruct (Z.eq_dec k (cz - 1)); [do 4 right; left; lia|].
  destruct (Z.eq_dec k (dz + 1)); [do 5 right; lia|].
  exfalso. apply Hout.
  rewrite !andb_true_iff, !Z.leb_le. lia.
Qed.

(** ** [fieldMax] is the largest absolute value *)

Section FieldMax.

Local Open Scope Qc_scope.

Lemma range_In_iff (lo hi x : Z) :
    In x (Blitz.range lo hi) <-> Blitz.inRange lo hi x = true.
Proof.
    rewrite <- range_existsb. rewrite existsb_exists. split.
    - intros H. exists x. split; [exact H | apply Z.eqb_refl].
    - intros (y & Hy & Heq). apply Z.eqb_eq in Heq. now subst.
Qed.

Lemma inDomain_cells (d : Blitz.RectDomain) (i j k : Z) :
    Blitz.inDomain d i j k = true -> In (i, j, k) (Blitz.cells d).
Proof.
    unfold Blitz.inDomain, Blitz.cells. intros H.
    apply andb_prop in H as [H Hk]. apply andb_prop in H as [Hi Hj].
    apply in_flat_map. exists i. split; [now apply range_In_iff|].
    apply in_flat_map. exists j. split; [now apply range_In_iff|].
    apply in_map. now apply range_In_iff.
Qed.

Lemma Qcmax_ge_r (a b : Qc) : b <= Qcmax a b.
Proof.
    destruct (Qcmax_spec a b) as [[H ->] | [H ->]];
      [apply Qcle_refl | exact H].
Qed.

Lemma fold_Qcmax_mono (l : list Qc) :
    forall a b, a <= b -> fold_left Qcmax l a <= fold_left Qcmax l b.
Proof.
    induction l as [|x l IH]; intros a b Hab; simpl; [exact Hab|].
    apply IH.
    destruct (Qcmax_spec a x) as [[H ->] | [H ->]].
    - apply Qcmax_ge_r.
    - eapply Qcle_trans; [exact Hab | apply Qcmax_ge_l].
Qed.

Lemma fold_Qcmax_In (l : list Qc) :
    forall a x, In x l -> x <= fold_left Qcmax l a.
Proof.
    induction l as [|y l IH]; intros a x Hin; [contradiction|].
    simpl. destruct Hin as [-> | Hin].
    - eapply Qcle_trans; [apply (Qcmax_ge_r a) | apply fold_Qcmax_ge].
    - now apply IH.
Qed.

Lemma Blitz_max_ge (l : list Qc) (x : Qc) : In x l -> x <= Blitz.max l.
Proof.
    destruct l as [|y l]; [contradiction|]. intros [-> | Hin]; simpl.
    - apply fold_Qcmax_ge.
    - now apply fold_Qcmax_In.
Qed.

Lemma fold_Qcmax_attained (l : list Qc) :
    forall a, fold_left Qcmax l a = a \/ In (fold_left Qcmax l a) l.
Proof.
    induction l as [|y l IH]; intros a; simpl; [now left|].
    destruct (IH (Qcmax a y)) as [H | H]; [|now right; right].
    rewrite H.
    destruct (Qcmax_spec a y) as [[_ ->] | [_ ->]]; [right; now left | now left].
Qed.

Lemma Blitz_max_In (l : list Qc) : l <> nil -> In (Blitz.max l) l.
Proof.
    destruct l as [|y l]; [congruence|]. intros _. simpl.
    destruct (fold_Qcmax_attained l y) as [-> | H]; [now left | now right].
Qed.

  (** The ranks of a communicator of size [np] *)
Lemma Allreduce_MAX_ge (np : nat) (loc : nat -> Qc) (r : nat) :
    (r < np)%nat -> loc r <= MPI.Allreduce_MAX np loc.
Proof.
    intros Hr. unfold MPI.Allreduce_MAX.
    destruct r as [|r]; [apply fold_Qcmax_ge|].
    apply fold_Qcmax_In, in_map, in_seq. lia.
Qed.

Lemma Allreduce_MAX_attained (np : nat) (loc : nat -> Qc) :
    (0 < np)%nat ->
    exists r, (r < np)%nat /\ MPI.Allreduce_MAX np loc = loc r.
Proof.
    intros Hnp. unfold MPI.Allreduce_MAX.
    destruct (fold_Qcmax_attained (map loc (seq 1 (np - 1))) (loc O)) as [H | H].
    - exists O. split; [exact Hnp | exact H].
    - apply in_map_iff in H as (r & Hr & Hin). apply in_seq in Hin.
      exists r. split; [lia | now rewrite Hr].
Qed.

Variable gridData : grid.

Lemma localMax_ge (A : Blitz.Array) (i j k : Z) :
    Blitz.inDomain (fullDomain gridData) i j k = true ->
    Qcabs (A i j k)
    <= Blitz.max (map Qcabs (Blitz.slice A (fullDomain gridData))).
Proof.
    intros Hin. apply Blitz_max_ge.
    apply in_map. unfold Blitz.slice.
    change (A i j k) with (Blitz.at_ A (i, j, k)).
    apply in_map. now apply inDomain_cells.
Qed.

Lemma localMax_attained (A : Blitz.Array) (i0 j0 k0 : Z) :
    Blitz.inDomain (fullDomain gridData) i0 j0 k0 = true ->
    exists i j k,
      Blitz.inDomain (fullDomain gridData) i j k = true /\
      Blitz.max (map Qcabs (Blitz.slice A (fullDomain gridData)))
      = Qcabs (A i j k).
Proof.
    intros Hin.
    assert (Hne : map Qcabs (Blitz.slice A (fullDomain gridData)) <> nil).
    { apply inDomain_cells in Hin. unfold Blitz.slice.
      destruct (Blitz.cells (fullDomain gridData)); [contradiction | discriminate]. }
    apply Blitz_max_In in Hne.
    apply in_map_iff in Hne as (x & Hx & Hin').
    unfold Blitz.slice in Hin'.
    apply in_map_iff in Hin' as ([[i j] k] & Hc & Hcell).
    exists i, j, k. split; [now apply cells_inDomain|].
    rewrite <- Hx, <- Hc. reflexivity.
Qed.

Lemma fieldMax_ge (f : Field.t) (r : nat) (i j k : Z) :
    (r < nProc gridData)%nat ->
    Blitz.inDomain (fullDomain gridData) i j k = true ->
    Qcabs (Field.F f r i j k) <= field_cc.fieldMax gridData f.
Proof.
    intros Hr Hin. unfold field_cc.fieldMax.
    eapply Qcle_trans; [apply (localMax_ge (Field.F f r)), Hin|].
    apply (Allreduce_MAX_ge (nProc gridData)
             (fun r => Blitz.max (map Qcabs
                (Blitz.slice (Field.F f r) (fullDomain gridData))))).
    exact Hr.
Qed.

Lemma fieldMax_is_cell (f : Field.t) (i0 j0 k0 : Z) :
    (0 < nProc gridData)%nat ->
    Blitz.inDomain (fullDomain gridData) i0 j0 k0 = true ->
    exists r i j k,
      (r < nProc gridData)%nat /\
      Blitz.inDomain (fullDomain gridData) i j k = true /\
      field_cc.fieldMax gridData f = Qcabs (Field.F f r i j k).
Proof.
    intros Hnp Hin. unfold field_cc.fieldMax.
    destruct (Allreduce_MAX_attained (nProc gridData)
                (fun r => Blitz.max (map Qcabs
                   (Blitz.slice (Field.F f r) (fullDomain gridData)))) Hnp)
      as (r & Hr & ->).
    destruct (localMax_attained (Field.F f r) i0 j0 k0 Hin) as (i & j & k & Hc & ->).
    now exists r, i, j, k.
Qed.

End FieldMax.

(** X4.  [fieldMax] bounds every value of the field: on every rank of the
    communicator and at every cell of the array, the absolute value of the
    field is at most [fieldMax]. *)
Theorem fieldMax_upper_bound
    (gridData : grid) (f : Field.t) (r : nat) (i j k : Z) :
  (r < nProc gridData)%nat ->
  Blitz.inDomain (fullDomain gridData) i j k = true ->
  (Qcabs (Field.F f r i j k) <= field_cc.fieldMax gridData f)%Qc.
Proof. apply fieldMax_ge. Qed.

(** X5.  [fieldMax] is attained: with at least one rank and a non-empty
    array, it is the absolute value of the field at some cell of some rank
    (so it is never negative). *)
Theorem fieldMax_attained
    (gridData : grid) (f : Field.t) (i0 j0 k0 : Z) :
  (0 < nProc gridData)%nat ->
  Blitz.inDomain (fullDomain gridData) i0 j0 k0 = true ->
  (exists r i j k,
     (r < nProc gridData)%nat /\
     Blitz.inDomain (fullDomain gridData) i j k = true /\
     field_cc.fieldMax gridData f = Qcabs (Field.F f r i j k)) /\
  (0 <= field_cc.fieldMax gridData f)%Qc.
Proof.
  intros Hnp Hin.
  destruct (fieldMax_is_cell gridData f i0 j0 k0 Hnp Hin)
    as (r & i & j & k & Hr & Hc & Heq).
  split; [now exists r, i, j, k|].
  rewrite Heq. apply Qcabs_nonneg.
Qed.

(** X6.  After [F = a] ([field::operator = (real)], and the constructor's
    [F = 0.0]) the maximum of a field over a non-empty array is [|a|]. *)
Theorem fieldMax_assign_real
    (gridData : grid) (f : Field.t) (a : real) (i0 j0 k0 : Z) :
  (0 < nProc gridData)%nat ->
  Blitz.inDomain (fullDomain gridData) i0 j0 k0 = true ->
  field_cc.fieldMax gridData (field_cc.assign_real f a) = Qcabs a.
Proof.
  intros Hnp Hin.
  destruct (fieldMax_is_cell gridData (field_cc.assign_real f a) i0 j0 k0 Hnp Hin)
    as (r & i & j & k & _ & _ & ->).
  reflexivity.
Qed.

(** X7.  The triangle inequality for [+=] and [-=] between fields:
    [fieldMax] of the sum, and of the difference, is at most the sum of the
    two maxima. *)
Theorem fieldMax_triangle
    (gridData : grid) (f g : Field.t) (i0 j0 k0 : Z) :
  (0 < nProc gridData)%nat ->
  Blitz.inDomain (fullDomain gridData) i0 j0 k0 = true ->
  (field_cc.fieldMax gridData (field_cc.add_assign f g)
   <= field_cc.fieldMax gridData f + field_cc.fieldMax gridData g)%Qc /\
  (field_cc.fieldMax gridData (field_cc.sub_assign f g)
   <= field_cc.fieldMax gridData f + field_cc.fieldMax gridData g)%Qc.
Proof.
  intros Hnp Hin. split.
  - destruct (fieldMax_is_cell gridData (field_cc.add_assign f g) i0 j0 k0 Hnp Hin)
      as (r & i & j & k & Hr & Hc & ->).
    cbn. unfold dzip, Blitz.zipWith.
    eapply Qcle_trans; [apply Qcabs_triangle|].
    apply Qcplus_le_compat; now apply fieldMax_ge.
  - destruct (fieldMax_is_cell gridData (field_cc.sub_assign f g) i0 j0 k0 Hnp Hin)
      as (r & i & j & k & Hr & Hc & ->).
    cbn. unfold dzip, Blitz.zipWith.
    eapply Qcle_trans; [apply Qcabs_triangle|].
    rewrite Qcabs_opp.
    apply Qcplus_le_compat; now apply fieldMax_ge.
Qed.

(** ** The algebra of the field operators *)

Ltac darray_ext :=
  let r := fresh "r" in let i := fresh "i" in
  let j := fresh "j" in let k := fresh "k" in
  extensionality r; extensionality i; extensionality j; extensionality k;
  unfold dzip, dmap, dfill, Blitz.zipWith, Blitz.mapWith, Blitz.fill.

(** X10.  [plainvf::multAdd] with the factors 1, -1 and 0 is [+=], [-=] and
    no change. *)
Theorem multAdd_special_factors (this a : Plainvf.t) :
  plainvf_cc.multAdd this a 1%Qc = plainvf_cc.add_assign this a /\
  plainvf_cc.multAdd this a (- (1))%Qc = plainvf_cc.sub_assign this a /\
  plainvf_cc.multAdd this a 0%Qc = this.
Proof.
  destruct this as [X Y Z], a as [AX AY AZ].
  unfold plainvf_cc.multAdd, plainvf_cc.add_assign, plainvf_cc.sub_assign.
  cbn [Plainvf.Vx Plainvf.Vy Plainvf.Vz].
  repeat split; f_equal; darray_ext; qc_ring.
Qed.

(** X12.  [plainvf]: the operators taking a [vfield] read its three arrays
    [Vx.F], [Vy.F], [Vz.F] and nothing else of it: [= V] followed by [-= V]
    is [= 0.0] (for finite values), and [+= V], [-= V] are [+=], [-=] of a
    plain field assigned from [V]. *)
Theorem plainvf_vfield_operators (this other : Plainvf.t) (U : Vfield.t) :
  plainvf_cc.sub_assign_vfield (plainvf_cc.assign_vfield this U) U
  = plainvf_cc.assign_real this 0%Qc /\
  plainvf_cc.add_assign_vfield this U
  = plainvf_cc.add_assign this (plainvf_cc.assign_vfield other U) /\
  plainvf_cc.sub_assign_vfield this U
  = plainvf_cc.sub_assign this (plainvf_cc.assign_vfield other U).
Proof.
  destruct this as [X Y Z], other as [OX OY OZ], U as [[UX nx] [UY ny] [UZ nz]].
  unfold plainvf_cc.sub_assign_vfield, plainvf_cc.assign_vfield,
    plainvf_cc.assign_real, plainvf_cc.add_assign_vfield, plainvf_cc.add_assign,
    plainvf_cc.sub_assign.
  cbn [Plainvf.Vx Plainvf.Vy Plainvf.Vz Vfield.Vx Vfield.Vy Vfield.Vz Field.F].
  repeat split; f_equal; darray_ext; qc_ring.
Qed.

(** ** What the methods of [sfield] leave alone *)

(** X13.  [computeDiff], [computeNLin] and [gradient] do not change the
    scalar field they are called on: its array and its name are as before,
    and only the scratch array [derivTemp] is overwritten; it holds the
    derivative along z, the last one computed. *)
Theorem sfield_derivatives_keep_field
    (E : Collaborators) (gridData : grid) (PLANAR : bool)
    (this : Sfield.t) (U : Vfield.t) (H : Plainsf.t) (gradF : Plainvf.t) :
  let D := fst (sfield_cc.computeDiff E gridData PLANAR this H) in
  let N := fst (sfield_cc.computeNLin E gridData PLANAR this U H) in
  let G := fst (sfield_cc.gradient E gridData PLANAR this gradF) in
  let F := Field.F (Sfield.F this) in
  (Sfield.F D = Sfield.F this /\ Sfield.fieldName D = Sfield.fieldName this /\
   Sfield.derivTemp D = calcDerivative2zz E F (dfill 0%Qc)) /\
  (Sfield.F N = Sfield.F this /\ Sfield.fieldName N = Sfield.fieldName this /\
   Sfield.derivTemp N = calcDerivative1_z E F (dfill 0%Qc)) /\
  (Sfield.F G = Sfield.F this /\ Sfield.fieldName G = Sfield.fieldName this /\
   Sfield.derivTemp G = calcDerivative1_z E F (dfill 0%Qc)).
Proof.
  cbv zeta.
  unfold sfield_cc.computeDiff, sfield_cc.computeNLin, sfield_cc.gradient.
  destruct PLANAR; repeat split.
Qed.

(** X14.  [imposeBCs] rewrites pads and walls only: if the halo exchange and
    the wall objects write outside the core, every core cell of the field is
    as before; the scratch array and the names are as before in any case. *)
Theorem imposeBCs_keeps_core
    (E : Collaborators) (gridData : grid) (PLANAR : bool) (this : Sfield.t) :
  respectsCore E (coreDomain gridData) ->
  let this' := fst (sfield_cc.imposeBCs E gridData PLANAR this) in
  agree (coreDomain gridData)
        (Field.F (Sfield.F this')) (Field.F (Sfield.F this)) /\
  Sfield.derivTemp this' = Sfield.derivTemp this /\
  Sfield.fieldName this' = Sfield.fieldName this /\
  Field.fieldName (Sfield.F this') = Field.fieldName (Sfield.F this).
Proof.
  intros (Hsync & Hbc & _). cbv zeta. split; [|split; [|split]].
  - rewrite imposeBCs_array. cbv zeta.
    destruct (negb (xPer (inputParams gridData))),
             (negb PLANAR && negb (yPer (inputParams gridData)));
      repeat (eapply agree_trans; [apply Hbc|]); apply Hsync.
  - unfold sfield_cc.imposeBCs.
    destruct (negb (xPer (inputParams gridData))), (negb PLANAR),
             (negb (yPer (inputParams gridData))); reflexivity.
  - apply imposeBCs_fieldName.
  - unfold sfield_cc.imposeBCs.
    destruct (negb (xPer (inputParams gridData))), (negb PLANAR),
             (negb (yPer (inputParams gridData))); reflexivity.
Qed.

(** ** The Jacobi iteration and the equation it solves *)

Section FixedPoint.

Local Open Scope Qc_scope.





End FixedPoint.



(** ** What a solver guarantees when it returns *)

Section SolverPost.

Local Open Scope Qc_scope.

Variable E : Collaborators.
Variable ts : eulerCN_d3.
Variable PLANAR : bool.

Lemma gloMax_ge (alpha : real) (phi rhs temp : DArray) (r : nat) (i j k : Z) :
    (r < nProc (mesh ts))%nat ->
    Blitz.inDomain (coreDomain (mesh ts)) i j k = true ->
    Qcabs (eulerCN_d3_cc.jacobiDefect ts alpha r (phi r) i j k - rhs r i j k)
    <= MPI.Allreduce_MAX (nProc (mesh ts)) (fun r =>
         Blitz.max
           (Blitz.slice
              (dOnDomain (eulerCN_d3_cc.core ts) (fun t b => Qcabs (t - b))
                 (eulerCN_d3_cc.loopNest ts
                    (fun r => eulerCN_d3_cc.jacobiDefect ts alpha r (phi r)) temp)
                 rhs r)
              (eulerCN_d3_cc.core ts))).
Proof.
    intros Hr Hc.
    match goal with
    | |- _ <= MPI.Allreduce_MAX ?np ?loc =>
        eapply Qcle_trans; [|apply (Allreduce_MAX_ge np loc r Hr)]
    end.
    cbv beta. apply Blitz_max_ge. unfold Blitz.slice.
    apply in_map_iff. exists (i, j, k). split; [|now apply inDomain_cells].
    simpl. unfold dOnDomain, Blitz.onDomain.
    rewrite loopNest_pointwise. unfold eulerCN_d3_cc.core. now rewrite Hc.
Qed.

Variable s : eulerCN_d3_cc.Solver.

Let u := eulerCN_d3_cc.unknownOf E ts PLANAR s.

Lemma sweep_gloMax_ge (w : World) (r : nat) (i j k : Z) :
    (r < nProc (mesh ts))%nat ->
    Blitz.inDomain (coreDomain (mesh ts)) i j k = true ->
    Qcabs (eulerCN_d3_cc.jacobiDefect ts (eulerCN_d3_cc.u_alpha u) r
             (eulerCN_d3_cc.u_get u (fst (eulerCN_d3_cc.sweep ts u w)) r) i j k
           - eulerCN_d3_cc.u_rhs u w r i j k)
    <= snd (eulerCN_d3_cc.sweep ts u w).
Proof.
    intros Hr Hc. subst u.
    destruct s; unfold eulerCN_d3_cc.sweep, eulerCN_d3_cc.imposeVBC;
      cbn -[sfield_cc.imposeBCs eulerCN_d3_cc.loopNest];
      rewrite ?runOn_eq;
      cbn -[sfield_cc.imposeBCs eulerCN_d3_cc.loopNest];
      apply gloMax_ge; assumption.
Qed.

  (** A sweep assigns to the unknown, to its scratch array and to the trace *)
Lemma sweep_solverFrame (w : World) :
    solverFrame s w (fst (eulerCN_d3_cc.sweep ts u w)).
Proof.
    subst u.
    destruct s; unfold eulerCN_d3_cc.sweep, eulerCN_d3_cc.imposeVBC;
      cbn -[sfield_cc.imposeBCs eulerCN_d3_cc.loopNest];
      rewrite ?runOn_eq;
      cbn -[sfield_cc.imposeBCs eulerCN_d3_cc.loopNest];
      repeat split.
Qed.

Lemma solverFrame_refl (w : World) : solverFrame s w w.
Proof. unfold solverFrame. destruct s; repeat split. Qed.

Lemma solverFrame_trans (w1 w2 w3 : World) :
    solverFrame s w1 w2 -> solverFrame s w2 w3 -> solverFrame s w1 w3.
Proof.
    unfold solverFrame.
    intros (A1 & A2 & A3 & A4 & A5 & A6 & A7 & A8)
           (B1 & B2 & B3 & B4 & B5 & B6 & B7 & B8).
    rewrite B1, B2, B3, B4, B5, B6, B7.
    repeat (split; [assumption|]).
    destruct s; destruct A8 as (C1 & C2 & C3 & C4), B8 as (D1 & D2 & D3 & D4);
      rewrite D1, D2, D3, D4; now repeat split.
Qed.

Lemma after_sweeps_solverFrame (k : nat) (w : World) :
    solverFrame s w (after_sweeps ts u k w).
Proof.
    induction k as [|k IH]; [apply solverFrame_refl|].
    change (after_sweeps ts u (S k) w)
      with (fst (eulerCN_d3_cc.sweep ts u (after_sweeps ts u k w))).
    eapply solverFrame_trans; [exact IH | apply sweep_solverFrame].
Qed.

Lemma aborted_solverFrame (w : World) : solverFrame s w (aborted u w).
Proof. unfold solverFrame. destruct s; repeat split. Qed.

Lemma solverFrame_rhs (w w' : World) :
    solverFrame s w w' -> eulerCN_d3_cc.u_rhs u w' = eulerCN_d3_cc.u_rhs u w.
Proof.
    intros (_ & _ & H3 & H4 & _). subst u.
    destruct s; cbn; now rewrite ?H3, ?H4.
Qed.

  (** The scratch array outside the core *)
Lemma sweep_temp_outside (w : World) (r : nat) (i j k : Z) :
    Blitz.inDomain (coreDomain (mesh ts)) i j k = false ->
    eulerCN_d3_cc.u_temp u (fst (eulerCN_d3_cc.sweep ts u w)) r i j k
    = eulerCN_d3_cc.u_temp u w r i j k.
Proof.
    intros Hc. subst u.
    destruct s; unfold eulerCN_d3_cc.sweep, eulerCN_d3_cc.imposeVBC;
      cbn -[sfield_cc.imposeBCs eulerCN_d3_cc.loopNest];
      rewrite ?runOn_eq;
      cbn -[sfield_cc.imposeBCs eulerCN_d3_cc.loopNest];
      unfold dOnDomain, Blitz.onDomain, eulerCN_d3_cc.core;
      rewrite Hc, !loopNest_pointwise; unfold eulerCN_d3_cc.core;
      now rewrite Hc.
Qed.

Lemma after_sweeps_temp_outside (n : nat) (w : World) (r : nat) (i j k : Z) :
    Blitz.inDomain (coreDomain (mesh ts)) i j k = false ->
    eulerCN_d3_cc.u_temp u (after_sweeps ts u n w) r i j k
    = eulerCN_d3_cc.u_temp u w r i j k.
Proof.
    intros Hc. induction n as [|n IH]; [reflexivity|].
    change (after_sweeps ts u (S n) w)
      with (fst (eulerCN_d3_cc.sweep ts u (after_sweeps ts u n w))).
    now rewrite sweep_temp_outside.
Qed.

Lemma solve_ends (w w' : World) :
    result_world (eulerCN_d3_cc.solve ts u w) = Some w' ->
    exists n, w' = after_sweeps ts u n w \/ w' = aborted u (after_sweeps ts u n w).
Proof.
    destruct (solve_run ts u w) as [(n & _ & _ & _ & ->) | (_ & ->)];
      cbn [result_world]; intros H; injection H as <-.
    - exists n. now left.
    - exists (S (Z.to_nat (maxIterations ts))). now right.
Qed.

End SolverPost.

(** X16.  When a solver returns, the implicit equation holds to within the
    tolerance: on every rank and at every cell of the core, the defect of the
    returned field differs from the right-hand side by less than
    [cnTolerance]; and the right-hand side is the one the solver was given. *)
Theorem solver_returns_within_tolerance
    (E : Collaborators) (ts : eulerCN_d3) (PLANAR : bool)
    (s : eulerCN_d3_cc.Solver) (w w' : World) (r : nat) (i j k : Z) :
  let u := eulerCN_d3_cc.unknownOf E ts PLANAR s in
  let alpha := match s with eulerCN_d3_cc.SolveT => kappa ts | _ => nu ts end in
  eulerCN_d3_cc.solve ts u w = Done tt w' ->
  (r < nProc (mesh ts))%nat ->
  Blitz.inDomain (coreDomain (mesh ts)) i j k = true ->
  eulerCN_d3_cc.u_rhs u w' = eulerCN_d3_cc.u_rhs u w /\
  (Qcabs (eulerCN_d3_cc.jacobiDefect ts alpha r (eulerCN_d3_cc.u_get u w' r) i j k
          - eulerCN_d3_cc.u_rhs u w' r i j k)
   < cnTolerance (inputParams (mesh ts)))%Qc.
Proof.
  cbv zeta. intros Hrun Hr Hc.
  apply solve_Done_iff in Hrun as (n & Hn & Hb & _ & ->).
  assert (Hrhs : forall m,
             eulerCN_d3_cc.u_rhs (eulerCN_d3_cc.unknownOf E ts PLANAR s)
               (after_sweeps ts (eulerCN_d3_cc.unknownOf E ts PLANAR s) m w)
             = eulerCN_d3_cc.u_rhs (eulerCN_d3_cc.unknownOf E ts PLANAR s) w).
  { intros m.
    exact (solverFrame_rhs E ts PLANAR s w _
             (after_sweeps_solverFrame E ts PLANAR s m w)). }
  split; [apply Hrhs|].
  destruct n as [|n]; [lia|].
  unfold below_tolerance, gloMax_of_sweep in Hb.
  replace (S n - 1)%nat with n in Hb by lia.
  apply Qcltb_lt in Hb.
  eapply Qcle_lt_trans; [|exact Hb].
  rewrite Hrhs, <- (Hrhs n).
  change (after_sweeps ts (eulerCN_d3_cc.unknownOf E ts PLANAR s) (S n) w)
    with (fst (eulerCN_d3_cc.sweep ts (eulerCN_d3_cc.unknownOf E ts PLANAR s)
                 (after_sweeps ts (eulerCN_d3_cc.unknownOf E ts PLANAR s) n w))).
  replace (match s with eulerCN_d3_cc.SolveT => kappa ts | _ => nu ts end)
    with (eulerCN_d3_cc.u_alpha (eulerCN_d3_cc.unknownOf E ts PLANAR s))
    by (now destruct s).
  now apply sweep_gloMax_ge.
Qed.

(** X17.  A solver assigns to its unknown, to its own scratch array, to the
    standard output and to the trace, and to nothing else: however it ends,
    the pressure, the pressure correction, both right-hand sides, the
    pressure gradient, the multigrid right-hand side, the stored sub-grid
    energy, the scratch arrays of the other solvers and the field that is not
    its unknown ([T] for the velocity solvers, [V] for [solveT]) are as they
    were. *)
Theorem solver_frame
    (E : Collaborators) (ts : eulerCN_d3) (PLANAR : bool)
    (s : eulerCN_d3_cc.Solver) (w w' : World) :
  result_world
    (eulerCN_d3_cc.solve ts (eulerCN_d3_cc.unknownOf E ts PLANAR s) w) = Some w' ->
  solverFrame s w w'.
Proof.
  intros H. apply solve_ends in H as (n & [-> | ->]).
  - exact (after_sweeps_solverFrame E ts PLANAR s n w).
  - exact (solverFrame_trans E ts PLANAR s _ _ _
             (after_sweeps_solverFrame E ts PLANAR s n w)
             (aborted_solverFrame E ts PLANAR s _)).
Qed.

(** X18.  The scratch array of a solver is written in the core only: however
    the solver ends, every cell outside the core holds what it held when the
    solver was called.  (Each sweep copies the whole scratch array into the
    unknown, so this is the value the pads and walls of the unknown take
    before the boundary call.) *)
Theorem solver_scratch_outside_core
    (E : Collaborators) (ts : eulerCN_d3) (PLANAR : bool)
    (s : eulerCN_d3_cc.Solver) (w w' : World) (r : nat) (i j k : Z) :
  let u := eulerCN_d3_cc.unknownOf E ts PLANAR s in
  result_world (eulerCN_d3_cc.solve ts u w) = Some w' ->
  Blitz.inDomain (coreDomain (mesh ts)) i j k = false ->
  eulerCN_d3_cc.u_temp u w' r i j k = eulerCN_d3_cc.u_temp u w r i j k.
Proof.
  cbv zeta. intros H Hc. apply solve_ends in H as (n & [-> | ->]).
  - now apply after_sweeps_temp_outside.
  - etransitivity; [|now apply (after_sweeps_temp_outside E ts PLANAR s n)].
    now destruct s.
Qed.

(** ** The coefficients set by the constructor *)

Section Coefficients.

Local Open Scope Qc_scope.







End Coefficients.




(** ** How a time step ends *)

Section TripleRules.

Lemma triple_bind {A B : Type} (I Mid Q X : World -> Prop)
      (c : M A) (k : A -> M B) :
    triple I c Mid X -> (forall a, triple Mid (k a) Q X) ->
    triple I (bind c k) Q X.
Proof.
    intros Hc Hk w Hw. apply wp_bind.
    eapply wp_mono; [apply Hc, Hw | | auto].
    intros a w' Hw'. now apply Hk.
Qed.

Lemma triple_ret {A : Type} (I Q X : World -> Prop) (a : A) :
    (forall w, I w -> Q w) -> triple I (ret a) Q X.
Proof. intros H w Hw. now apply H. Qed.

Lemma triple_modify (I Q X : World -> Prop) (f : World -> World) :
    (forall w, I w -> Q (f w)) -> triple I (modify f) Q X.
Proof. intros H w Hw. now apply H. Qed.

Lemma triple_whenM (I X : World -> Prop) (b : bool) (c : M unit) :
    triple I c I X -> triple I (whenM b c) I X.
Proof. intros H. destruct b; [exact H | now apply triple_ret]. Qed.

Lemma triple_if {A : Type} (I Q X : World -> Prop) (b : bool) (c1 c2 : M A) :
    triple I c1 Q X -> triple I c2 Q X -> triple I (if b then c1 else c2) Q X.
Proof. now destruct b. Qed.

Lemma triple_pre {A : Type} (I I' Q X : World -> Prop) (c : M A) :
    (forall w, I w -> I' w) -> triple I' c Q X -> triple I c Q X.
Proof. intros H Hc w Hw. now apply Hc, H. Qed.

Lemma triple_solve (I X : World -> Prop) (ts : eulerCN_d3)
      (u : eulerCN_d3_cc.Unknown) :
    (forall w, I w -> I (fst (eulerCN_d3_cc.sweep ts u w))) ->
    (forall w, I w -> X (aborted u w)) ->
    triple I (eulerCN_d3_cc.solve ts u) I X.
Proof.
    intros Hsweep Habort w Hw.
    assert (Hk : forall k, I (after_sweeps ts u k w)).
    { induction k as [|k IH]; [exact Hw|]. now apply Hsweep. }
    unfold wp.
    destruct (solve_run ts u w) as [(k & _ & _ & _ & ->) | (_ & ->)].
    - apply Hk.
    - apply Habort, Hk.
Qed.

Lemma triple_result {A : Type} (I Q X : World -> Prop) (c : M A) (w : World) :
    triple I c Q X -> I w ->
    (exists a w', c w = Done a w' /\ Q w') \/
    (exists st w', c w = Exited st w' /\ X w').
Proof.
    intros H Hw. specialize (H w Hw). unfold wp in H.
    destruct (c w) as [a w'| st w'|]; [left | right | contradiction].
    - now exists a, w'.
    - now exists st, w'.
Qed.

  (** Exit statuses *)

Lemma exitsWith_bind {A B : Type} (st : Z) (c : M A) (k : A -> M B) :
    exitsWith st c -> (forall a, exitsWith st (k a)) -> exitsWith st (bind c k).
Proof.
    intros Hc Hk w st' w'. unfold bind.
    destruct (c w) as [a w1| st1 w1|] eqn:Hcw; intros H.
    - now apply (Hk a w1 st' w').
    - inversion H; subst. now apply (Hc w st' w').
    - discriminate.
Qed.

Lemma exitsWith_ret {A : Type} (st : Z) (a : A) : exitsWith st (ret a).
Proof. intros w st' w' H. discriminate. Qed.

Lemma exitsWith_modify (st : Z) (f : World -> World) :
    exitsWith st (modify f).
Proof. intros w st' w' H. discriminate. Qed.

Lemma exitsWith_get (st : Z) : exitsWith st get.
Proof. intros w st' w' H. discriminate. Qed.

Lemma exitsWith_whenM (st : Z) (b : bool) (c : M unit) :
    exitsWith st c -> exitsWith st (whenM b c).
Proof. intros H. destruct b; [exact H | apply exitsWith_ret]. Qed.

Lemma exitsWith_if {A : Type} (st : Z) (b : bool) (c1 c2 : M A) :
    exitsWith st c1 -> exitsWith st c2 -> exitsWith st (if b then c1 else c2).
Proof. now destruct b. Qed.

Lemma exitsWith_solve (E : Collaborators) (ts : eulerCN_d3) (PLANAR : bool)
      (s : eulerCN_d3_cc.Solver) :
    exitsWith 0 (eulerCN_d3_cc.solve ts (eulerCN_d3_cc.unknownOf E ts PLANAR s)).
Proof.
    intros w st' w' H. now apply solve_Exited_iff in H as (_ & -> & _).
Qed.

Lemma exitsWith_callComputeSG_V (E : Collaborators) (st : Z) :
    exitsWith st (eulerCN_d3_cc.callComputeSG_V E).
Proof.
    intros w st' w'. unfold eulerCN_d3_cc.callComputeSG_V, bind, get.
    destruct (computeSG_V E (nseRHS w) (V w)). discriminate.
Qed.

Lemma exitsWith_callComputeSG_VT (E : Collaborators) (st : Z) :
    exitsWith st (eulerCN_d3_cc.callComputeSG_VT E).
Proof.
    intros w st' w'. unfold eulerCN_d3_cc.callComputeSG_VT, bind, get.
    destruct (computeSG_VT E (nseRHS w) (tmpRHS w) (V w) (T w)) as [[? ?] ?].
    discriminate.
Qed.

End TripleRules.

(** Walks a sequence of statements and shows that it exits with status 0 *)
Ltac exits_walk E ts PLANAR :=
  lazymatch goal with
  | |- exitsWith _ (ret _) => apply exitsWith_ret
  | |- exitsWith _ (bind _ _) =>
      apply exitsWith_bind; [exits_walk E ts PLANAR | intros ?; exits_walk E ts PLANAR]
  | |- exitsWith _ (whenM _ _) => apply exitsWith_whenM; exits_walk E ts PLANAR
  | |- exitsWith _ (if _ then _ else _) =>
      apply exitsWith_if; exits_walk E ts PLANAR
  | |- exitsWith _ (eulerCN_d3_cc.solveVx _ _) =>
      apply (exitsWith_solve E ts PLANAR eulerCN_d3_cc.SolveVx)
  | |- exitsWith _ (eulerCN_d3_cc.solveVy _ _) =>
      apply (exitsWith_solve E ts PLANAR eulerCN_d3_cc.SolveVy)
  | |- exitsWith _ (eulerCN_d3_cc.solveVz _ _) =>
      apply (exitsWith_solve E ts PLANAR eulerCN_d3_cc.SolveVz)
  | |- exitsWith _ (eulerCN_d3_cc.solveT _ _ _) =>
      apply (exitsWith_solve E ts PLANAR eulerCN_d3_cc.SolveT)
  | |- exitsWith _ (eulerCN_d3_cc.callComputeSG_V _) =>
      apply exitsWith_callComputeSG_V
  | |- exitsWith _ (eulerCN_d3_cc.callComputeSG_VT _) =>
      apply exitsWith_callComputeSG_VT
  | |- exitsWith _ (run _ _ _) => apply exitsWith_modify
  | |- exitsWith _ (modify _) => apply exitsWith_modify
  end.

Section ExitStatus.

Variable E : Collaborators.
Variable ts : eulerCN_d3.
Variable PLANAR : bool.
Variable TEST_POISSON : bool.

Lemma timeAdvance_exitsWith :
    exitsWith 0 (eulerCN_d3_cc.timeAdvance E ts PLANAR TEST_POISSON).
Proof.
    unfold eulerCN_d3_cc.timeAdvance, eulerCN_d3_cc.project,
      eulerCN_d3_cc.correct, eulerCN_d3_cc.callMgSolve,
      eulerCN_d3_cc.gradient_into_pressureGradient, emit.
    exits_walk E ts PLANAR.
Qed.

Lemma timeAdvance_T_exitsWith :
    exitsWith 0 (eulerCN_d3_cc.timeAdvance_T E ts PLANAR).
Proof.
    unfold eulerCN_d3_cc.timeAdvance_T, eulerCN_d3_cc.project,
      eulerCN_d3_cc.correct, eulerCN_d3_cc.callMgSolve,
      eulerCN_d3_cc.gradient_into_pressureGradient, emit.
    exits_walk E ts PLANAR.
Qed.

End ExitStatus.

Ltac split_pairs :=
  repeat match goal with
         | |- context [let (_, _) := ?p in _] => destruct p
         end.

(** A statement that assigns to members an invariant does not speak of *)
Ltac step_pure :=
  apply triple_modify;
  let w := fresh "w" in let H := fresh "H" in
  intros w H; unfold stepRunning, stepQuiet in *; split_pairs; exact H.

Section StepEnds.

Variable E : Collaborators.
Variable ts : eulerCN_d3.
Variable PLANAR : bool.

Variables nMg nFin : nat.
Variable out : nat -> list string.
Variable pF : Field.t.
Variable pp : Sfield.t.

Let R := stepRunning nMg nFin out pF pp.
Let X := stepAborted nMg nFin out pF pp.

Lemma quiet_boundary (n : nat) (w : World) (tr : Trace) (w' : World) :
    forallb isBoundaryEvent tr = true ->
    trace w' = trace w ++ tr -> stdout w' = stdout w ->
    stepQuiet n nFin out w -> stepQuiet n nFin out w'.
Proof.
    intros Hb Htr Hout (H1 & H2 & H3). unfold stepQuiet.
    rewrite Htr, Hout, !occurrences_app.
    rewrite !(occurrences_boundary _ tr) by (reflexivity || exact Hb).
    rewrite !Nat.add_0_r. now repeat split.
Qed.

Lemma quiet_run {S : Type} (n : nat) (Xa : World -> Prop)
      (getS : World -> S) (setS : S -> World -> World) (m : Method S) :
    boundaryMethod m ->
    (forall s w, trace (setS s w) = trace w /\ stdout (setS s w) = stdout w) ->
    triple (stepQuiet n nFin out) (run getS setS m) (stepQuiet n nFin out) Xa.
Proof.
    intros Hm Hset. apply triple_modify. intros w Hw.
    destruct (Hset (fst (m (getS w))) w) as [Ht Hs].
    apply (quiet_boundary n w (snd (m (getS w)))); [apply Hm | | | exact Hw];
      rewrite runOn_eq; cbn [trace stdout add_trace]; congruence.
Qed.

Lemma running_run {S : Type}
      (getS : World -> S) (setS : S -> World -> World) (m : Method S) :
    boundaryMethod m ->
    (forall s w, trace (setS s w) = trace w /\ stdout (setS s w) = stdout w /\
                 P (setS s w) = P w /\ Pp (setS s w) = Pp w) ->
    triple R (run getS setS m) R X.
Proof.
    intros Hm Hset. apply triple_modify. intros w (Hq & HP & HPp).
    destruct (Hset (fst (m (getS w))) w) as (Ht & Hs & H1 & H2).
    split; [|split].
    - apply (quiet_boundary nMg w (snd (m (getS w)))); [apply Hm | | | exact Hq];
        rewrite runOn_eq; cbn [trace stdout add_trace]; congruence.
    - rewrite runOn_eq. cbn [P add_trace]. now rewrite H1.
    - rewrite runOn_eq. cbn [Pp add_trace]. now rewrite H2.
Qed.

Lemma running_solve (s : eulerCN_d3_cc.Solver) :
    triple R (eulerCN_d3_cc.solve ts (eulerCN_d3_cc.unknownOf E ts PLANAR s)) R X.
Proof.
    apply triple_solve.
    - intros w (Hq & HP & HPp).
      destruct (sweep_trace E ts PLANAR s w) as (tr & Htr & Hb & _).
      destruct (sweep_frame E ts PLANAR s w) as (Hout & _).
      destruct (sweep_solverFrame E ts PLANAR s w) as (F1 & F2 & _).
      split; [|split].
      + now apply (quiet_boundary nMg w tr).
      + now rewrite F1.
      + now rewrite F2.
    - intros w ((H1 & H2 & H3) & HP & HPp).
      destruct (aborted_stdout E ts PLANAR s w) as (S0 & Sr).
      unfold X, stepAborted.
      rewrite aborted_trace, !occurrences_app, H1, H2.
      split; [cbn; lia|]. split; [cbn; lia|].
      split; [|split; [|split]].
      + exists (eulerCN_d3_cc.u_name (eulerCN_d3_cc.unknownOf E ts PLANAR s)).
        split; [destruct s; cbn; tauto|].
        rewrite S0, H3. reflexivity.
      + intros r Hr. rewrite Sr by exact Hr. now rewrite H3.
      + exact HP.
      + exact HPp.
Qed.

Lemma running_callSG_V :
    triple R (eulerCN_d3_cc.callComputeSG_V E) R X.
Proof.
    intros w ((H1 & H2 & H3) & HP & HPp). apply wp_callComputeSG_V. cbv zeta.
    unfold R, stepRunning, stepQuiet.
    cbn [trace stdout P Pp set_nseRHS add_trace].
    rewrite !occurrences_app, H1, H2. cbn. rewrite !Nat.add_0_r.
    now repeat split.
Qed.

Lemma running_callSG_VT :
    triple R (eulerCN_d3_cc.callComputeSG_VT E) R X.
Proof.
    intros w ((H1 & H2 & H3) & HP & HPp). apply wp_callComputeSG_VT. cbv zeta.
    unfold R, stepRunning, stepQuiet.
    cbn [trace stdout P Pp set_nseRHS set_tmpRHS add_trace].
    rewrite !occurrences_app, H1, H2. cbn. rewrite !Nat.add_0_r.
    now repeat split.
Qed.

Lemma running_gradient_P :
    triple R (eulerCN_d3_cc.gradient_into_pressureGradient E ts PLANAR P set_P) R X.
Proof.
    apply triple_modify. intros w (Hq & HP & HPp).
    pose proof (gradient_F E (mesh ts) PLANAR (P w) (pressureGradient w)) as HF.
    destruct (sfield_cc.gradient E (mesh ts) PLANAR (P w) (pressureGradient w))
      as [s g].
    cbn [fst] in HF. unfold R, stepRunning, stepQuiet in *.
    cbn [trace stdout P Pp set_pressureGradient set_P].
    rewrite HF. now repeat split.
Qed.

Lemma quiet_gradient (n : nat) (Xa : World -> Prop)
      (getS : World -> Sfield.t) (setS : Sfield.t -> World -> World) :
    (forall s w, trace (setS s w) = trace w /\ stdout (setS s w) = stdout w) ->
    triple (stepQuiet n nFin out)
           (eulerCN_d3_cc.gradient_into_pressureGradient E ts PLANAR getS setS)
           (stepQuiet n nFin out) Xa.
Proof.
    intros Hset. apply triple_modify. intros w Hq.
    destruct (sfield_cc.gradient E (mesh ts) PLANAR (getS w) (pressureGradient w))
      as [s g].
    destruct (Hset s w) as [Ht Hs]. unfold stepQuiet in *.
    cbn [trace stdout set_pressureGradient]. now rewrite Ht, Hs.
Qed.

  (** The steps of both overloads from [V.divergence(mgRHS)] on *)
Lemma quiet_tail (TEST_POISSON : bool) (Xa : World -> Prop) (last : M unit) :
    triple (stepQuiet (S nMg) nFin out) last (stepQuiet (S nMg) nFin out) Xa ->
    triple (stepQuiet nMg nFin out)
      (eulerCN_d3_cc.project E ts ;;
       whenM TEST_POISSON
         (modify (fun w => set_mgRHS (Plainsf.mk (dfill 1%Qc)) w)) ;;
       eulerCN_d3_cc.callMgSolve E ;;
       run Pp set_Pp (sfield_cc.syncData E) ;;
       whenM TEST_POISSON
         (modify (fun w =>
            set_P (Sfield.mk (field_cc.assign_real (Sfield.F (P w)) 0%Qc)
                             (Sfield.derivTemp (P w)) (Sfield.fieldName (P w))) w)) ;;
       eulerCN_d3_cc.correct E ts PLANAR ;;
       run V set_V (call EvImposeVBCs (V_imposeBCs E)) ;;
       last)%prog
      (stepQuiet (S nMg) nFin out) Xa.
Proof.
    intros Hlast.
    set (J0 := stepQuiet nMg nFin out). set (J1 := stepQuiet (S nMg) nFin out).
    unfold eulerCN_d3_cc.project, eulerCN_d3_cc.correct,
      eulerCN_d3_cc.callMgSolve, emit.
    apply (triple_bind J0 J0).
    { apply (triple_bind J0 J0); [|intros ?]; subst J0; step_pure. }
    intros _.
    apply (triple_bind J0 J0); [apply triple_whenM; subst J0; step_pure|].
    intros _.
    apply (triple_bind J0 J1).
    { apply (triple_bind J0 J0); [subst J0; step_pure|]. intros _.
      apply triple_modify. intros w (H1 & H2 & H3). unfold J1, stepQuiet.
      cbn [trace stdout add_trace]. rewrite !occurrences_app, H1, H2.
      cbn. split; [lia|]. split; [lia | exact H3]. }
    intros _.
    apply (triple_bind J1 J1).
    { apply quiet_run; [apply boundary_sfield_sync | intros; split; reflexivity]. }
    intros _.
    apply (triple_bind J1 J1); [apply triple_whenM; subst J1; step_pure|].
    intros _.
    apply (triple_bind J1 J1).
    { apply (triple_bind J1 J1); [subst J1; step_pure|]. intros _.
      apply (triple_bind J1 J1).
      { apply quiet_gradient. intros; split; reflexivity. }
      intros _.
      apply (triple_bind J1 J1); [|intros ?]; subst J1; step_pure. }
    intros _.
    apply (triple_bind J1 J1).
    { apply quiet_run; [apply boundary_call; reflexivity | intros; split; reflexivity]. }
    intros _. exact Hlast.
Qed.

Lemma quiet_imposeBCs (n : nat) (Xa : World -> Prop)
      (getS : World -> Sfield.t) (setS : Sfield.t -> World -> World) :
    (forall s w, trace (setS s w) = trace w /\ stdout (setS s w) = stdout w) ->
    triple (stepQuiet n nFin out)
           (run getS setS (sfield_cc.imposeBCs E (mesh ts) PLANAR))
           (stepQuiet n nFin out) Xa.
Proof.
    intros Hset. apply quiet_run; [apply boundary_imposeBCs | exact Hset].
Qed.

Lemma running_quiet (w : World) : R w -> stepQuiet nMg nFin out w.
Proof. now intros (H & _). Qed.

Lemma timeAdvance_triple (TEST_POISSON : bool) :
    triple R (eulerCN_d3_cc.timeAdvance E ts PLANAR TEST_POISSON)
           (stepQuiet (S nMg) nFin out) X.
Proof.
    unfold eulerCN_d3_cc.timeAdvance.
    do 5 (apply (triple_bind R R); [subst R; step_pure | intros _]).
    apply (triple_bind R R).
    { apply triple_whenM. apply (triple_bind R R); [apply running_callSG_V|].
      intros ?. subst R; step_pure. }
    intros _.
    apply (triple_bind R R); [subst R; step_pure | intros _].
    apply (triple_bind R R); [apply running_gradient_P | intros _].
    do 3 (apply (triple_bind R R); [subst R; step_pure | intros _]).
    apply (triple_bind R R).
    { apply running_run; [apply boundary_plainvf_sync | intros; repeat split]. }
    intros _.
    apply (triple_bind R R); [apply (running_solve eulerCN_d3_cc.SolveVx) | intros _].
    apply (triple_bind R R); [apply (running_solve eulerCN_d3_cc.SolveVy) | intros _].
    apply (triple_bind R R); [apply (running_solve eulerCN_d3_cc.SolveVz) | intros _].
    apply (triple_pre R (stepQuiet nMg nFin out)); [apply running_quiet|].
    apply quiet_tail.
    apply quiet_imposeBCs. intros; split; reflexivity.
Qed.

Lemma timeAdvance_T_triple :
    triple R (eulerCN_d3_cc.timeAdvance_T E ts PLANAR)
           (stepQuiet (S nMg) nFin out) X.
Proof.
    unfold eulerCN_d3_cc.timeAdvance_T.
    do 10 (apply (triple_bind R R); [subst R; step_pure | intros _]).
    apply (triple_bind R R).
    { apply triple_whenM.
      apply (triple_bind R R); [|intros ?; subst R; step_pure].
      repeat apply triple_if;
        [apply running_callSG_V | apply running_callSG_VT
         | apply triple_ret; auto]. }
    intros _.
    apply (triple_bind R R); [subst R; step_pure | intros _].
    apply (triple_bind R R); [apply running_gradient_P | intros _].
    do 5 (apply (triple_bind R R); [subst R; step_pure | intros _]).
    apply (triple_bind R R).
    { apply running_run; [apply boundary_plainvf_sync | intros; repeat split]. }
    intros _.
    apply (triple_bind R R).
    { apply running_run; [apply boundary_plainsf_sync | intros; repeat split]. }
    intros _.
    apply (triple_bind R R); [apply (running_solve eulerCN_d3_cc.SolveVx) | intros _].
    apply (triple_bind R R); [apply (running_solve eulerCN_d3_cc.SolveVy) | intros _].
    apply (triple_bind R R); [apply (running_solve eulerCN_d3_cc.SolveVz) | intros _].
    apply (triple_bind R R); [apply (running_solve eulerCN_d3_cc.SolveT) | intros _].
    apply (triple_pre R (stepQuiet nMg nFin out)); [apply running_quiet|].
    apply (quiet_tail false).
    apply (triple_bind (stepQuiet (S nMg) nFin out) (stepQuiet (S nMg) nFin out));
      [|intros _]; apply quiet_imposeBCs; intros; split; reflexivity.
Qed.

End StepEnds.

(** X21.  How a time step ends.  Either overload of [timeAdvance] returns or
    ends the process, and it ends the process with status 0 only.  When it
    returns, the multigrid solver has been called exactly once, [MPI_Finalize]
    has not been called and nothing has been printed.  When it ends the
    process (a solver did not converge), the multigrid solver has not been
    called, [MPI_Finalize] has been called once, rank 0 has printed the error
    line of one solver and the other ranks nothing, and the array of [P] and
    the correction [Pp] are as they were. *)
Theorem timeAdvance_ends
    (E : Collaborators) (ts : eulerCN_d3) (PLANAR TEST_POISSON : bool)
    (w : World) :
  let nMg := occurrences EvMgSolve (trace w) in
  let nFin := occurrences EvFinalize (trace w) in
  let ends (res : Result unit) : Prop :=
    (exists w', res = Done tt w' /\ stepQuiet (S nMg) nFin (stdout w) w') \/
    (exists w', res = Exited 0 w' /\
                stepAborted nMg nFin (stdout w) (Sfield.F (P w)) (Pp w) w') in
  ends (eulerCN_d3_cc.timeAdvance E ts PLANAR TEST_POISSON w) /\
  ends (eulerCN_d3_cc.timeAdvance_T E ts PLANAR w).
Proof.
  cbv zeta.
  assert (HR : stepRunning (occurrences EvMgSolve (trace w))
                 (occurrences EvFinalize (trace w)) (stdout w)
                 (Sfield.F (P w)) (Pp w) w)
    by (repeat split).
  split.
  - destruct (triple_result _ _ _ _ w
                (timeAdvance_triple E ts PLANAR _ _ _ _ _ TEST_POISSON) HR)
      as [([] & w' & Hrun & Hq) | (st & w' & Hrun & Hx)].
    + left. now exists w'.
    + right. exists w'. split; [|exact Hx].
      now rewrite (timeAdvance_exitsWith E ts PLANAR TEST_POISSON _ _ _ Hrun) in Hrun.
  - destruct (triple_result _ _ _ _ w
                (timeAdvance_T_triple E ts PLANAR _ _ _ _ _) HR)
      as [([] & w' & Hrun & Hq) | (st & w' & Hrun & Hx)].
    + left. now exists w'.
    + right. exists w'. split; [|exact Hx].
      now rewrite (timeAdvance_T_exitsWith E ts PLANAR _ _ _ Hrun) in Hrun.
Qed.

(** ** The pressure after a time step *)

Ltac fixed_pure :=
  apply triple_modify;
  let w := fresh "w" in let H := fresh "H" in
  intros w H; unfold pressureIs, pressureCoreIs in *; split_pairs; exact H.

Section PressureUpdate.

Variable E : Collaborators.
Variable ts : eulerCN_d3.
Variable PLANAR : bool.
Hypothesis HE : respectsCore E (coreDomain (mesh ts)).

Variable pF : Field.t.

Let A (w : World) : Prop := Sfield.F (P w) = pF.
Let Xa (w : World) : Prop := True.

Lemma fixed_run {S : Type}
      (getS : World -> S) (setS : S -> World -> World) (m : Method S) :
    (forall s w, P (setS s w) = P w) ->
    triple A (run getS setS m) A Xa.
Proof.
    intros Hset. apply triple_modify. intros w Hw.
    rewrite runOn_eq. unfold A. cbn [P add_trace]. now rewrite Hset.
Qed.

Lemma fixed_solve (s : eulerCN_d3_cc.Solver) :
    triple A (eulerCN_d3_cc.solve ts (eulerCN_d3_cc.unknownOf E ts PLANAR s)) A Xa.
Proof.
    apply triple_solve; [|intros; exact I].
    intros w Hw.
    destruct (sweep_solverFrame E ts PLANAR s w) as (F1 & _).
    unfold A. now rewrite F1.
Qed.

Lemma fixed_gradient_P :
    triple A (eulerCN_d3_cc.gradient_into_pressureGradient E ts PLANAR P set_P) A Xa.
Proof.
    apply triple_modify. intros w Hw.
    pose proof (gradient_F E (mesh ts) PLANAR (P w) (pressureGradient w)) as HF.
    destruct (sfield_cc.gradient E (mesh ts) PLANAR (P w) (pressureGradient w))
      as [s g].
    cbn [fst] in HF. unfold A in *. cbn [P set_pressureGradient set_P].
    now rewrite HF.
Qed.

Lemma fixed_callSG_V : triple A (eulerCN_d3_cc.callComputeSG_V E) A Xa.
Proof. intros w Hw. apply wp_callComputeSG_V. exact Hw. Qed.

Lemma fixed_callSG_VT : triple A (eulerCN_d3_cc.callComputeSG_VT E) A Xa.
Proof. intros w Hw. apply wp_callComputeSG_VT. exact Hw. Qed.

  (** The steps of both overloads from [V.divergence(mgRHS)] on *)
Lemma pressure_tail (TEST_POISSON : bool) (last : M unit) :
    let p0 := if TEST_POISSON then dfill 0%Qc else Field.F pF in
    triple (pressureCoreIs (coreDomain (mesh ts)) p0) last
           (pressureCoreIs (coreDomain (mesh ts)) p0) Xa ->
    triple A
      (eulerCN_d3_cc.project E ts ;;
       whenM TEST_POISSON
         (modify (fun w => set_mgRHS (Plainsf.mk (dfill 1%Qc)) w)) ;;
       eulerCN_d3_cc.callMgSolve E ;;
       run Pp set_Pp (sfield_cc.syncData E) ;;
       whenM TEST_POISSON
         (modify (fun w =>
            set_P (Sfield.mk (field_cc.assign_real (Sfield.F (P w)) 0%Qc)
                             (Sfield.derivTemp (P w)) (Sfield.fieldName (P w))) w)) ;;
       eulerCN_d3_cc.correct E ts PLANAR ;;
       run V set_V (call EvImposeVBCs (V_imposeBCs E)) ;;
       run P set_P (sfield_cc.imposeBCs E (mesh ts) PLANAR) ;;
       last)%prog
      (pressureCoreIs (coreDomain (mesh ts)) p0) Xa.
Proof.
    intros p0 Hlast.
    set (B0 := fun w : World => Field.F (Sfield.F (P w)) = p0).
    set (B := pressureIs p0).
    set (C := pressureCoreIs (coreDomain (mesh ts)) p0).
    unfold eulerCN_d3_cc.project, eulerCN_d3_cc.correct,
      eulerCN_d3_cc.callMgSolve, emit.
    apply (triple_bind A A).
    { apply (triple_bind A A); [|intros ?]; subst A; fixed_pure. }
    intros _.
    apply (triple_bind A A); [apply triple_whenM; subst A; fixed_pure|].
    intros _.
    apply (triple_bind A A).
    { apply (triple_bind A A); [|intros ?]; subst A; fixed_pure. }
    intros _.
    apply (triple_bind A A); [apply fixed_run; reflexivity|].
    intros _.
    apply (triple_bind A B0).
    { subst p0 B0. destruct TEST_POISSON; cbn [whenM].
      - apply triple_modify. intros w _. reflexivity.
      - apply triple_ret. intros w Hw. unfold A in Hw. now rewrite Hw. }
    intros _.
    apply (triple_bind B0 B).
    { apply (triple_bind B0 B).
      { apply triple_modify. intros w Hw. unfold B, pressureIs, B0 in *.
        cbn. now rewrite <- Hw. }
      intros _.
      apply (triple_bind B B).
      { apply triple_modify. intros w Hw.
        pose proof (gradient_F E (mesh ts) PLANAR (Pp w) (pressureGradient w)) as HF.
        destruct (sfield_cc.gradient E (mesh ts) PLANAR (Pp w) (pressureGradient w))
          as [s g].
        cbn [fst] in HF. unfold B, pressureIs in *.
        cbn [P Pp set_pressureGradient set_Pp]. now rewrite HF. }
      intros _.
      apply (triple_bind B B); [|intros ?]; subst B; fixed_pure. }
    intros _.
    apply (triple_bind B B).
    { apply triple_modify. intros w Hw. rewrite runOn_eq. exact Hw. }
    intros _.
    apply (triple_bind B C); [|intros _; exact Hlast].
    apply triple_modify. intros w Hw. rewrite runOn_eq.
    unfold C, pressureCoreIs, B, pressureIs in *.
    cbn [P Pp set_P add_trace].
    eapply agree_trans; [apply (imposeBCs_core E ts PLANAR HE)|].
    rewrite Hw. apply agree_refl.
Qed.

Lemma core_run_T (p0 : DArray) (m : Method Sfield.t) :
    triple (pressureCoreIs (coreDomain (mesh ts)) p0) (run T set_T m)
           (pressureCoreIs (coreDomain (mesh ts)) p0) Xa.
Proof.
    apply triple_modify. intros w Hw. rewrite runOn_eq. exact Hw.
Qed.

Lemma timeAdvance_pressure (TEST_POISSON : bool) :
    triple A (eulerCN_d3_cc.timeAdvance E ts PLANAR TEST_POISSON)
      (pressureCoreIs (coreDomain (mesh ts))
         (if TEST_POISSON then dfill 0%Qc else Field.F pF)) Xa.
Proof.
    unfold eulerCN_d3_cc.timeAdvance.
    do 5 (apply (triple_bind A A); [subst A; fixed_pure | intros _]).
    apply (triple_bind A A).
    { apply triple_whenM. apply (triple_bind A A); [apply fixed_callSG_V|].
      intros ?. subst A; fixed_pure. }
    intros _.
    apply (triple_bind A A); [subst A; fixed_pure | intros _].
    apply (triple_bind A A); [apply fixed_gradient_P | intros _].
    do 3 (apply (triple_bind A A); [subst A; fixed_pure | intros _]).
    apply (triple_bind A A); [apply fixed_run; reflexivity | intros _].
    apply (triple_bind A A); [apply (fixed_solve eulerCN_d3_cc.SolveVx) | intros _].
    apply (triple_bind A A); [apply (fixed_solve eulerCN_d3_cc.SolveVy) | intros _].
    apply (triple_bind A A); [apply (fixed_solve eulerCN_d3_cc.SolveVz) | intros _].
    apply (pressure_tail TEST_POISSON (ret tt)).
    apply triple_ret. auto.
Qed.

Lemma timeAdvance_T_pressure :
    triple A (eulerCN_d3_cc.timeAdvance_T E ts PLANAR)
      (pressureCoreIs (coreDomain (mesh ts)) (Field.F pF)) Xa.
Proof.
    unfold eulerCN_d3_cc.timeAdvance_T.
    do 10 (apply (triple_bind A A); [subst A; fixed_pure | intros _]).
    apply (triple_bind A A).
    { apply triple_whenM.
      apply (triple_bind A A); [|intros ?; subst A; fixed_pure].
      repeat apply triple_if;
        [apply fixed_callSG_V | apply fixed_callSG_VT | apply triple_ret; auto]. }
    intros _.
    apply (triple_bind A A); [subst A; fixed_pure | intros _].
    apply (triple_bind A A); [apply fixed_gradient_P | intros _].
    do 5 (apply (triple_bind A A); [subst A; fixed_pure | intros _]).
    apply (triple_bind A A); [apply fixed_run; reflexivity | intros _].
    apply (triple_bind A A); [apply fixed_run; reflexivity | intros _].
    apply (triple_bind A A); [apply (fixed_solve eulerCN_d3_cc.SolveVx) | intros _].
    apply (triple_bind A A); [apply (fixed_solve eulerCN_d3_cc.SolveVy) | intros _].
    apply (triple_bind A A); [apply (fixed_solve eulerCN_d3_cc.SolveVz) | intros _].
    apply (triple_bind A A); [apply (fixed_solve eulerCN_d3_cc.SolveT) | intros _].
    apply (pressure_tail false).
    apply core_run_T.
Qed.

  (** The predictor stages do not assign to the array of [P] *)
Lemma predictor_fixed : triple A (predictor E ts PLANAR) A Xa.
Proof.
    unfold predictor.
    do 5 (apply (triple_bind A A); [subst A; fixed_pure | intros _]).
    apply (triple_bind A A).
    { apply triple_whenM. apply (triple_bind A A); [apply fixed_callSG_V|].
      intros ?. subst A; fixed_pure. }
    intros _.
    apply (triple_bind A A); [subst A; fixed_pure | intros _].
    apply (triple_bind A A); [apply fixed_gradient_P | intros _].
    do 3 (apply (triple_bind A A); [subst A; fixed_pure | intros _]).
    apply (triple_bind A A); [apply fixed_run; reflexivity | intros _].
    apply (triple_bind A A); [apply (fixed_solve eulerCN_d3_cc.SolveVx) | intros _].
    apply (triple_bind A A); [apply (fixed_solve eulerCN_d3_cc.SolveVy) | intros _].
    apply (fixed_solve eulerCN_d3_cc.SolveVz).
Qed.

Lemma predictor_T_fixed : triple A (predictor_T E ts PLANAR) A Xa.
Proof.
    unfold predictor_T.
    do 10 (apply (triple_bind A A); [subst A; fixed_pure | intros _]).
    apply (triple_bind A A).
    { apply triple_whenM.
      apply (triple_bind A A); [|intros ?; subst A; fixed_pure].
      repeat apply triple_if;
        [apply fixed_callSG_V | apply fixed_callSG_VT | apply triple_ret; auto]. }
    intros _.
    apply (triple_bind A A); [subst A; fixed_pure | intros _].
    apply (triple_bind A A); [apply fixed_gradient_P | intros _].
    do 5 (apply (triple_bind A A); [subst A; fixed_pure | intros _]).
    apply (triple_bind A A); [apply fixed_run; reflexivity | intros _].
    apply (triple_bind A A); [apply fixed_run; reflexivity | intros _].
    apply (triple_bind A A); [apply (fixed_solve eulerCN_d3_cc.SolveVx) | intros _].
    apply (triple_bind A A); [apply (fixed_solve eulerCN_d3_cc.SolveVy) | intros _].
    apply (triple_bind A A); [apply (fixed_solve eulerCN_d3_cc.SolveVz) | intros _].
    apply (fixed_solve eulerCN_d3_cc.SolveT).
Qed.

End PressureUpdate.

(** X22.  The pressure update.  If the halo exchange and the wall objects
    write outside the core, a time step that returns leaves in every core
    cell of [P] the sum of the old pressure and the correction [Pp] that the
    multigrid solver produced (with [TEST_POISSON], the correction alone,
    since [P] is set to zero first).  A step that does not return has ended
    the process; it never stops for lack of fuel. *)
Theorem timeAdvance_pressure_update
    (E : Collaborators) (ts : eulerCN_d3) (PLANAR TEST_POISSON : bool)
    (w : World) :
  respectsCore E (coreDomain (mesh ts)) ->
  let old := Field.F (Sfield.F (P w)) in
  let updated (p0 : DArray) (w' : World) : Prop :=
    forall r i j k,
      Blitz.inDomain (coreDomain (mesh ts)) i j k = true ->
      Field.F (Sfield.F (P w')) r i j k
      = (p0 r i j k + Field.F (Sfield.F (Pp w')) r i j k)%Qc in
  wp (eulerCN_d3_cc.timeAdvance E ts PLANAR TEST_POISSON)
     (fun _ => updated (if TEST_POISSON then dfill 0%Qc else old))
     (fun _ => True) w /\
  wp (eulerCN_d3_cc.timeAdvance_T E ts PLANAR)
     (fun _ => updated old) (fun _ => True) w.
Proof.
  intros HE. cbv zeta. split.
  - apply (timeAdvance_pressure E ts PLANAR HE (Sfield.F (P w)) TEST_POISSON w).
    reflexivity.
  - apply (timeAdvance_T_pressure E ts PLANAR HE (Sfield.F (P w)) w).
    reflexivity.
Qed.

(** ** A step of size zero, up to the projection *)

(** C6, amended.  With a step of size zero, a positive tolerance and halo
    exchanges and boundary objects that write outside the core only, the
    predictor part of either overload of [timeAdvance] (the assembly of the
    right-hand sides and the Jacobi solvers) returns, and the world it hands
    to the projection has the core cells of the three velocity components
    (and of [T], in the overload with a scalar) and the whole array of [P]
    as they were at the start.  The step then continues with the projection,
    which begins by scaling with [1.0/dt]; nothing is said of the fields
    after it, nor of the pad and wall cells. *)
Theorem timeAdvance_zero_step
    (E : Collaborators) (ts : eulerCN_d3) (PLANAR TEST_POISSON : bool)
    (w : World) :
  dt ts = 0%Qc ->
  (0 < cnTolerance (inputParams (mesh ts)))%Qc ->
  respectsCore E (coreDomain (mesh ts)) ->
  (exists w1,
     predictor E ts PLANAR w = Done tt w1 /\
     eulerCN_d3_cc.timeAdvance E ts PLANAR TEST_POISSON w
     = corrector E ts PLANAR TEST_POISSON w1 /\
     agreeV (coreDomain (mesh ts)) (V w1) (V w) /\
     Sfield.F (P w1) = Sfield.F (P w)) /\
  (exists w1,
     predictor_T E ts PLANAR w = Done tt w1 /\
     eulerCN_d3_cc.timeAdvance_T E ts PLANAR w = corrector_T E ts PLANAR w1 /\
     agreeV (coreDomain (mesh ts)) (V w1) (V w) /\
     agree (coreDomain (mesh ts))
           (Field.F (Sfield.F (T w1))) (Field.F (Sfield.F (T w))) /\
     Sfield.F (P w1) = Sfield.F (P w)).
Proof.
  intros Hdt Htol HE. split.
  - destruct (runs_Done _ _ _ w
                (predictor_rest E ts PLANAR Hdt Htol HE
                   (Field.F (Vfield.Vx (V w))) (Field.F (Vfield.Vy (V w)))
                   (Field.F (Vfield.Vz (V w))) (Field.F (Sfield.F (T w)))
                   (Plainsf.F (tmpRHS w))))
      as ([] & w1 & Hrun & (C1 & C2 & C3 & _) & _).
    { split; [repeat split|]; apply agree_refl. }
    exists w1. split; [exact Hrun|]. split; [|split].
    + rewrite timeAdvance_stages. unfold bind. now rewrite Hrun.
    + now repeat split.
    + pose proof (predictor_fixed E ts PLANAR (Sfield.F (P w)) w eq_refl) as HP.
      unfold wp in HP. now rewrite Hrun in HP.
  - destruct (runs_Done _ _ _ w
                (predictor_T_rest E ts PLANAR Hdt Htol HE
                   (Field.F (Vfield.Vx (V w))) (Field.F (Vfield.Vy (V w)))
                   (Field.F (Vfield.Vz (V w))) (Field.F (Sfield.F (T w)))))
      as ([] & w1 & Hrun & (C1 & C2 & C3 & C4) & _).
    { repeat split; apply agree_refl. }
    exists w1. split; [exact Hrun|]. split; [|split; [|split]].
    + rewrite timeAdvance_T_stages. unfold bind. now rewrite Hrun.
    + now repeat split.
    + exact C4.
    + pose proof (predictor_T_fixed E ts PLANAR (Sfield.F (P w)) w eq_refl) as HP.
      unfold wp in HP. now rewrite Hrun in HP.
Qed.

(** ** The further properties on the small configuration *)

Lemma timeAdvance_zero_step_witness :
  exists w1,
    predictor_T (Ex.collab 1%Qc) Ex.atRest false Ex.world = Done tt w1 /\
    agreeV Ex.core (V w1) (V Ex.world) /\
    agree Ex.core (Field.F (Sfield.F (T w1))) (Field.F (Sfield.F (T Ex.world))) /\
    Sfield.F (P w1) = Sfield.F (P Ex.world).
Proof.
  destruct (proj2 (timeAdvance_zero_step (Ex.collab 1%Qc) Ex.atRest false false
                     Ex.world eq_refl eq_refl (Ex_respectsCore 1%Qc)))
    as (w1 & H1 & _ & H3 & H4 & H5).
  exists w1. split; [exact H1|]. split; [exact H3|]. split; [exact H4 | exact H5].
Defined.


Lemma wall_slices_outside_core_witness :
  (-1 = Blitz.tv_get (Blitz.lbound Ex.core) 0 - 1)%Z /\
  Blitz.inDomain Ex.core (-1) 0 0 = false.
Proof.
  exact (proj2 (wall_slices_outside_core (-1, -1, -1)%Z (2, 1, 2)%Z Ex.core)
           0%nat (Blitz.mkRectDomain (-1, -1, -1)%Z (-1, 1, 2)%Z)
           (-1)%Z 0%Z 0%Z eq_refl eq_refl).
Defined.

Lemma wall_slices_inside_array_witness :
  Blitz.inDomain Ex.full (-1) 0 0 = true.
Proof.
  apply (wall_slices_inside_array (-1, -1, -1)%Z (2, 1, 2)%Z Ex.core
           (Blitz.mkRectDomain (-1, -1, -1)%Z (-1, 1, 2)%Z) (-1) 0 0).
  - intros d Hd. destruct d as [|[|[|d]]]; cbn; lia.
  - left. reflexivity.
  - reflexivity.
Defined.

Lemma wall_slices_cover_shell_witness :
  existsb (fun W => Blitz.inDomain W 2 1 2)
          (field_walls.setWallSlices (-1, -1, -1)%Z (2, 1, 2)%Z Ex.core) = true.
Proof.
  apply (wall_slices_cover_shell (-1, -1, -1)%Z (2, 1, 2)%Z Ex.core 2 1 2);
    reflexivity.
Defined.

Lemma fieldMax_upper_bound_witness :
  (Qcabs (Ex.ones 1%nat 0%Z 0%Z 0%Z)
   <= field_cc.fieldMax (mesh Ex.loose) (Vfield.Vx (V Ex.world)))%Qc.
Proof.
  apply (fieldMax_upper_bound (mesh Ex.loose) (Vfield.Vx (V Ex.world))
           1%nat 0%Z 0%Z 0%Z); [cbn; lia | reflexivity].
Defined.

Lemma fieldMax_attained_witness :
  (0 <= field_cc.fieldMax (mesh Ex.loose) (Vfield.Vx (V Ex.world)))%Qc.
Proof.
  apply (fieldMax_attained (mesh Ex.loose) (Vfield.Vx (V Ex.world)) 0%Z 0%Z 0%Z);
    [cbn; lia | reflexivity].
Defined.

Lemma fieldMax_assign_real_witness :
  field_cc.fieldMax (mesh Ex.loose)
    (field_cc.assign_real (Vfield.Vx (V Ex.world)) (- (1))%Qc)
  = Qcabs (- (1))%Qc.
Proof.
  apply (fieldMax_assign_real (mesh Ex.loose) (Vfield.Vx (V Ex.world))
           (- (1))%Qc 0%Z 0%Z 0%Z); [cbn; lia | reflexivity].
Defined.

Lemma fieldMax_triangle_witness :
  (field_cc.fieldMax (mesh Ex.loose)
     (field_cc.add_assign (Vfield.Vx (V Ex.world)) (Vfield.Vy (V Ex.world)))
   <= field_cc.fieldMax (mesh Ex.loose) (Vfield.Vx (V Ex.world))
      + field_cc.fieldMax (mesh Ex.loose) (Vfield.Vy (V Ex.world)))%Qc.
Proof.
  apply (fieldMax_triangle (mesh Ex.loose) (Vfield.Vx (V Ex.world))
           (Vfield.Vy (V Ex.world)) 0%Z 0%Z 0%Z); [cbn; lia | reflexivity].
Defined.

Lemma imposeBCs_keeps_core_witness :
  agree Ex.core
    (Field.F (Sfield.F (fst (sfield_cc.imposeBCs (Ex.collab 0%Qc) (mesh Ex.loose)
                                false (T Ex.world)))))
    (Field.F (Sfield.F (T Ex.world))).
Proof.
  exact (proj1 (imposeBCs_keeps_core (Ex.collab 0%Qc) (mesh Ex.loose) false
                  (T Ex.world) (Ex_respectsCore 0%Qc))).
Defined.


Lemma solver_returns_within_tolerance_witness :
  let u := eulerCN_d3_cc.unknownOf (Ex.collab 0%Qc) Ex.loose false
             eulerCN_d3_cc.SolveVx in
  let w' := after_sweeps Ex.loose u 1 Ex.world in
  eulerCN_d3_cc.solve Ex.loose u Ex.world = Done tt w' /\
  (Qcabs (eulerCN_d3_cc.jacobiDefect Ex.loose (nu Ex.loose) 0%nat
            (eulerCN_d3_cc.u_get u w' 0%nat) 0%Z 0%Z 0%Z
          - eulerCN_d3_cc.u_rhs u w' 0%nat 0%Z 0%Z 0%Z)
   < cnTolerance (inputParams (mesh Ex.loose)))%Qc.
Proof.
  intros u w'.
  assert (Hrun : eulerCN_d3_cc.solve Ex.loose u Ex.world = Done tt w').
  { apply solve_Done_iff. exists 1%nat.
    split; [cbn; lia|]. split; [vm_compute; reflexivity|].
    split; [intros j Hj; lia | reflexivity]. }
  split; [exact Hrun|].
  assert (Hr : (0 < nProc (mesh Ex.loose))%nat) by (cbn; lia).
  exact (proj2 (solver_returns_within_tolerance (Ex.collab 0%Qc) Ex.loose false
                  eulerCN_d3_cc.SolveVx Ex.world w' 0%nat 0%Z 0%Z 0%Z
                  Hrun Hr eq_refl)).
Defined.

Lemma solver_frame_witness :
  solverFrame eulerCN_d3_cc.SolveVx Ex.world
    (aborted (eulerCN_d3_cc.unknownOf (Ex.collab 0%Qc) Ex.strict false
                eulerCN_d3_cc.SolveVx)
       (after_sweeps Ex.strict
          (eulerCN_d3_cc.unknownOf (Ex.collab 0%Qc) Ex.strict false
             eulerCN_d3_cc.SolveVx)
          (S (Z.to_nat (maxIterations Ex.strict))) Ex.world)).
Proof.
  apply (solver_frame (Ex.collab 0%Qc) Ex.strict false eulerCN_d3_cc.SolveVx).
  rewrite solve_never_below; [reflexivity|].
  vm_compute. discriminate.
Defined.

Lemma solver_scratch_outside_core_witness :
  tempVx
    (aborted (eulerCN_d3_cc.unknownOf (Ex.collab 0%Qc) Ex.strict false
                eulerCN_d3_cc.SolveVx)
       (after_sweeps Ex.strict
          (eulerCN_d3_cc.unknownOf (Ex.collab 0%Qc) Ex.strict false
             eulerCN_d3_cc.SolveVx)
          (S (Z.to_nat (maxIterations Ex.strict))) Ex.world))
    0%nat (-1)%Z 0%Z 0%Z
  = tempVx Ex.world 0%nat (-1)%Z 0%Z 0%Z.
Proof.
  apply (solver_scratch_outside_core (Ex.collab 0%Qc) Ex.strict false
           eulerCN_d3_cc.SolveVx Ex.world _ 0%nat (-1)%Z 0%Z 0%Z).
  - rewrite solve_never_below; [reflexivity|].
    vm_compute. discriminate.
  - reflexivity.
Defined.



Lemma timeAdvance_pressure_update_witness :
  wp (eulerCN_d3_cc.timeAdvance_T (Ex.collab 1%Qc) Ex.atRest false)
     (fun _ w' =>
        forall r i j k,
          Blitz.inDomain (coreDomain (mesh Ex.atRest)) i j k = true ->
          Field.F (Sfield.F (P w')) r i j k
          = (Field.F (Sfield.F (P Ex.world)) r i j k
             + Field.F (Sfield.F (Pp w')) r i j k)%Qc)
     (fun _ => True) Ex.world.
Proof.
  exact (proj2 (timeAdvance_pressure_update (Ex.collab 1%Qc) Ex.atRest false false
                  Ex.world (Ex_respectsCore 1%Qc))).
Defined.
